(** * yaml2ical: recurrence modelling and conflict detection

    A shallow embedding of [yaml2ical/meeting.py], [yaml2ical/recurrence.py]
    and [yaml2ical/ical.py], with the library functions they call, together
    with the properties of schedules, occurrence expansion, conflict
    detection and conversion to calendars.

    Conventions of the embedding.
    - Fallible Python code returns [result A]: either [Ok a] or [Raise e] with
      the exception that escapes.
    - A YAML scalar is a [yaml] value: a string, an integer or null.  Strings
      are ASCII strings; an integer has at most 4300 decimal digits, the most
      that Python converts to and from a string.
    - A schedule record is a mapping from strings to scalars; a meeting
      document is a mapping whose entries are scalars, except for the entry
      [schedule], which is a scalar, a mapping, or a sequence of records and
      scalars.
    - A [datetime] is the number of microseconds elapsed since midnight of
      proleptic Gregorian ordinal 0, so that [toordinal], [weekday], the time
      of day and [timedelta] arithmetic are the usual quotient and remainder
      computations; the representable range is that of Python's [datetime]
      (0001-01-01 to 9999-12-31) and leaving it raises [OverflowError].
    - Dictionaries keyed by strings are [gmap string _]; the insertion-ordered
      [defaultdict(list)] of the detector is an association list. *)

From Stdlib Require Import ZArith Ascii String List Lia DecimalString Sorted.
From stdpp Require Import base option list gmap strings.
Import ListNotations.

Open Scope string_scope.
Open Scope Z_scope.

(** ** Python values, exceptions and the error monad *)

Module Py.

(** Scalars that a parsed YAML record carries. *)
Inductive yaml : Type :=
| YStr (s : string)
| YInt (n : Z)
| YNull.

#[global] Instance yaml_eq_dec : EqDecision yaml.
Proof. solve_decision. Defined.

Definition yaml_to_sum (v : yaml) : string + Z + unit :=
  match v with
  | YStr s => inl (inl s)
  | YInt n => inl (inr n)
  | YNull => inr tt
  end.

Definition yaml_of_sum (x : string + Z + unit) : yaml :=
  match x with
  | inl (inl s) => YStr s
  | inl (inr n) => YInt n
  | inr _ => YNull
  end.

#[global] Instance yaml_countable : Countable yaml.
Proof.
  apply (inj_countable' yaml_to_sum yaml_of_sum).
  intros []; reflexivity.
Defined.

(** The exceptions that can escape the modelled code.  [KeyError] carries
    the key that was looked up ([e.args[0]]), [ValueError] and
    [MeetingConflictError] their message. *)
Inductive exn : Type :=
| KeyError (key : yaml)
| ValueError (msg : string)
| TypeError
| AttributeError
| OverflowError
| MeetingConflictError (msg : string).

Inductive result (A : Type) : Type :=
| Ok (a : A)
| Raise (e : exn).
Arguments Ok {A} a.
Arguments Raise {A} e.

Definition bind {A B} (r : result A) (k : A -> result B) : result B :=
  match r with
  | Ok a => k a
  | Raise e => Raise e
  end.

Definition is_ok {A} (r : result A) : bool :=
  match r with Ok _ => true | Raise _ => false end.

(** [d[k]] on a dictionary with string keys. *)
Definition getitem {V} (d : gmap string V) (k : yaml) : result V :=
  match k with
  | YStr s => match d !! s with
              | Some v => Ok v
              | None => Raise (KeyError k)
              end
  | _ => Raise (KeyError k)
  end.

(** *** Strings *)

Definition is_upper (c : ascii) : bool :=
  let n := N_of_ascii c in (65 <=? n)%N && (n <=? 90)%N.

Definition is_lower (c : ascii) : bool :=
  let n := N_of_ascii c in (97 <=? n)%N && (n <=? 122)%N.

Definition lower_char (c : ascii) : ascii :=
  if is_upper c then ascii_of_N (N_of_ascii c + 32) else c.

Definition upper_char (c : ascii) : ascii :=
  if is_lower c then ascii_of_N (N_of_ascii c - 32) else c.

(** [str.lower()] *)
Fixpoint lower (s : string) : string :=
  match s with
  | EmptyString => EmptyString
  | String c r => String (lower_char c) (lower r)
  end.

(** [str.capitalize()]: first character upper-cased, the rest lower-cased. *)
Definition capitalize (s : string) : string :=
  match s with
  | EmptyString => EmptyString
  | String c r => String (upper_char c) (lower r)
  end.

Definition digit (c : ascii) : option Z :=
  let n := N_of_ascii c in
  if (48 <=? n)%N && (n <=? 57)%N then Some (Z.of_N n - 48) else None.

(** White space of an ASCII string, as [int()] skips it: the characters 9
    to 13 and the blank. *)
Definition is_space (c : ascii) : bool :=
  let n := N_of_ascii c in
  (n =? 32)%N || ((9 <=? n)%N && (n <=? 13)%N).

Fixpoint lstrip (s : string) : string :=
  match s with
  | String c r => if is_space c then lstrip r else s
  | EmptyString => EmptyString
  end.

Fixpoint has_char (c : ascii) (s : string) : bool :=
  match s with
  | EmptyString => false
  | String a r => Ascii.eqb a c || has_char c r
  end.

Definition hex_char (n : N) : ascii :=
  ascii_of_N (if (n <? 10)%N then 48 + n else 87 + n).

(** One character of [repr(s)] inside the quotes [quote]. *)
Definition repr_char (quote c : ascii) : string :=
  let n := N_of_ascii c in
  if Ascii.eqb c quote || Ascii.eqb c "\" then String "\" (String c "")
  else if (n =? 9)%N then "\t"
  else if (n =? 10)%N then "\n"
  else if (n =? 13)%N then "\r"
  else if (n <? 32)%N || (n =? 127)%N then
    String "\" (String "x" (String (hex_char (n / 16))
                              (String (hex_char (n mod 16)) "")))
  else String c "".

Fixpoint repr_body (quote : ascii) (s : string) : string :=
  match s with
  | EmptyString => ""
  | String c r => repr_char quote c ++ repr_body quote r
  end.

(** [repr(s)]: in single quotes, unless [s] has a single quote and no
    double quote. *)
Definition repr (s : string) : string :=
  let quote :=
    if has_char "'" s && negb (has_char "034" s) then "034"%char
    else "'"%char in
  String quote (repr_body quote s ++ String quote "").

(** [str(v)] *)
Definition str (v : yaml) : string :=
  match v with
  | YStr s => s
  | YInt n => NilZero.string_of_int (Z.to_int n)
  | YNull => "None"
  end.

(** The digits of an integer literal after the sign: digits, with single
    underscores between them.  The result is the value of the digits read,
    their number, and the rest of the input; there is none when an
    underscore is not followed by a digit. *)
Fixpoint digit_run (s : string) (acc count : Z) : option (Z * Z * string) :=
  match s with
  | EmptyString => Some (acc, count, s)
  | String c r =>
      match digit c with
      | Some d => digit_run r (10 * acc + d) (count + 1)
      | None =>
          if Ascii.eqb c "_"%char then
            match r with
            | String c' _ =>
                match digit c' with
                | Some _ => digit_run r acc count
                | None => None
                end
            | EmptyString => None
            end
          else Some (acc, count, s)
      end
  end.

(** The outcomes of [int(s)] for a string [s]: a value; not a literal; or
    more digits than [sys.get_int_max_str_digits()], which is 4300. *)
Inductive literal : Type :=
| Value (n : Z)
| Invalid
| TooLong (digits : Z).

Definition int_max_str_digits : Z := 4300.

(** White space, a sign, the digits (not starting with an underscore), white
    space.  The limit on the number of digits is checked once the digits are
    read, before what follows them is looked at. *)
Definition int_of_string (s : string) : literal :=
  let s1 := lstrip s in
  let '(sign, s2) :=
    match s1 with
    | String "-" r => (-1, r)
    | String "+" r => (1, r)
    | _ => (1, s1)
    end in
  match s2 with
  | String "_" _ => Invalid
  | _ =>
      match digit_run s2 0 0 with
      | None => Invalid
      | Some (n, count, rest) =>
          if int_max_str_digits <? count then TooLong count
          else if count =? 0 then Invalid
          else match lstrip rest with
               | EmptyString => Value (sign * n)
               | _ => Invalid
               end
      end
  end.

(** [int(v)]: [ValueError] for a string that is not an integer literal or
    has too many digits, [TypeError] for [None]. *)
Definition int (v : yaml) : result Z :=
  match v with
  | YInt n => Ok n
  | YStr s =>
      match int_of_string s with
      | Value n => Ok n
      | Invalid =>
          Raise (ValueError ("invalid literal for int() with base 10: "
                             ++ String.substring 0 200 (repr s)))
      | TooLong count =>
          Raise (ValueError
            ("Exceeds the limit (4300 digits) for integer string conversion: "
             ++ "value has " ++ str (YInt count) ++ " digits; use "
             ++ "sys.set_int_max_str_digits() to increase the limit"))
      end
  | YNull => Raise TypeError
  end.

End Py.
Export Py.

#[global] Instance result_bind : MBind result :=
  fun A B k r => Py.bind r k.
#[global] Instance result_ret : MRet result := @Ok.

(** ** The [datetime] module *)

Module Datetime.

Definition US_PER_MINUTE : Z := 60000000.
Definition US_PER_HOUR : Z := 60 * US_PER_MINUTE.
Definition US_PER_DAY : Z := 24 * US_PER_HOUR.

(** [date.min.toordinal()] and [date.max.toordinal()]. *)
Definition MINORDINAL : Z := 1.
Definition MAXORDINAL : Z := 3652059.

Definition datetime : Type := Z.
Definition timedelta : Type := Z.

Definition toordinal (t : datetime) : Z := t / US_PER_DAY.
(** Microseconds since midnight: what [t.time()] denotes. *)
Definition time_of (t : datetime) : Z := t mod US_PER_DAY.
Definition hour (t : datetime) : Z := time_of t / US_PER_HOUR.
Definition minute (t : datetime) : Z := (time_of t mod US_PER_HOUR) / US_PER_MINUTE.

(** [t.weekday()]: Monday is 0; ordinal 1 is a Monday. *)
Definition weekday (t : datetime) : Z := (toordinal t + 6) mod 7.

Definition in_range (t : Z) : bool :=
  (MINORDINAL * US_PER_DAY <=? t) && (t <? (MAXORDINAL + 1) * US_PER_DAY).

Definition timedelta_days (n : Z) : timedelta := n * US_PER_DAY.
Definition timedelta_minutes (n : Z) : timedelta := n * US_PER_MINUTE.
Definition timedelta_weeks (n : Z) : timedelta := n * 7 * US_PER_DAY.

(** [t + d] and [t - d]: [OverflowError] outside the representable range. *)
Definition add (t : datetime) (d : timedelta) : result datetime :=
  if in_range (t + d) then Ok (t + d) else Raise OverflowError.

Definition sub (t : datetime) (d : timedelta) : result datetime :=
  add t (- d).

(** [datetime.combine(date, time)], the date given by its ordinal and the
    time by its microseconds since midnight. *)
Definition combine (ordinal : Z) (tod : Z) : datetime :=
  ordinal * US_PER_DAY + tod.

(** [datetime(y, m, d, hh, mm)] for the date with the given ordinal. *)
Definition at_hm (ordinal hh mm : Z) : datetime :=
  combine ordinal (hh * US_PER_HOUR + mm * US_PER_MINUTE).

(** [t.strftime("%a")] in the C locale. *)
Definition strftime_a (t : datetime) : string :=
  nth (Z.to_nat (weekday t))
      ["Mon"; "Tue"; "Wed"; "Thu"; "Fri"; "Sat"; "Sun"] "".

(** *** Calendar arithmetic of [datetime.py] *)

Definition is_leap (year : Z) : bool :=
  (year mod 4 =? 0) && (negb (year mod 100 =? 0) || (year mod 400 =? 0)).

Definition days_before_year (year : Z) : Z :=
  let y := year - 1 in y * 365 + y / 4 - y / 100 + y / 400.

Definition DAYS_IN_MONTH : list Z :=
  [31; 28; 31; 30; 31; 30; 31; 31; 30; 31; 30; 31].

Definition days_in_month (year month : Z) : Z :=
  if (month =? 2) && is_leap year then 29
  else nth (Z.to_nat (month - 1)) DAYS_IN_MONTH 0.

Definition days_before_month (year month : Z) : Z :=
  fold_right Z.add 0 (firstn (Z.to_nat (month - 1)) DAYS_IN_MONTH)
  + (if (2 <? month) && is_leap year then 1 else 0).

Definition ymd2ord (year month day : Z) : Z :=
  days_before_year year + days_before_month year month + day.

(** *** [strptime]

    A directive is matched by a regular expression whose alternatives are
    tried in order; a parser returns the possible matches in that order,
    each with the remaining input. *)

Definition parser : Type := string -> list (Z * string).

Definition two_digits (P : Z -> Z -> bool) : parser := fun s =>
  match s with
  | String a (String b r) =>
      match digit a, digit b with
      | Some x, Some y => if P x y then [(10 * x + y, r)] else []
      | _, _ => []
      end
  | _ => []
  end.

Definition one_digit (P : Z -> bool) : parser := fun s =>
  match s with
  | String a r =>
      match digit a with
      | Some x => if P x then [(x, r)] else []
      | None => []
      end
  | _ => []
  end.

Definition alt (p q : parser) : parser := fun s => (p s ++ q s)%list.

(** [%H]: [2[0-3]|[0-1]\d|\d] *)
Definition re_H : parser :=
  alt (two_digits (fun x y => (x =? 2) && (y <=? 3)))
 (alt (two_digits (fun x _ => x <=? 1))
      (one_digit (fun _ => true))).

(** [%M]: [[0-5]\d|\d] *)
Definition re_M : parser :=
  alt (two_digits (fun x _ => x <=? 5)) (one_digit (fun _ => true)).

(** [%Y]: [\d\d\d\d] *)
Definition re_Y : parser := fun s =>
  match s with
  | String a (String b (String c (String d r))) =>
      match digit a, digit b, digit c, digit d with
      | Some x, Some y, Some z, Some w =>
          [(1000 * x + 100 * y + 10 * z + w, r)]
      | _, _, _, _ => []
      end
  | _ => []
  end.

(** [%m]: [1[0-2]|0[1-9]|[1-9]] *)
Definition re_m : parser :=
  alt (two_digits (fun x y => (x =? 1) && (y <=? 2)))
 (alt (two_digits (fun x y => (x =? 0) && (1 <=? y)))
      (one_digit (fun x => 1 <=? x))).

(** [%d]: [3[0-1]|[1-2]\d|0[1-9]|[1-9]| [1-9]] *)
Definition re_d : parser :=
  alt (two_digits (fun x y => (x =? 3) && (y <=? 1)))
 (alt (two_digits (fun x _ => (1 <=? x) && (x <=? 2)))
 (alt (two_digits (fun x y => (x =? 0) && (1 <=? y)))
 (alt (one_digit (fun x => 1 <=? x))
      (fun s => match s with
                | String " " r => one_digit (fun x => 1 <=? x) r
                | _ => []
                end)))).

(** [datetime.strptime(s, '%H%M')]: the first match of the pattern must
    consume the whole input; the date defaults to 1900-01-01. *)
Definition strptime_HM (s : string) : result datetime :=
  match (flat_map (fun '(h, r1) =>
           map (fun '(m, r2) => (h, m, r2)) (re_M r1)) (re_H s)) with
  | (h, m, EmptyString) :: _ => Ok (at_hm (ymd2ord 1900 1 1) h m)
  | (_, _, r) :: _ => Raise (ValueError ("unconverted data remains: " ++ r))
  | [] => Raise (ValueError
            ("time data " ++ repr s ++ " does not match format '%H%M'"))
  end.

(** [datetime.strptime(s, '%Y%m%d')]: as above, and the fields must denote
    a date of the calendar. *)
Definition strptime_Ymd (s : string) : result datetime :=
  match (flat_map (fun '(y, r1) =>
           flat_map (fun '(m, r2) =>
             map (fun '(d, r3) => (y, m, d, r3)) (re_d r2)) (re_m r1))
           (re_Y s)) with
  | (y, m, d, EmptyString) :: _ =>
      if y <? 1 then Raise (ValueError "year 0 is out of range")
      else if days_in_month y m <? d
      then Raise (ValueError "day is out of range for month")
      else Ok (at_hm (ymd2ord y m d) 0 0)
  | (_, _, _, r) :: _ =>
      Raise (ValueError ("unconverted data remains: " ++ r))
  | [] => Raise (ValueError
            ("time data " ++ repr s ++ " does not match format '%Y%m%d'"))
  end.

End Datetime.
Export Datetime.

(** ** [dateutil.rrule] *)

Module Rrule.

(** The iteration of [rrule(WEEKLY, dtstart=..., interval=...)] as consumed
    by [between(after, before, inc=True)].  Without [byweekday] the rule
    takes the weekday of [dtstart], and the week starts on Monday.  The
    generator works week by week: of the week of [dtstart] it yields
    [dtstart]; then it moves to the Monday [interval] weeks later, ends when
    that Monday is past year 9999, and otherwise builds the day of that week
    that has the weekday of [dtstart] with [date.fromordinal], which raises
    ValueError past 9999-12-31.  ([rrule] drops the microseconds of
    [dtstart]; the instants that [next_occurrence] returns have none.) *)
Definition year_10000 : exn := ValueError "year 10000 is out of range".

(** What the generator does when asked for the instant after [i]. *)
Definition advance (interval : Z) (i : datetime) : result (option datetime) :=
  let monday := toordinal i - weekday i + 7 * interval in
  if MAXORDINAL <? monday then Ok None
  else if MAXORDINAL <? monday + weekday i then Raise year_10000
  else Ok (Some (i + timedelta_weeks interval)).

(** [between] takes the instants one by one, stops at the first one after
    [before] and keeps those that are not before [after]; [i] is the instant
    that the generator has just yielded. *)
Fixpoint between_loop (fuel : nat) (interval : Z)
    (i after before : datetime) : result (list datetime) :=
  match fuel with
  | O => Ok []
  | S fuel' =>
      if before <? i then Ok []
      else
        next ← advance interval i;
        rest ← match next with
               | Some i' => between_loop fuel' interval i' after before
               | None => Ok []
               end;
        Ok ((if after <=? i then [i] else []) ++ rest)%list
  end.

(** The number of iterations the loop can make before it passes [before]. *)
Definition iterations (dtstart : datetime) (step : timedelta)
    (before : datetime) : nat :=
  Z.to_nat ((before - dtstart) / step + 1).

(** [rrule(WEEKLY, dtstart=dtstart, interval=interval).between(after,
    before, inc=True)], for a positive [interval]. *)
Definition between (dtstart : datetime) (interval : Z)
    (after before : datetime) : result (list datetime) :=
  between_loop (iterations dtstart (timedelta_weeks interval) before)
    interval dtstart after before.

End Rrule.

(** ** [yaml2ical/meeting.py] *)

Module Meeting.

Definition DATES : gmap string Z :=
  list_to_map
    [("Monday", ymd2ord 1900 1 1); ("Tuesday", ymd2ord 1900 1 2);
     ("Wednesday", ymd2ord 1900 1 3); ("Thursday", ymd2ord 1900 1 4);
     ("Friday", ymd2ord 1900 1 5); ("Saturday", ymd2ord 1900 1 6);
     ("Sunday", ymd2ord 1900 1 7)].

Definition ONE_WEEK : timedelta := timedelta_weeks 1.

Definition WEEKDAYS : gmap string Z :=
  list_to_map
    [("Monday", 0); ("Tuesday", 1); ("Wednesday", 2); ("Thursday", 3);
     ("Friday", 4); ("Saturday", 5); ("Sunday", 6)].

Definition supported_frequencies : gmap string Z :=
  list_to_map [("weekly", 1); ("biweekly", 2)].

(** *** [class Schedule] *)

Record Schedule : Type := mkSchedule {
  project : yaml;
  filefrom : string;
  utc : yaml;
  time : datetime;
  day : string;
  irc : yaml;
  freq : yaml;
  freq_interval : Z;
  start_date : datetime;
  duration : Z;
  meeting_start : datetime;
  meeting_end : datetime
}.

(** *** [class Meeting]: the attributes the schedules and the detector
    read. *)
Record Meeting : Type := mkMeeting {
  m_chair : yaml;
  m_description : yaml;
  m_project : yaml;
  m_filefrom : string;
  m_schedules : list Schedule
}.

(** [datetime.datetime.strptime(v, '%H%M')] *)
Definition strptime_time (v : yaml) : result datetime :=
  match v with
  | YStr s => strptime_HM s
  | _ => Raise TypeError
  end.

(** [v.lower().capitalize()] *)
Definition sanitize_day (v : yaml) : result string :=
  match v with
  | YStr s => Ok (capitalize (lower s))
  | _ => Raise AttributeError
  end.

(** The [start_date] block of [__init__]; [utcnow] is the reading of the
    clock that [datetime.datetime.utcnow()] returns. *)
Definition init_start_date (utcnow : datetime) (filefrom : string)
    (sched_yaml : gmap string yaml) : result datetime :=
  match sched_yaml !! "start_date" with
  | Some v =>
      match strptime_Ymd (str v) with
      | Ok d => Ok d
      | Raise (ValueError _) =>
          Raise (ValueError ("Could not parse 'start_date' (" ++ str v
                             ++ ") in " ++ filefrom))
      | Raise e => Raise e
      end
  | None => Ok utcnow
  end.

(** The [duration] block of [__init__]. *)
Definition init_duration (filefrom : string)
    (sched_yaml : gmap string yaml) : result Z :=
  match sched_yaml !! "duration" with
  | Some v =>
      match int v with
      | Ok n => Ok n
      | Raise (ValueError _) =>
          Raise (ValueError ("Could not parse 'duration' (" ++ str v
                             ++ ") in " ++ filefrom))
      | Raise e => Raise e
      end
  | None => Ok 60
  end.

(** [Schedule.__init__(self, meeting, sched_yaml)] *)
Definition Schedule_init (utcnow : datetime) (meeting : Meeting)
    (sched_yaml : gmap string yaml) : result Schedule :=
  let project := m_project meeting in
  let filefrom := m_filefrom meeting in
  (* mandatory: time, day, irc, freq; a KeyError is reported and re-raised *)
  utc ← getitem sched_yaml (YStr "time");
  time ← strptime_time utc;
  dayv ← getitem sched_yaml (YStr "day");
  day ← sanitize_day dayv;
  irc ← getitem sched_yaml (YStr "irc");
  freq ← getitem sched_yaml (YStr "frequency");
  freq_interval ← getitem supported_frequencies freq;
  (* optional: start_date, duration *)
  start_date ← init_start_date utcnow filefrom sched_yaml;
  duration ← init_duration filefrom sched_yaml;
  match DATES !! day with
  | None => Raise (ValueError "'%s' is not a valid day of the week")
  | Some date =>
      let meeting_start := combine date (time_of time) in
      meeting_end ← add meeting_start (timedelta_minutes duration);
      if bool_decide (day = "Sunday")
         && bool_decide (strftime_a meeting_end = "Mon")
      then
        meeting_start' ← sub meeting_start ONE_WEEK;
        meeting_end' ← sub meeting_end ONE_WEEK;
        Ok (mkSchedule project filefrom utc time day irc freq freq_interval
              start_date duration meeting_start' meeting_end')
      else
        Ok (mkSchedule project filefrom utc time day irc freq freq_interval
              start_date duration meeting_start meeting_end)
  end.

Definition alternating : gset yaml :=
  list_to_set [YStr "biweekly-odd"; YStr "biweekly-even"].

(** [Schedule.conflicts(self, other)] *)
Definition Schedule_conflicts (self other : Schedule) : bool :=
  bool_decide (irc self = irc other)
  && ((meeting_start self <? meeting_end other)
      && (meeting_start other <? meeting_end self))
  && bool_decide ((list_to_set [freq self; freq other] : gset yaml)
                  ≠ alternating).

(** [Schedule.next_occurrence(self)] *)
Definition Schedule_next_occurrence (self : Schedule) : result datetime :=
  weekday ← getitem WEEKDAYS (YStr (day self));
  let days_ahead := weekday - Datetime.weekday (start_date self) in
  let days_ahead := if days_ahead <? 0 then days_ahead + 7 else days_ahead in
  next_meeting ← add (start_date self) (timedelta_days days_ahead);
  Ok (at_hm (toordinal next_meeting) (hour (time self)) (minute (time self))).

(** A method call on a [Schedule] object: its result and the object after
    the call.  [next_occurrence] assigns no attribute. *)
Definition call_next_occurrence (self : Schedule)
    : result datetime * Schedule :=
  (Schedule_next_occurrence self, self).

(** [Schedule.recurrence_rule(self)]: the [interval] of the weekly rule. *)
Definition Schedule_recurrence_rule (self : Schedule) : string * Z :=
  ("weekly", freq_interval self).

(** *** [class MeetingInstance] *)

Record MeetingInstance : Type := mkInstance {
  i_project : yaml;
  i_start : datetime;
  i_end : datetime
}.

Definition MeetingInstance_init (project : yaml) (start : datetime)
    (duration : Z) : result MeetingInstance :=
  end_ ← add start (timedelta_minutes duration);
  Ok (mkInstance project start end_).

(** *** [check_for_meeting_conflicts] *)

(** [allinstances]: channel to list of instances, in insertion order. *)
Definition instances : Type := list (yaml * list MeetingInstance).

(** [allinstances[channel].append(x)] *)
Fixpoint append_instance (allinstances : instances) (channel : yaml)
    (x : MeetingInstance) : instances :=
  match allinstances with
  | [] => [(channel, [x])]
  | (c, l) :: rest =>
      if decide (c = channel) then (c, (l ++ [x])%list) :: rest
      else (c, l) :: append_instance rest channel x
  end.

(** [rr.between(start, end, inc=True)] for the rule of [schedule]. *)
Definition occurrences (schedule : Schedule) (start end_ : datetime)
    : result (list datetime) :=
  dtstart ← Schedule_next_occurrence schedule;
  Rrule.between dtstart (freq_interval schedule) start end_.

(** [for occurrence_start in occurrences: ...] *)
Fixpoint add_occurrences (project : yaml) (schedule : Schedule)
    (occs : list datetime) (allinstances : instances) : result instances :=
  match occs with
  | [] => Ok allinstances
  | occurrence_start :: rest =>
      x ← MeetingInstance_init project occurrence_start (duration schedule);
      add_occurrences project schedule rest
        (append_instance allinstances (irc schedule) x)
  end.

(** [for schedule in meetings[i].schedules: ...] *)
Fixpoint add_schedules (start end_ : datetime) (project : yaml)
    (schedules : list Schedule) (allinstances : instances)
    : result instances :=
  match schedules with
  | [] => Ok allinstances
  | schedule :: rest =>
      occs ← occurrences schedule start end_;
      allinstances' ← add_occurrences project schedule occs allinstances;
      add_schedules start end_ project rest allinstances'
  end.

(** [for i in range(len(meetings)): ...] *)
Fixpoint add_meetings (start end_ : datetime) (meetings : list Meeting)
    (allinstances : instances) : result instances :=
  match meetings with
  | [] => Ok allinstances
  | m :: rest =>
      allinstances' ← add_schedules start end_ (m_project m)
                        (m_schedules m) allinstances;
      add_meetings start end_ rest allinstances'
  end.

(** The test of the innermost loop. *)
Definition overlaps (a b : MeetingInstance) : bool :=
  (i_start a <? i_end b) && (i_end a >? i_start b).

(** [for j in range(i+1, len(l))]: the first [l[j]] overlapping [a = l[i]]. *)
Fixpoint conflict_with (a : MeetingInstance) (l : list MeetingInstance)
    : option MeetingInstance :=
  match l with
  | [] => None
  | b :: rest => if overlaps a b then Some b else conflict_with a rest
  end.

(** [for i in range(len(l))]: the first conflicting pair of a channel. *)
Fixpoint channel_conflict (l : list MeetingInstance)
    : option (MeetingInstance * MeetingInstance) :=
  match l with
  | [] => None
  | a :: rest =>
      match conflict_with a rest with
      | Some b => Some (a, b)
      | None => channel_conflict rest
      end
  end.

(** [for irc_channel in allinstances]: the first conflicting pair. *)
Fixpoint first_conflict (allinstances : instances)
    : option (MeetingInstance * MeetingInstance) :=
  match allinstances with
  | [] => None
  | (_, l) :: rest =>
      match channel_conflict l with
      | Some p => Some p
      | None => first_conflict rest
      end
  end.

Definition conflict_message (a b : MeetingInstance) : string :=
  "Conflict: " ++ str (i_project a) ++ " and " ++ str (i_project b).

(** [check_for_meeting_conflicts(meetings)]; [now] is the reading of the
    clock that [datetime.datetime.now(pytz.utc)] returns. *)
Definition check_for_meeting_conflicts (now : datetime)
    (meetings : list Meeting) : result unit :=
  let start := now in
  end_ ← add start (timedelta_days 365);
  allinstances ← add_meetings start end_ meetings [];
  match first_conflict allinstances with
  | Some (a, b) => Raise (MeetingConflictError (conflict_message a b))
  | None => Ok tt
  end.

End Meeting.
Export Meeting.

(** ** [yaml2ical/recurrence.py] *)

Module Recurrence.

Inductive recurrence : Type :=
| WeeklyRecurrence
| BiWeeklyRecurrence.

Definition WEEKDAYS : gmap string Z := Meeting.WEEKDAYS.

(** [WeeklyRecurrence.next_occurrence(start_date_time, day)] *)
Definition weekly_next_occurrence (start_date_time : datetime)
    (day : string) : result datetime :=
  weekday ← getitem WEEKDAYS (YStr day);
  let days_ahead := weekday - Datetime.weekday start_date_time in
  let days_ahead := if days_ahead <? 0 then days_ahead + 7 else days_ahead in
  add start_date_time (timedelta_days days_ahead).

Definition next_occurrence (r : recurrence) (start_date : datetime)
    (day : string) : result datetime :=
  match r with
  | WeeklyRecurrence => weekly_next_occurrence start_date day
  | BiWeeklyRecurrence => weekly_next_occurrence start_date day
  end.

(** The [interval] of [rrule(next_date)]; absent means 1. *)
Definition rrule_interval (r : recurrence) : Z :=
  match r with
  | WeeklyRecurrence => 1
  | BiWeeklyRecurrence => 2
  end.

Definition supported_recurrences : gmap string recurrence :=
  list_to_map [("weekly", WeeklyRecurrence); ("biweekly", BiWeeklyRecurrence)].

End Recurrence.

(** ** [posixpath]: the path functions that [Meeting.__init__] and the
    conversion use *)

Module Posixpath.

(** [s.rfind(c)] for a one-character [c]: the highest index of [c] in [s],
    or -1. *)
Fixpoint rfind (c : ascii) (s : string) : Z :=
  match s with
  | EmptyString => -1
  | String a r =>
      let k := rfind c r in
      if 0 <=? k then k + 1 else if Ascii.eqb a c then 0 else -1
  end.

(** [s[n:]] *)
Fixpoint drop (n : nat) (s : string) : string :=
  match n, s with
  | O, _ => s
  | S _, EmptyString => EmptyString
  | S n', String _ r => drop n' r
  end.

(** [s[:n]] *)
Fixpoint take (n : nat) (s : string) : string :=
  match n, s with
  | O, _ => EmptyString
  | S _, EmptyString => EmptyString
  | S n', String a r => String a (take n' r)
  end.

(** [os.path.basename(p)]: [i = p.rfind('/') + 1; return p[i:]] *)
Definition basename (p : string) : string :=
  let i := rfind "/" p + 1 in
  drop (Z.to_nat i) p.

(** The loop of [genericpath._splitext] that skips the leading dots of the
    file name: [steps] is [dotIndex - filenameIndex]. *)
Fixpoint splitext_loop (p : string) (filenameIndex steps dotIndex : nat)
    : string * string :=
  match steps with
  | O => (p, EmptyString)
  | S steps' =>
      match String.get filenameIndex p with
      | Some "."%char => splitext_loop p (S filenameIndex) steps' dotIndex
      | _ => (take dotIndex p, drop dotIndex p)
      end
  end.

(** [os.path.splitext(p)] *)
Definition splitext (p : string) : string * string :=
  let sepIndex := rfind "/" p in
  let dotIndex := rfind "." p in
  if sepIndex <? dotIndex then
    splitext_loop p (Z.to_nat (sepIndex + 1))
      (Z.to_nat (dotIndex - (sepIndex + 1))) (Z.to_nat dotIndex)
  else (p, EmptyString).

Definition startswith_sep (s : string) : bool :=
  match s with
  | String "/" _ => true
  | _ => false
  end.

Fixpoint endswith_sep (s : string) : bool :=
  match s with
  | EmptyString => false
  | String a EmptyString => Ascii.eqb a "/"
  | String _ r => endswith_sep r
  end.

(** [os.path.join(a, b)] *)
Definition join (a b : string) : string :=
  if startswith_sep b then b
  else if bool_decide (a = "") || endswith_sep a then a ++ b
  else a ++ "/" ++ b.

End Posixpath.

(** ** [class Meeting]: construction from a parsed document *)

(** What iterating the [schedule] entry yields: a record, that is a mapping
    with scalar values, or a scalar. *)
Inductive schedule_item : Type :=
| ItemMapping (sch : gmap string yaml)
| ItemScalar (v : yaml).

(** The [schedule] entry of a document: a sequence, a mapping (of which the
    loop sees the keys only), or a scalar. *)
Inductive schedule_entry : Type :=
| ScheduleSequence (items : list schedule_item)
| ScheduleMapping (keys : list yaml)
| ScheduleScalar (v : yaml).

(** A parsed meeting document: its scalar entries, and the entry [schedule]
    when it is present. *)
Record document : Type := mkDocument {
  entries : gmap string yaml;
  schedule : option schedule_entry
}.

(** A [Meeting] object with the attributes that the schedules do not read:
    the free-form extra entries and the name of its calendar file. *)
Record LoadedMeeting : Type := mkLoaded {
  attributes : Meeting;
  extras : gmap string yaml;
  outfile : string
}.

Fixpoint characters (s : string) : list schedule_item :=
  match s with
  | EmptyString => []
  | String c r => ItemScalar (YStr (String c "")) :: characters r
  end.

(** [iter(yaml_obj['schedule'])]: a mapping is iterated key by key and a
    string character by character; a number and [None] are not iterable. *)
Definition iter_schedule (entry : schedule_entry)
    : result (list schedule_item) :=
  match entry with
  | ScheduleSequence items => Ok items
  | ScheduleMapping keys => Ok (ItemScalar <$> keys)
  | ScheduleScalar (YStr s) => Ok (characters s)
  | ScheduleScalar _ => Raise TypeError
  end.

(** [Schedule(self, sch)]: [sch['time']] on a scalar raises TypeError, which
    the handler of KeyError lets through. *)
Definition new_Schedule (utcnow : datetime) (meeting : Meeting)
    (sch : schedule_item) : result Schedule :=
  match sch with
  | ItemMapping sched_yaml => Schedule_init utcnow meeting sched_yaml
  | ItemScalar _ => Raise TypeError
  end.

(** [for sch in yaml_obj['schedule']: self.schedules.append(Schedule(self,
    sch))]: [clock k] is the reading of the clock that the construction of
    the schedule at index [k] gets. *)
Fixpoint init_schedules (clock : nat → datetime) (self : Meeting) (k : nat)
    (items : list schedule_item) : result Meeting :=
  match items with
  | [] => Ok self
  | sch :: rest =>
      s ← new_Schedule (clock k) self sch;
      init_schedules clock
        (mkMeeting (m_chair self) (m_description self) (m_project self)
           (m_filefrom self) (m_schedules self ++ [s])%list)
        (S k) rest
  end.

(** [Meeting.__init__(self, data)], where [yaml.safe_load(data)] is
    [yaml_obj] and [name] is [data.name], absent for a stream without a
    name. *)
Definition Meeting_init (clock : nat → datetime) (name : option string)
    (yaml_obj : document) : result LoadedMeeting :=
  (* a KeyError is reported and re-raised *)
  chair ← getitem (entries yaml_obj) (YStr "chair");
  description ← getitem (entries yaml_obj) (YStr "description");
  project ← getitem (entries yaml_obj) (YStr "project");
  let extras :=
    foldl (λ e k, delete k e) (entries yaml_obj)
      ["chair"; "description"; "project"; "schedule"] in
  let filefrom :=
    match name with
    | Some n => Posixpath.basename n
    | None => "stdin"
    end in
  let outfile :=
    match name with
    | Some _ => (Posixpath.splitext filefrom).1 ++ ".ics"
    | None => "stdin.ics"
    end in
  match schedule yaml_obj with
  | None => Raise (KeyError (YStr "schedule"))
  | Some entry =>
      items ← iter_schedule entry;
      self ← init_schedules clock
                (mkMeeting chair description project filefrom []) 0 items;
      Ok (mkLoaded self extras outfile)
  end.

(** ** [yaml2ical/ical.py] *)

Module Ical.

(** The values that [add_meeting] passes to [event.add]. *)
Record Event : Type := mkEvent {
  summary : yaml;
  location : string;
  description : string;
  dtstart : datetime;
  rrule : string * Z;
  event_duration : timedelta
}.

(** A calendar: the properties set by [__init__] and the events added. *)
Record Calendar : Type := mkCalendar {
  prodid : string;
  version : string;
  calname : option string;
  caldesc : option string;
  components : list Event
}.

(** [Yaml2IcalCalendar.__init__(self, calname, caldescription)] *)
Definition Yaml2IcalCalendar (calname caldescription : option string)
    : Calendar :=
  mkCalendar "-//yaml2ical agendas//EN" "2.0" calname caldescription [].

Definition newline : string := String "010"%char EmptyString.

(** [timedelta(minutes=n)]: the days of a [timedelta] have magnitude at most
    999999999. *)
Definition timedelta_of_minutes (n : Z) : result timedelta :=
  if (-999999999 <=? n / 1440) && (n / 1440 <=? 999999999)
  then Ok (timedelta_minutes n)
  else Raise OverflowError.

(** ['#' + sch.irc] *)
Definition event_location (irc : yaml) : result string :=
  match irc with
  | YStr c => Ok ("#" ++ c)
  | _ => Raise TypeError
  end.

(** The description of an event. *)
Definition event_description (meeting : LoadedMeeting) : string :=
  let project_descript := "Project:  " ++ str (m_project (attributes meeting)) in
  let chair_descript := "Chair:  " ++ str (m_chair (attributes meeting)) in
  let descript_descript :=
    "Description:  " ++ str (m_description (attributes meeting)) in
  let ical_descript :=
    project_descript ++ newline ++ chair_descript ++ newline
    ++ descript_descript in
  let ical_descript :=
    match extras meeting !! "agenda_url" with
    | Some u => ical_descript ++ newline ++ "Agenda URL:  " ++ str u
    | None => ical_descript
    end in
  match extras meeting !! "project_url" with
  | Some u => ical_descript ++ newline ++ "Project URL:  " ++ str u
  | None => ical_descript
  end.

(** The body of the loop of [add_meeting]: the event of one schedule. *)
Definition schedule_event (meeting : LoadedMeeting) (sch : Schedule)
    : result Event :=
  let summary := m_project (attributes meeting) in
  location ← event_location (irc sch);
  let ical_descript := event_description meeting in
  next_meeting ← Schedule_next_occurrence sch;
  let next_meeting_date :=
    at_hm (toordinal next_meeting) (hour (time sch)) (minute (time sch)) in
  duration ← timedelta_of_minutes (duration sch);
  Ok (mkEvent summary location ical_descript next_meeting_date
        (Schedule_recurrence_rule sch) duration).

(** [for sch in meeting.schedules: ...; self.add_component(event)] *)
Fixpoint add_events (meeting : LoadedMeeting) (schedules : list Schedule)
    (self : Calendar) : result Calendar :=
  match schedules with
  | [] => Ok self
  | sch :: rest =>
      event ← schedule_event meeting sch;
      add_events meeting rest
        (mkCalendar (prodid self) (version self) (calname self)
           (caldesc self) (components self ++ [event])%list)
  end.

(** [Yaml2IcalCalendar.add_meeting(self, meeting)] *)
Definition add_meeting (self : Calendar) (meeting : LoadedMeeting)
    : result Calendar :=
  add_events meeting (m_schedules (attributes meeting)) self.

(** The files written: path to calendar. *)
Definition disk : Type := gmap string Calendar.

(** [cal.write_to_disk(filename)] *)
Definition write_to_disk (self : Calendar) (filename : string) (d : disk)
    : disk :=
  <[filename := self]> d.

Definition truthy (o : option string) : option string :=
  match o with
  | Some EmptyString => None
  | _ => o
  end.

(** [if outputdir: for m in meetings: ...] *)
Fixpoint write_each (outputdir : string) (meetings : list LoadedMeeting)
    (d : disk) : result disk :=
  match meetings with
  | [] => Ok d
  | m :: rest =>
      cal ← add_meeting (Yaml2IcalCalendar None None) m;
      write_each outputdir rest
        (write_to_disk cal (Posixpath.join outputdir (outfile m)) d)
  end.

(** [for m in meetings: cal.add_meeting(m)] *)
Fixpoint add_meetings_to (cal : Calendar) (meetings : list LoadedMeeting)
    : result Calendar :=
  match meetings with
  | [] => Ok cal
  | m :: rest => cal' ← add_meeting cal m; add_meetings_to cal' rest
  end.

(** [convert_meetings_to_ical(meetings, outputdir, outputfile, calname,
    caldescription)], from the files already on [d]. *)
Definition convert_meetings_to_ical (meetings : list LoadedMeeting)
    (outputdir outputfile calname caldescription : option string)
    (d : disk) : result disk :=
  d1 ← match truthy outputdir with
       | Some dir => write_each dir meetings d
       | None => Ok d
       end;
  match truthy outputfile with
  | Some file =>
      cal ← add_meetings_to (Yaml2IcalCalendar calname caldescription)
              meetings;
      Ok (write_to_disk cal file d1)
  | None => Ok d1
  end.

End Ical.

(** * Vocabulary of the properties *)

(** ** Constructed schedules *)

Definition weekday_names : list string :=
  ["Monday"; "Tuesday"; "Wednesday"; "Thursday"; "Friday"; "Saturday";
   "Sunday"].

(** What a successful [Schedule.__init__] establishes. *)
Record constructed (utcnow : datetime) (m : Meeting)
    (y : gmap string yaml) (s : Schedule) : Prop := {
  c_project : project s = m_project m;
  c_filefrom : filefrom s = m_filefrom m;
  c_utc : y !! "time" = Some (utc s);
  c_time : strptime_time (utc s) = Ok (time s);
  c_day : ∃ ds, y !! "day" = Some (YStr ds) ∧ day s = capitalize (lower ds);
  c_irc : y !! "irc" = Some (irc s);
  c_freq : y !! "frequency" = Some (freq s);
  c_freq_interval :
    getitem supported_frequencies (freq s) = Ok (freq_interval s);
  c_start_date : init_start_date utcnow (m_filefrom m) y = Ok (start_date s);
  c_duration : init_duration (m_filefrom m) y = Ok (duration s);
  c_interval : ∃ date,
    DATES !! day s = Some date ∧
    let base_start := combine date (time_of (time s)) in
    let base_end := base_start + timedelta_minutes (duration s) in
    in_range base_end = true ∧
    if bool_decide (day s = "Sunday")
       && bool_decide (strftime_a base_end = "Mon")
    then meeting_start s = base_start - ONE_WEEK
         ∧ meeting_end s = base_end - ONE_WEEK
         ∧ in_range (base_start - ONE_WEEK) = true
         ∧ in_range (base_end - ONE_WEEK) = true
    else meeting_start s = base_start ∧ meeting_end s = base_end
}.

Definition is_alternating_pair (f g : yaml) : Prop :=
  (f = YStr "biweekly-odd" ∧ g = YStr "biweekly-even")
  ∨ (f = YStr "biweekly-even" ∧ g = YStr "biweekly-odd").

(** ** Failure cases of construction *)

(** [v] is a weekday name up to the case of its letters. *)
Definition recognised_day (v : yaml) : Prop :=
  ∃ s n, v = YStr s ∧ n ∈ weekday_names ∧ lower s = lower n.

(** The duration a record resolves to: [int(duration)], or 60 minutes. *)
Definition duration_of (y : gmap string yaml) (d : Z) : Prop :=
  match y !! "duration" with
  | Some v => int v = Ok d
  | None => d = 60
  end.


(** The failure cases of [Schedule.__init__]. *)
Inductive construction_fails (y : gmap string yaml) : Prop :=
| fails_absent k :
    k ∈ ["time"; "day"; "irc"; "frequency"] → y !! k = None →
    construction_fails y
| fails_time v :
    y !! "time" = Some v → is_ok (strptime_time v) = false →
    construction_fails y
| fails_day v :
    y !! "day" = Some v → ¬ recognised_day v → construction_fails y
| fails_frequency v :
    y !! "frequency" = Some v → v ≠ YStr "weekly" → v ≠ YStr "biweekly" →
    construction_fails y
| fails_start_date v :
    y !! "start_date" = Some v → is_ok (strptime_Ymd (str v)) = false →
    construction_fails y
| fails_duration v :
    y !! "duration" = Some v → is_ok (int v) = false →
    construction_fails y
| fails_range ts t ds date d :
    y !! "time" = Some (YStr ts) → strptime_HM ts = Ok t →
    y !! "day" = Some (YStr ds) →
    DATES !! capitalize (lower ds) = Some date →
    duration_of y d →
    (let base_end := combine date (time_of t) + timedelta_minutes d in
     in_range base_end = false
     ∨ (capitalize (lower ds) = "Sunday" ∧ weekday base_end = 0
        ∧ in_range (base_end - ONE_WEEK) = false)) →
    construction_fails y.

(** ** Expanded instances and conflicts *)

(** The count as the specification words it: within one of the rounded-up
    half of the number of weeks, and never the number of weeks. *)
Definition count_as_specified (count N : Z) : Prop :=
  Z.abs (count - (N + 1) / 2) ≤ 1 ∧ count ≠ N.

(** The instants [i], [i + step], ... up to [before] that are not before
    [after], in that order; [fuel] bounds their number. *)
Fixpoint progression (fuel : nat) (step : timedelta)
    (i after before : datetime) : list datetime :=
  match fuel with
  | O => []
  | S fuel' =>
      if before <? i then []
      else (if after <=? i then [i] else [])
             ++ progression fuel' step (i + step) after before
  end%list.

(** The weekly rule of first instant [t0] runs into year 10000 before it
    passes [before]: after one of its instants that is not after [before],
    the next one falls past 9999-12-31, in a week that starts within year
    9999. *)
Definition overruns (t0 : datetime) (interval : Z) (before : datetime)
    : Prop :=
  ∃ k, 0 ≤ k ∧ t0 + k * timedelta_weeks interval ≤ before
       ∧ let next := toordinal t0 + 7 * interval * (k + 1) in
         next - weekday t0 ≤ MAXORDINAL < next.

(** [P] holds of every instance recorded, with the channel it is under. *)
Definition every (P : yaml → MeetingInstance → Prop) (all : instances)
    : Prop :=
  ∀ c l x, (c, l) ∈ all → x ∈ l → P c x.

(** [x] is an instance of schedule [s] of meeting [m]: its start is an
    occurrence of [s] in the window and it was built by
    [MeetingInstance(m.project, start, s.duration)]. *)
Definition instance_of (start end_ : datetime) (m : Meeting)
    (s : Schedule) (x : MeetingInstance) : Prop :=
  (∃ occs, occurrences s start end_ = Ok occs ∧ i_start x ∈ occs)
  ∧ MeetingInstance_init (m_project m) (i_start x) (duration s) = Ok x.

(** Positions [i < j] of a channel's list hold overlapping instances. *)
Definition conflict_at (l : list MeetingInstance) (i j : nat) : Prop :=
  (i < j)%nat ∧ ∃ a b, l !! i = Some a ∧ l !! j = Some b
                       ∧ overlaps a b = true.

Definition conflict_free (l : list MeetingInstance) : Prop :=
  ∀ i j, ¬ conflict_at l i j.

(** ** Concrete records used to exercise the theorems *)

Section Examples.

Definition example_meeting (name : string) : Meeting :=
  mkMeeting (YStr "chair") (YStr "weekly sync") (YStr name)
    (name ++ ".yaml") [].

Definition example_record (time day frequency : string)
    (extra : list (string * yaml)) : gmap string yaml :=
  list_to_map ([("time", YStr time); ("day", YStr day);
                ("irc", YStr "proj"); ("frequency", YStr frequency)]
               ++ extra)%list.

(** 2015-01-05, a Monday, at 15:30:12.5 UTC. *)
Definition example_now : datetime :=
  combine (ymd2ord 2015 1 5)
    (15 * US_PER_HOUR + 30 * US_PER_MINUTE + 12500000).

Definition empty_schedule : Schedule :=
  mkSchedule YNull "" YNull 0 "" YNull YNull 0 0 0 0 0.

Definition build (name : string) (y : gmap string yaml) : Schedule :=
  match Schedule_init example_now (example_meeting name) y with
  | Ok s => s
  | Raise _ => empty_schedule
  end.

Definition sunday_2330_yaml : gmap string yaml :=
  example_record "2330" "sunday" "weekly" [("duration", YInt 60)].
Definition monday_0000_yaml : gmap string yaml :=
  example_record "0000" "Monday" "biweekly" [].

(** Every second Monday, from seven months after [example_now]. *)
Definition late_start_yaml : gmap string yaml :=
  example_record "0000" "Monday" "biweekly" [("start_date", YInt 20150810)].

(** Saturdays, for a schedule built at noon of 9998-12-31: the year that
    follows ends with the calendar. *)
Definition saturday_yaml : gmap string yaml :=
  example_record "1000" "Saturday" "weekly" [].
Definition last_year_now : datetime :=
  combine (ymd2ord 9998 12 31) (12 * US_PER_HOUR).

(** Anchored on the last day of the calendar, a Friday. *)
Definition last_day_yaml : gmap string yaml :=
  example_record "1000" "Monday" "weekly" [("start_date", YInt 99991231)].

(** Monday 1000-1030, 1015-1045 and 1030-1100. *)
Definition monday_1000_yaml : gmap string yaml :=
  example_record "1000" "Monday" "weekly" [("duration", YInt 30)].
Definition monday_1015_yaml : gmap string yaml :=
  example_record "1015" "Monday" "weekly" [("duration", YInt 30)].
Definition monday_1030_yaml : gmap string yaml :=
  example_record "1030" "Monday" "weekly" [("duration", YInt 30)].


(** Durations that [int()] rejects: a digit after the control character 28,
    which is no white space for [int()], and 4301 digits. *)
Definition control_duration_yaml : gmap string yaml :=
  example_record "1000" "Monday" "weekly"
    [("duration", YStr (String "028" "7"))].
Definition long_duration_yaml : gmap string yaml :=
  example_record "1000" "Monday" "weekly"
    [("duration", YStr (string_of_list_ascii (repeat "0"%char 4301)))].

Definition sunday_2330 : Schedule :=
  Eval vm_compute in build "alpha" sunday_2330_yaml.
Definition last_day : Schedule :=
  Eval vm_compute in build "alpha" last_day_yaml.
Definition monday_0000 : Schedule :=
  Eval vm_compute in build "beta" monday_0000_yaml.
Definition late_start : Schedule :=
  Eval vm_compute in build "beta" late_start_yaml.
Definition last_saturdays : Schedule :=
  Eval vm_compute in
    match Schedule_init last_year_now (example_meeting "alpha")
            saturday_yaml with
    | Ok s => s
    | Raise _ => empty_schedule
    end.
Definition monday_1000 : Schedule :=
  Eval vm_compute in build "alpha" monday_1000_yaml.
Definition monday_1015 : Schedule :=
  Eval vm_compute in build "beta" monday_1015_yaml.
Definition monday_1015_other : Schedule :=
  Eval vm_compute in
    build "beta" (<["irc" := YStr "other"]> monday_1015_yaml).
Definition monday_1030 : Schedule :=
  Eval vm_compute in build "beta" monday_1030_yaml.

(** Sunday 2300-2345: ends before the week does. *)
Definition sunday_2300_yaml : gmap string yaml :=
  example_record "2300" "Sunday" "weekly" [("duration", YInt 45)].
Definition sunday_2300 : Schedule :=
  Eval vm_compute in build "beta" sunday_2300_yaml.

(** A meeting document with two schedules and an agenda, as read from
    [meetings/alpha.team.yaml]. *)
Definition example_document : document :=
  mkDocument
    (list_to_map [("chair", YStr "Ada"); ("description", YStr "weekly sync");
                  ("project", YStr "alpha");
                  ("agenda_url", YStr "https://example.org/agenda")])
    (Some (ScheduleSequence [ItemMapping monday_1000_yaml;
                             ItemMapping sunday_2330_yaml])).

Definition example_clock (k : nat) : datetime :=
  example_now + Z.of_nat k * US_PER_MINUTE.

Definition empty_loaded : LoadedMeeting :=
  mkLoaded (mkMeeting YNull YNull YNull "" []) ∅ "".

Definition example_loaded : LoadedMeeting :=
  Eval vm_compute in
    match Meeting_init example_clock (Some "meetings/alpha.team.yaml")
            example_document with
    | Ok lm => lm
    | Raise _ => empty_loaded
    end.

Definition example_calendar : Ical.Calendar :=
  Eval vm_compute in
    match Ical.add_meeting (Ical.Yaml2IcalCalendar None None) example_loaded
    with
    | Ok cal => cal
    | Raise _ => Ical.Yaml2IcalCalendar None None
    end.

(** A meeting whose channel is a number. *)
Definition numeric_channel_document : document :=
  mkDocument
    (list_to_map [("chair", YStr "Ada"); ("description", YStr "weekly sync");
                  ("project", YStr "beta")])
    (Some (ScheduleSequence
             [ItemMapping (<["irc" := YInt 42]> monday_1015_yaml)])).

Definition numeric_channel_loaded : LoadedMeeting :=
  Eval vm_compute in
    match Meeting_init example_clock (Some "beta.yaml")
            numeric_channel_document with
    | Ok lm => lm
    | Raise _ => empty_loaded
    end.

Definition meeting_with (name : string) (s : Schedule) : Meeting :=
  mkMeeting (YStr "chair") (YStr "weekly sync") (YStr name)
    (name ++ ".yaml") [s].

Definition overlapping_meetings : list Meeting :=
  [meeting_with "alpha" monday_1000; meeting_with "beta" monday_1015].

Definition example_end : datetime :=
  example_now + timedelta_days 365.

Definition overlapping_instances : instances :=
  Eval vm_compute in
    match add_meetings example_now example_end overlapping_meetings [] with
    | Ok all => all
    | Raise _ => []
    end.

(** Two loaded meetings and the two ways of writing them out. *)
Definition beta_document : document :=
  mkDocument
    (list_to_map [("chair", YStr "Bob"); ("description", YStr "planning");
                  ("project", YStr "beta")])
    (Some (ScheduleSequence [ItemMapping monday_1015_yaml])).

Definition beta_loaded : LoadedMeeting :=
  Eval vm_compute in
    match Meeting_init example_clock (Some "meetings/beta.yaml")
            beta_document with
    | Ok lm => lm
    | Raise _ => empty_loaded
    end.

Definition two_loaded : list LoadedMeeting :=
  [example_loaded; beta_loaded].

Definition per_meeting_disk : Ical.disk :=
  match Ical.convert_meetings_to_ical two_loaded (Some "out") None None None
          ∅ with
  | Ok d => d
  | Raise _ => ∅
  end.

Definition single_file_disk : Ical.disk :=
  match Ical.convert_meetings_to_ical two_loaded None (Some "all.ics")
          (Some "Team") (Some "All meetings") ∅ with
  | Ok d => d
  | Raise _ => ∅
  end.

(** The occurrences of the two overlapping schedules in the year after
    [example_now], and the first of each. *)
Definition alpha_occurrences : list datetime :=
  Eval vm_compute in
    match occurrences monday_1000 example_now example_end with
    | Ok l => l
    | Raise _ => []
    end.

Definition beta_occurrences : list datetime :=
  Eval vm_compute in
    match occurrences monday_1015 example_now example_end with
    | Ok l => l
    | Raise _ => []
    end.

Definition alpha_first : datetime :=
  Eval vm_compute in default 0 (head alpha_occurrences).

Definition beta_first : datetime :=
  Eval vm_compute in default 0 (head beta_occurrences).

End Examples.

(** ** The instances of a run, in the order they are recorded *)

(** The instances of the occurrences of one schedule, each with the channel
    it is recorded under. *)
Fixpoint tag_occurrences (project : yaml) (s : Schedule)
    (occs : list datetime) : result (list (yaml * MeetingInstance)) :=
  match occs with
  | [] => Ok []
  | o :: rest =>
      x ← MeetingInstance_init project o (duration s);
      l ← tag_occurrences project s rest;
      Ok ((irc s, x) :: l)
  end.

Fixpoint flat_schedules (start end_ : datetime) (project : yaml)
    (schedules : list Schedule) : result (list (yaml * MeetingInstance)) :=
  match schedules with
  | [] => Ok []
  | s :: rest =>
      occs ← occurrences s start end_;
      a ← tag_occurrences project s occs;
      b ← flat_schedules start end_ project rest;
      Ok (a ++ b)%list
  end.

(** Meeting by meeting, schedule by schedule, occurrence by occurrence. *)
Fixpoint flat_meetings (start end_ : datetime) (meetings : list Meeting)
    : result (list (yaml * MeetingInstance)) :=
  match meetings with
  | [] => Ok []
  | m :: rest =>
      a ← flat_schedules start end_ (m_project m) (m_schedules m);
      b ← flat_meetings start end_ rest;
      Ok (a ++ b)%list
  end.

(** Recording a sequence of instances, one [append] each. *)
Definition record_all (t : list (yaml * MeetingInstance)) (all : instances)
    : instances :=
  foldl (λ all p, append_instance all p.1 p.2) all t.

(** The instances of channel [c] in a sequence, in its order. *)
Definition channel_of (c : yaml) (t : list (yaml * MeetingInstance))
    : list MeetingInstance :=
  (filter (λ p, p.1 = c) t).*2.

(** [all] is the sequence [t] grouped by channel. *)
Definition grouped (t : list (yaml * MeetingInstance)) (all : instances)
    : Prop :=
  NoDup all.*1 ∧ ∀ c l, (c, l) ∈ all ↔ l = channel_of c t ∧ l ≠ [].

(** Some pair of a channel's list overlaps. *)
Definition has_conflict (l : list MeetingInstance) : Prop :=
  ∃ i j, conflict_at l i j.

(** The exceptions of the expansion loops. *)
Definition expansion_error (e : exn) : Prop :=
  e = OverflowError ∨ (∃ k, e = KeyError k) ∨ ∃ msg, e = ValueError msg.

(** ** Strings and paths *)

(** The character [c] occurs in [s]. *)
Fixpoint occurs (c : ascii) (s : string) : bool :=
  match s with
  | EmptyString => false
  | String a r => Ascii.eqb a c || occurs c r
  end.

(** [s] consists of dots. *)
Fixpoint only_dots (s : string) : bool :=
  match s with
  | EmptyString => true
  | String a r => Ascii.eqb a "." && only_dots r
  end.

(** * Properties *)

(** ** The same-week test *)

Section Conflicts.

Implicit Types a b : Schedule.

Lemma pair_set_eq (x y o e : yaml) :
  o ≠ e →
  (list_to_set [x; y] : gset yaml) = list_to_set [o; e]
  ↔ (x = o ∧ y = e) ∨ (x = e ∧ y = o).
Proof.
  intros Hne.
  assert (Hin : ∀ u v z : yaml,
             z ∈ (list_to_set [u; v] : gset yaml) ↔ z = u ∨ z = v).
  { intros u v z. rewrite elem_of_list_to_set, !elem_of_cons, elem_of_nil.
    tauto. }
  split.
  - intros H.
    assert (Hall : ∀ z, z = x ∨ z = y ↔ z = o ∨ z = e).
    { intros z. rewrite <- !Hin, H. reflexivity. }
    pose proof (Hall x) as Hx. pose proof (Hall y) as Hy.
    pose proof (Hall o) as Ho. pose proof (Hall e) as He.
    intuition congruence.
  - intros Hcase. apply set_eq. intros z. rewrite !Hin.
    destruct Hcase as [[-> ->] | [-> ->]]; tauto.
Qed.

Lemma alternating_pair f g :
  (list_to_set [f; g] : gset yaml) = alternating ↔ is_alternating_pair f g.
Proof. unfold alternating. apply pair_set_eq. discriminate. Qed.

(** C4: [a.conflicts(b)] holds exactly when [a] and [b] are on the same
    channel, their canonical-week intervals overlap under the half-open
    rule, and their frequency names are not the alternating pair
    biweekly-odd / biweekly-even. *)
Theorem conflicts_iff a b :
  Schedule_conflicts a b = true
  ↔ irc a = irc b
    ∧ (meeting_start a < meeting_end b ∧ meeting_start b < meeting_end a)
    ∧ ¬ is_alternating_pair (freq a) (freq b).
Proof.
  unfold Schedule_conflicts.
  rewrite !andb_true_iff, !bool_decide_eq_true, !Z.ltb_lt.
  rewrite alternating_pair. tauto.
Qed.

Lemma is_alternating_pair_sym f g :
  is_alternating_pair f g ↔ is_alternating_pair g f.
Proof. unfold is_alternating_pair. tauto. Qed.

Lemma overlaps_iff (x y : MeetingInstance) :
  overlaps x y = true ↔ i_start x < i_end y ∧ i_start y < i_end x.
Proof.
  unfold overlaps. rewrite andb_true_iff, Z.ltb_lt, Z.gtb_ltb, Z.ltb_lt.
  tauto.
Qed.

(** C8: both overlap tests are symmetric in their arguments. *)
Theorem overlap_symmetric :
  (∀ a b, Schedule_conflicts a b = Schedule_conflicts b a)
  ∧ (∀ x y : MeetingInstance, overlaps x y = overlaps y x).
Proof.
  split.
  - intros a b. apply eq_true_iff_eq. rewrite !conflicts_iff.
    rewrite (is_alternating_pair_sym (freq a)).
    split; intros (-> & [] & ?); auto.
  - intros x y. apply eq_true_iff_eq. rewrite !overlaps_iff. tauto.
Qed.

End Conflicts.

(** ** Calendar arithmetic *)

Section Calendar.

Lemma us_per_day_eq : US_PER_DAY = 86400000000.
Proof. reflexivity. Qed.

Lemma us_per_hour_eq : US_PER_HOUR = 3600000000.
Proof. reflexivity. Qed.

Lemma us_per_minute_eq : US_PER_MINUTE = 60000000.
Proof. reflexivity. Qed.

Lemma in_range_iff (t : Z) :
  in_range t = true
  ↔ MINORDINAL * US_PER_DAY ≤ t < (MAXORDINAL + 1) * US_PER_DAY.
Proof.
  unfold in_range. rewrite andb_true_iff, Z.leb_le, Z.ltb_lt. tauto.
Qed.

Lemma in_range_ordinal (t : Z) :
  in_range t = true ↔ MINORDINAL ≤ toordinal t ≤ MAXORDINAL.
Proof.
  rewrite in_range_iff. unfold toordinal, MINORDINAL, MAXORDINAL.
  rewrite us_per_day_eq.
  pose proof (Z.div_mod t 86400000000 ltac:(lia)).
  pose proof (Z.mod_pos_bound t 86400000000 ltac:(lia)). lia.
Qed.

Lemma add_Ok (t : datetime) (d : timedelta) (r : datetime) :
  add t d = Ok r ↔ r = t + d ∧ in_range (t + d) = true.
Proof.
  unfold add. destruct (in_range (t + d)); split;
    [intros [= <-]; auto | intros [-> _]; reflexivity
    | discriminate | intros [_ [=]]].
Qed.

Lemma add_Raise (t : datetime) (d : timedelta) (e : exn) :
  add t d = Raise e ↔ e = OverflowError ∧ in_range (t + d) = false.
Proof.
  unfold add. destruct (in_range (t + d)); split;
    [discriminate | intros [_ [=]]
    | intros [= <-]; auto | intros [-> _]; reflexivity].
Qed.

Lemma weekday_bounds (t : datetime) : 0 ≤ weekday t ≤ 6.
Proof. unfold weekday. pose proof (Z.mod_pos_bound (toordinal t + 6) 7). lia. Qed.

Lemma toordinal_add_days (t : datetime) (n : Z) :
  toordinal (t + timedelta_days n) = toordinal t + n.
Proof.
  unfold toordinal, timedelta_days. apply Z.div_add. rewrite us_per_day_eq. lia.
Qed.

Lemma time_of_bounds (t : datetime) : 0 ≤ time_of t < US_PER_DAY.
Proof. unfold time_of. apply Z.mod_pos_bound. rewrite us_per_day_eq. lia. Qed.

Lemma toordinal_combine (o tod : Z) :
  0 ≤ tod < US_PER_DAY → toordinal (combine o tod) = o.
Proof.
  intros Htod. unfold toordinal, combine.
  symmetry. apply (Z.div_unique _ _ o tod); lia.
Qed.

Lemma time_of_combine (o tod : Z) :
  0 ≤ tod < US_PER_DAY → time_of (combine o tod) = tod.
Proof.
  intros Htod. unfold time_of, combine.
  symmetry. apply (Z.mod_unique _ _ o tod); lia.
Qed.

Lemma hm_bounds (h mi : Z) :
  0 ≤ h ≤ 23 → 0 ≤ mi ≤ 59 →
  0 ≤ h * US_PER_HOUR + mi * US_PER_MINUTE < US_PER_DAY.
Proof. rewrite us_per_day_eq, us_per_hour_eq, us_per_minute_eq. lia. Qed.

Lemma toordinal_at_hm (o h mi : Z) :
  0 ≤ h ≤ 23 → 0 ≤ mi ≤ 59 → toordinal (at_hm o h mi) = o.
Proof. intros. apply toordinal_combine, hm_bounds; assumption. Qed.

Lemma time_of_at_hm (o h mi : Z) :
  0 ≤ h ≤ 23 → 0 ≤ mi ≤ 59 →
  time_of (at_hm o h mi) = h * US_PER_HOUR + mi * US_PER_MINUTE.
Proof. intros. apply time_of_combine, hm_bounds; assumption. Qed.

Lemma hour_at_hm (o h mi : Z) :
  0 ≤ h ≤ 23 → 0 ≤ mi ≤ 59 → hour (at_hm o h mi) = h.
Proof.
  intros Hh Hm. unfold hour. rewrite time_of_at_hm by assumption.
  rewrite us_per_hour_eq, us_per_minute_eq.
  symmetry. apply (Z.div_unique _ _ h (mi * 60000000)); lia.
Qed.

Lemma minute_at_hm (o h mi : Z) :
  0 ≤ h ≤ 23 → 0 ≤ mi ≤ 59 → minute (at_hm o h mi) = mi.
Proof.
  intros Hh Hm. unfold minute. rewrite time_of_at_hm by assumption.
  rewrite us_per_hour_eq, us_per_minute_eq.
  rewrite <- (Z.mod_unique _ _ h (mi * 60000000)) by lia.
  apply Z.div_mul. lia.
Qed.

(** Every date of the calendar has an ordinal in the representable range. *)
Lemma days_before_year_succ (y : Z) :
  days_before_year (y + 1)
  = days_before_year y + 365 + (if is_leap y then 1 else 0).
Proof.
  unfold days_before_year, is_leap.
  replace (y + 1 - 1) with y by lia.
  destruct (y mod 4 =? 0) eqn:H4; destruct (y mod 100 =? 0) eqn:H100;
    destruct (y mod 400 =? 0) eqn:H400; simpl;
    rewrite ?Z.eqb_eq, ?Z.eqb_neq in *;
    Z.div_mod_to_equations; lia.
Qed.

Lemma days_before_year_bounds (y : Z) :
  1 ≤ y ≤ 9999 →
  0 ≤ days_before_year y
  ∧ days_before_year (y + 1) ≤ MAXORDINAL.
Proof.
  intros Hy. split.
  - unfold days_before_year. Z.div_mod_to_equations. lia.
  - destruct (decide (y = 9999)) as [-> | Hne]; [vm_compute; discriminate |].
    unfold days_before_year, MAXORDINAL. Z.div_mod_to_equations. lia.
Qed.

Lemma days_in_year_bound (y m d : Z) :
  1 ≤ m ≤ 12 → 1 ≤ d ≤ days_in_month y m →
  1 ≤ days_before_month y m + d
  ≤ 365 + (if is_leap y then 1 else 0).
Proof.
  intros Hm Hd. unfold days_in_month, days_before_month in *.
  assert (Hcases : m = 1 ∨ m = 2 ∨ m = 3 ∨ m = 4 ∨ m = 5 ∨ m = 6 ∨ m = 7
                   ∨ m = 8 ∨ m = 9 ∨ m = 10 ∨ m = 11 ∨ m = 12) by lia.
  destruct (is_leap y);
    repeat (destruct Hcases as [-> | Hcases]; [simpl in *; lia |]);
    subst m; simpl in *; lia.
Qed.

Lemma ymd2ord_bounds (y m d : Z) :
  1 ≤ y ≤ 9999 → 1 ≤ m ≤ 12 → 1 ≤ d ≤ days_in_month y m →
  MINORDINAL ≤ ymd2ord y m d ≤ MAXORDINAL.
Proof.
  intros Hy Hm Hd. unfold ymd2ord, MINORDINAL.
  pose proof (days_before_year_bounds y Hy) as [H0 Hmax].
  pose proof (days_in_year_bound y m d Hm Hd).
  rewrite days_before_year_succ in Hmax. lia.
Qed.

End Calendar.

(** ** What [strptime] accepts *)

Section Parsing.

Lemma digit_bounds (c : ascii) (x : Z) : digit c = Some x → 0 ≤ x ≤ 9.
Proof.
  unfold digit.
  destruct ((48 <=? N_of_ascii c)%N && (N_of_ascii c <=? 57)%N) eqn:H;
    [| discriminate].
  apply andb_true_iff in H as [H1 H2].
  apply N.leb_le in H1, H2. intros [= <-]. lia.
Qed.

Lemma two_digits_elem (P : Z → Z → bool) (s : string) (v : Z) (r : string) :
  In (v, r) (two_digits P s) →
  ∃ x y, 0 ≤ x ≤ 9 ∧ 0 ≤ y ≤ 9 ∧ v = 10 * x + y ∧ P x y = true.
Proof.
  unfold two_digits. destruct s as [| a [| b r']]; try (intros []).
  destruct (digit a) as [x |] eqn:Ha; [| intros []].
  destruct (digit b) as [y |] eqn:Hb; [| intros []].
  destruct (P x y) eqn:HP; [| intros []].
  intros [[= <- <-] | []]. exists x, y.
  pose proof (digit_bounds _ _ Ha). pose proof (digit_bounds _ _ Hb).
  auto.
Qed.

Lemma one_digit_elem (P : Z → bool) (s : string) (v : Z) (r : string) :
  In (v, r) (one_digit P s) → 0 ≤ v ≤ 9 ∧ P v = true.
Proof.
  unfold one_digit. destruct s as [| a r']; [intros [] |].
  destruct (digit a) as [x |] eqn:Ha; [| intros []].
  destruct (P x) eqn:HP; [| intros []].
  intros [[= <- <-] | []]. pose proof (digit_bounds _ _ Ha). auto.
Qed.

Ltac parser_cases H :=
  unfold alt in H;
  repeat (apply in_app_or in H as [H | H]);
  try (apply two_digits_elem in H as (? & ? & ? & ? & -> & H));
  try (apply one_digit_elem in H as (? & H));
  rewrite ?andb_true_iff, ?Z.eqb_eq, ?Z.leb_le in H.

Lemma re_H_bounds (s : string) (v : Z) (r : string) :
  In (v, r) (re_H s) → 0 ≤ v ≤ 23.
Proof. unfold re_H. intros H. parser_cases H; lia. Qed.

Lemma re_M_bounds (s : string) (v : Z) (r : string) :
  In (v, r) (re_M s) → 0 ≤ v ≤ 59.
Proof. unfold re_M. intros H. parser_cases H; lia. Qed.

Lemma re_m_bounds (s : string) (v : Z) (r : string) :
  In (v, r) (re_m s) → 1 ≤ v ≤ 12.
Proof. unfold re_m. intros H. parser_cases H; lia. Qed.

Lemma re_d_bounds (s : string) (v : Z) (r : string) :
  In (v, r) (re_d s) → 1 ≤ v ≤ 31.
Proof.
  unfold re_d. intros H. parser_cases H; try lia.
  destruct s as [| c s']; [destruct H |].
  destruct (Ascii.eqb_spec c " "%char) as [-> | Hc].
  - apply one_digit_elem in H as [? HP]. apply Z.leb_le in HP. lia.
  - exfalso. revert H.
    destruct c as [[] [] [] [] [] [] [] []];
      first [intros [] | contradiction Hc; reflexivity].
Qed.

Lemma re_Y_bounds (s : string) (v : Z) (r : string) :
  In (v, r) (re_Y s) → 0 ≤ v ≤ 9999.
Proof.
  unfold re_Y. destruct s as [| a [| b [| c [| d r']]]]; try (intros []).
  destruct (digit a) eqn:Ha; [| intros []].
  destruct (digit b) eqn:Hb; [| intros []].
  destruct (digit c) eqn:Hc; [| intros []].
  destruct (digit d) eqn:Hd; [| intros []].
  apply digit_bounds in Ha, Hb, Hc, Hd.
  intros [[= <- <-] | []]. lia.
Qed.

(** A parsed time of day is an hour and a minute on 1900-01-01. *)
Lemma strptime_HM_Ok (s : string) (t : datetime) :
  strptime_HM s = Ok t →
  ∃ h mi, 0 ≤ h ≤ 23 ∧ 0 ≤ mi ≤ 59 ∧ t = at_hm (ymd2ord 1900 1 1) h mi.
Proof.
  unfold strptime_HM.
  destruct (flat_map _ (re_H s)) as [| [[h mi] r] l] eqn:Hl; [discriminate |].
  assert (Hin : In (h, mi, r)
            (flat_map (λ '(h, r1), map (λ '(m, r2), (h, m, r2)) (re_M r1))
                      (re_H s))) by (rewrite Hl; left; reflexivity).
  apply in_flat_map in Hin as ([h' r1] & HH & Hin).
  apply in_map_iff in Hin as ([m' r2] & [= -> -> ->] & HM).
  apply re_H_bounds in HH. apply re_M_bounds in HM.
  destruct r; [| discriminate]. intros [= <-]. eauto.
Qed.

(** A parsed date is midnight of a day of the calendar. *)
Lemma strptime_Ymd_Ok (s : string) (t : datetime) :
  strptime_Ymd s = Ok t →
  ∃ o, MINORDINAL ≤ o ≤ MAXORDINAL ∧ t = at_hm o 0 0.
Proof.
  unfold strptime_Ymd.
  destruct (flat_map _ (re_Y s)) as [| [[[y m] d] r] l] eqn:Hl;
    [discriminate |].
  assert (Hin : In (y, m, d, r)
            (flat_map (λ '(y, r1),
               flat_map (λ '(m, r2),
                 map (λ '(d, r3), (y, m, d, r3)) (re_d r2)) (re_m r1))
               (re_Y s))) by (rewrite Hl; left; reflexivity).
  apply in_flat_map in Hin as ([y' r1] & HY & Hin).
  apply in_flat_map in Hin as ([m' r2] & Hm & Hin).
  apply in_map_iff in Hin as ([d' r3] & [= -> -> -> ->] & Hd).
  apply re_Y_bounds in HY. apply re_m_bounds in Hm. apply re_d_bounds in Hd.
  destruct r; [| discriminate].
  destruct (Z.ltb_spec y 1) as [| Hy1]; [discriminate |].
  destruct (Z.ltb_spec (days_in_month y m) d) as [| Hdm]; [discriminate |].
  intros [= <-]. exists (ymd2ord y m d). split; [| reflexivity].
  apply ymd2ord_bounds; lia.
Qed.

Lemma in_range_at_hm (o h mi : Z) :
  MINORDINAL ≤ o ≤ MAXORDINAL → 0 ≤ h ≤ 23 → 0 ≤ mi ≤ 59 →
  in_range (at_hm o h mi) = true.
Proof.
  intros Ho Hh Hm. apply in_range_ordinal.
  rewrite toordinal_at_hm; assumption.
Qed.

End Parsing.

(** ** Constructed schedules *)

Section Construction.

Lemma bind_Ok {A B} (r : result A) (k : A → result B) (b : B) :
  r ≫= k = Ok b ↔ ∃ a, r = Ok a ∧ k a = Ok b.
Proof.
  destruct r as [a | e]; simpl; split.
  - eauto.
  - intros (a' & [= <-] & H). exact H.
  - discriminate.
  - intros (a' & [=] & _).
Qed.

Lemma getitem_Ok {V} (d : gmap string V) (k : string) (v : V) :
  getitem d (YStr k) = Ok v ↔ d !! k = Some v.
Proof.
  unfold getitem. destruct (d !! k); split; congruence.
Qed.

Lemma getitem_Ok_inv {V} (d : gmap string V) (k : yaml) (v : V) :
  getitem d k = Ok v → ∃ s, k = YStr s ∧ d !! s = Some v.
Proof.
  destruct k as [s | |]; try discriminate.
  rewrite getitem_Ok. eauto.
Qed.

(** The keys of [DATES] are the seven weekday names; [WEEKDAYS] gives each
    its index, and [DATES] the day of the first week of 1900 with that
    index. *)
Lemma DATES_lookup (d : string) (date : Z) :
  DATES !! d = Some date →
  ∃ w, 0 ≤ w ≤ 6 ∧ WEEKDAYS !! d = Some w
       ∧ date = ymd2ord 1900 1 1 + w
       ∧ weekday_names !! Z.to_nat w = Some d.
Proof.
  intros H. apply elem_of_list_to_map_2 in H.
  repeat (apply elem_of_cons in H as [[= -> ->] | H];
          [eexists; split; [| split; [vm_compute; reflexivity |
             split; vm_compute; reflexivity]]; lia |]).
  apply elem_of_nil in H. destruct H.
Qed.

Lemma DATES_names (d : string) :
  is_Some (DATES !! d) ↔ d ∈ weekday_names.
Proof.
  split.
  - intros [date H]. apply DATES_lookup in H as (w & _ & _ & _ & H).
    eapply list_elem_of_lookup_2, H.
  - unfold weekday_names. intros H.
    repeat (apply elem_of_cons in H as [-> | H];
            [eexists; vm_compute; reflexivity |]).
    apply elem_of_nil in H. destruct H.
Qed.

Lemma supported_frequencies_Ok (f : yaml) (n : Z) :
  getitem supported_frequencies f = Ok n ↔
  (f = YStr "weekly" ∧ n = 1) ∨ (f = YStr "biweekly" ∧ n = 2).
Proof.
  split.
  - intros H. apply getitem_Ok_inv in H as (k & -> & H).
    apply elem_of_list_to_map_2 in H.
    repeat (apply elem_of_cons in H as [[= -> ->] | H]; [auto |]).
    apply elem_of_nil in H. destruct H.
  - intros [[-> ->] | [-> ->]]; reflexivity.
Qed.

Lemma Schedule_init_Ok utcnow m y s :
  Schedule_init utcnow m y = Ok s → constructed utcnow m y s.
Proof.
  unfold Schedule_init. intros H.
  apply bind_Ok in H as (tv & Htv & H). apply getitem_Ok in Htv.
  apply bind_Ok in H as (t & Ht & H).
  apply bind_Ok in H as (dv & Hdv & H). apply getitem_Ok in Hdv.
  apply bind_Ok in H as (d & Hd & H).
  apply bind_Ok in H as (c & Hc & H). apply getitem_Ok in Hc.
  apply bind_Ok in H as (f & Hf & H). apply getitem_Ok in Hf.
  apply bind_Ok in H as (n & Hn & H).
  apply bind_Ok in H as (sd & Hsd & H).
  apply bind_Ok in H as (dur & Hdur & H).
  destruct dv as [ds | |]; try discriminate. injection Hd as <-.
  destruct (DATES !! capitalize (lower ds)) as [date |] eqn:Hdate;
    [| discriminate].
  apply bind_Ok in H as (me & Hme & H). apply add_Ok in Hme as [-> Hrange].
  destruct (bool_decide (capitalize (lower ds) = "Sunday")
            && bool_decide (strftime_a _ = "Mon")) eqn:Hwrap.
  - apply bind_Ok in H as (ms' & Hms' & H).
    apply bind_Ok in H as (me' & Hme' & H).
    apply add_Ok in Hms' as [-> Hr1]. apply add_Ok in Hme' as [-> Hr2].
    injection H as <-. constructor; simpl; eauto.
    exists date. split; [assumption |]. simpl. split; [assumption |].
    rewrite Hwrap. auto.
  - injection H as <-. constructor; simpl; eauto.
    exists date. split; [assumption |]. simpl. split; [assumption |].
    rewrite Hwrap. auto.
Qed.

(** The anchor of a constructed schedule is a representable instant,
    provided the clock reading is. *)
Lemma init_start_date_range utcnow f y sd :
  in_range utcnow = true →
  init_start_date utcnow f y = Ok sd → in_range sd = true.
Proof.
  intros Hnow. unfold init_start_date.
  destruct (y !! "start_date") as [v |]; [| congruence].
  destruct (strptime_Ymd (str v)) as [d | e] eqn:Hparse.
  - intros [= <-]. apply strptime_Ymd_Ok in Hparse as (o & Ho & ->).
    apply in_range_at_hm; [assumption | lia | lia].
  - destruct e; discriminate.
Qed.

Lemma constructed_time utcnow m y s :
  constructed utcnow m y s →
  ∃ h mi, 0 ≤ h ≤ 23 ∧ 0 ≤ mi ≤ 59
          ∧ time s = at_hm (ymd2ord 1900 1 1) h mi.
Proof.
  intros [_ _ _ Ht _ _ _ _ _ _ _]. unfold strptime_time in Ht.
  destruct (utc s); try discriminate. eauto using strptime_HM_Ok.
Qed.

Lemma constructed_freq utcnow m y s :
  constructed utcnow m y s →
  (freq s = YStr "weekly" ∧ freq_interval s = 1)
  ∨ (freq s = YStr "biweekly" ∧ freq_interval s = 2).
Proof. intros C. apply supported_frequencies_Ok, C. Qed.

End Construction.

(** ** The alternating frequencies cannot be constructed *)

Lemma constructed_exempt now1 m1 y1 s1 now2 m2 y2 s2 :
  constructed now1 m1 y1 s1 → constructed now2 m2 y2 s2 →
  bool_decide ((list_to_set [freq s1; freq s2] : gset yaml) ≠ alternating)
  = true.
Proof.
  intros C1 C2. apply constructed_freq in C1, C2.
  apply bool_decide_eq_true. rewrite alternating_pair.
  unfold is_alternating_pair.
  destruct C1 as [[-> _] | [-> _]]; intros [[[=] _] | [[=] _]].
Qed.

Lemma constructed_conflicts now1 m1 y1 s1 now2 m2 y2 s2 :
  constructed now1 m1 y1 s1 → constructed now2 m2 y2 s2 →
  Schedule_conflicts s1 s2
  = bool_decide (irc s1 = irc s2)
    && ((meeting_start s1 <? meeting_end s2)
        && (meeting_start s2 <? meeting_end s1)).
Proof.
  intros C1 C2. unfold Schedule_conflicts.
  rewrite (constructed_exempt _ _ _ _ _ _ _ _ C1 C2). apply andb_true_r.
Qed.

(** C7: no constructed Schedule has frequency biweekly-odd or biweekly-even
    (neither table of supported recurrences lists them), so for constructed
    schedules the exemption conjunct of [conflicts] is always true and the
    test is channel equality plus interval overlap. *)
Theorem alternating_unreachable now1 m1 y1 s1 now2 m2 y2 s2 :
  Schedule_init now1 m1 y1 = Ok s1 →
  Schedule_init now2 m2 y2 = Ok s2 →
  (supported_frequencies !! "biweekly-odd" = None
   ∧ supported_frequencies !! "biweekly-even" = None
   ∧ Recurrence.supported_recurrences !! "biweekly-odd" = None
   ∧ Recurrence.supported_recurrences !! "biweekly-even" = None)
  ∧ (freq s1 = YStr "weekly" ∨ freq s1 = YStr "biweekly")
  ∧ freq s1 ≠ YStr "biweekly-odd" ∧ freq s1 ≠ YStr "biweekly-even"
  ∧ bool_decide ((list_to_set [freq s1; freq s2] : gset yaml) ≠ alternating)
    = true
  ∧ Schedule_conflicts s1 s2
    = bool_decide (irc s1 = irc s2)
      && ((meeting_start s1 <? meeting_end s2)
          && (meeting_start s2 <? meeting_end s1)).
Proof.
  intros C1 C2. apply Schedule_init_Ok in C1, C2.
  split; [repeat split; vm_compute; reflexivity |].
  pose proof (constructed_exempt _ _ _ _ _ _ _ _ C1 C2) as Hexempt.
  pose proof (constructed_conflicts _ _ _ _ _ _ _ _ C1 C2) as Hconf.
  apply constructed_freq in C1.
  split; [destruct C1 as [[-> _] | [-> _]]; auto |].
  split; [destruct C1 as [[-> _] | [-> _]]; discriminate |].
  split; [destruct C1 as [[-> _] | [-> _]]; discriminate |].
  split; assumption.
Qed.

Lemma alternating_unreachable_witness :
  Schedule_init example_now (example_meeting "alpha") sunday_2330_yaml
  = Ok sunday_2330
  ∧ Schedule_init example_now (example_meeting "beta") monday_0000_yaml
    = Ok monday_0000
  ∧ Schedule_conflicts sunday_2330 monday_0000
    = bool_decide (irc sunday_2330 = irc monday_0000)
      && ((meeting_start sunday_2330 <? meeting_end monday_0000)
          && (meeting_start monday_0000 <? meeting_end sunday_2330)).
Proof.
  split; [vm_compute; reflexivity |].
  split; [vm_compute; reflexivity |].
  apply (alternating_unreachable
           example_now (example_meeting "alpha") sunday_2330_yaml sunday_2330
           example_now (example_meeting "beta") monday_0000_yaml monday_0000);
    vm_compute; reflexivity.
Defined.

(** ** The week-wrap adjustment *)

Lemma strftime_a_Mon (t : datetime) : strftime_a t = "Mon" ↔ weekday t = 0.
Proof.
  unfold strftime_a. pose proof (weekday_bounds t) as Hb. split.
  - intros H.
    assert (Hcases : weekday t = 0 ∨ weekday t = 1 ∨ weekday t = 2
                     ∨ weekday t = 3 ∨ weekday t = 4 ∨ weekday t = 5
                     ∨ weekday t = 6) by lia.
    destruct Hcases as [? | Hcases]; [assumption |].
    repeat (destruct Hcases as [Hw | Hcases];
            [rewrite Hw in H; discriminate H |]).
    rewrite Hcases in H. discriminate H.
  - intros ->. reflexivity.
Qed.

(** C3: a Sunday schedule whose end falls on Monday has both ends of its
    canonical-week interval moved back by one week; hence Sunday 2330 for 60
    minutes and Monday 0000 on the same channel conflict in the same-week
    test. *)
Theorem sunday_week_wrap now m y s :
  Schedule_init now m y = Ok s →
  day s = "Sunday" →
  let base_start := combine (ymd2ord 1900 1 7) (time_of (time s)) in
  let base_end := base_start + timedelta_minutes (duration s) in
  weekday base_end = 0 →
  (meeting_start s = base_start - timedelta_weeks 1
   ∧ meeting_end s = base_end - timedelta_weeks 1)
  ∧ (time_of (time s) = 23 * US_PER_HOUR + 30 * US_PER_MINUTE →
     duration s = 60 →
     ∀ now' m' y' s',
       Schedule_init now' m' y' = Ok s' →
       day s' = "Monday" → time_of (time s') = 0 → 0 ≤ duration s' →
       irc s' = irc s →
       Schedule_conflicts s s' = true ∧ Schedule_conflicts s' s = true).
Proof.
  intros Hinit Hday base_start base_end Hmon.
  pose proof (Schedule_init_Ok _ _ _ _ Hinit) as C.
  destruct (c_interval _ _ _ _ C) as (date & Hdate & _ & Hshift).
  rewrite Hday in Hdate, Hshift. vm_compute in Hdate.
  injection Hdate as <-.
  change (combine 693602 (time_of (time s))) with base_start in Hshift.
  change (base_start + timedelta_minutes (duration s)) with base_end in Hshift.
  rewrite (bool_decide_eq_true_2 _ eq_refl) in Hshift.
  rewrite (bool_decide_eq_true_2 _ (proj2 (strftime_a_Mon _) Hmon)) in Hshift.
  simpl in Hshift. destruct Hshift as (Hms & Hme & _).
  split; [split; assumption |].
  intros Htime Hdur now' m' y' s' Hinit' Hday' Htime' Hdur' Hirc.
  pose proof (Schedule_init_Ok _ _ _ _ Hinit') as C'.
  destruct (c_interval _ _ _ _ C') as (date' & Hdate' & _ & Hshift').
  rewrite Hday' in Hdate', Hshift'. vm_compute in Hdate'.
  injection Hdate' as <-.
  rewrite (bool_decide_eq_false_2 ("Monday" = "Sunday")) in Hshift'
    by discriminate.
  simpl in Hshift'. destruct Hshift' as [Hms' Hme'].
  rewrite (constructed_conflicts _ _ _ _ _ _ _ _ C C').
  rewrite (constructed_conflicts _ _ _ _ _ _ _ _ C' C).
  rewrite Hirc, !(bool_decide_eq_true_2 _ eq_refl).
  rewrite !andb_true_iff, !Z.ltb_lt.
  rewrite Hms, Hme, Hms', Hme'. subst base_end base_start.
  rewrite Htime, Htime', Hdur.
  change (ymd2ord 1900 1 7) with 693602.
  unfold combine, timedelta_minutes, ONE_WEEK, timedelta_weeks.
  rewrite us_per_day_eq, us_per_hour_eq, us_per_minute_eq.
  repeat split; try reflexivity; lia.
Qed.

Lemma sunday_week_wrap_witness :
  Schedule_init example_now (example_meeting "alpha") sunday_2330_yaml
  = Ok sunday_2330
  ∧ meeting_start sunday_2330
    = combine (ymd2ord 1900 1 7) (time_of (time sunday_2330))
      - timedelta_weeks 1
  ∧ Schedule_conflicts sunday_2330 monday_0000 = true.
Proof.
  assert (Hinit : Schedule_init example_now (example_meeting "alpha")
                    sunday_2330_yaml = Ok sunday_2330)
    by (vm_compute; reflexivity).
  assert (Hday : day sunday_2330 = "Sunday") by reflexivity.
  assert (Hmon : weekday (combine (ymd2ord 1900 1 7)
                            (time_of (time sunday_2330))
                          + timedelta_minutes (duration sunday_2330)) = 0)
    by (vm_compute; reflexivity).
  pose proof (sunday_week_wrap example_now (example_meeting "alpha")
                sunday_2330_yaml sunday_2330 Hinit Hday Hmon)
    as [[Hstart _] Hscenario].
  split; [exact Hinit |]. split; [exact Hstart |].
  refine (proj1 (Hscenario _ _ example_now (example_meeting "beta")
                   monday_0000_yaml monday_0000 _ _ _ _ _));
    vm_compute; first [reflexivity | discriminate].
Defined.

(** ** The first occurrence *)

Section NextOccurrence.

Lemma days_ahead_mod (w wd : Z) :
  0 ≤ w ≤ 6 → 0 ≤ wd ≤ 6 →
  (if w - wd <? 0 then w - wd + 7 else w - wd) = (w - wd) mod 7.
Proof.
  intros Hw Hwd. destruct (Z.ltb_spec (w - wd) 0).
  - apply (Z.mod_unique _ _ (-1)); lia.
  - apply (Z.mod_unique _ _ 0); lia.
Qed.

Lemma weekday_after (o w : Z) :
  0 ≤ w ≤ 6 →
  (o + (w - (o + 6) mod 7) mod 7 + 6) mod 7 = w.
Proof.
  intros Hw.
  rewrite <- Z.add_assoc, (Z.add_comm _ 6), Z.add_assoc.
  rewrite <- Zplus_mod_idemp_l, Zplus_mod_idemp_r.
  replace ((o + 6) mod 7 + (w - (o + 6) mod 7)) with w by lia.
  apply Z.mod_small. lia.
Qed.

(** What [next_occurrence] computes for a schedule whose day is a weekday
    name, whose anchor is a representable instant and whose time of day is
    an hour and a minute. *)
Lemma next_occurrence_compute (s : Schedule) (w h mi : Z) :
  WEEKDAYS !! day s = Some w → 0 ≤ w ≤ 6 →
  in_range (start_date s) = true →
  0 ≤ h ≤ 23 → 0 ≤ mi ≤ 59 →
  time s = at_hm (ymd2ord 1900 1 1) h mi →
  let k := (w - weekday (start_date s)) mod 7 in
  Schedule_next_occurrence s
  = if decide (toordinal (start_date s) + k ≤ MAXORDINAL)
    then Ok (at_hm (toordinal (start_date s) + k) h mi)
    else Raise OverflowError.
Proof.
  intros Hday Hw Hsd Hh Hmi Htime k.
  unfold Schedule_next_occurrence.
  rewrite (proj2 (getitem_Ok _ _ _) Hday). simpl.
  rewrite days_ahead_mod by auto using weekday_bounds. fold k.
  assert (Hk : 0 ≤ k < 7) by (apply Z.mod_pos_bound; lia).
  apply in_range_ordinal in Hsd.
  unfold add.
  destruct (in_range (start_date s + timedelta_days k)) eqn:Hr.
  - apply in_range_ordinal in Hr. rewrite toordinal_add_days in Hr.
    simpl. rewrite toordinal_add_days, Htime.
    rewrite hour_at_hm, minute_at_hm by assumption.
    destruct (decide _); [reflexivity | lia].
  - simpl. destruct (decide _) as [Hle |]; [| reflexivity].
    assert (Hin : in_range (start_date s + timedelta_days k) = true).
    { apply in_range_ordinal. rewrite toordinal_add_days. lia. }
    congruence.
Qed.

End NextOccurrence.

(** C2: for a constructed Schedule, [next_occurrence()] falls on the
    schedule's weekday, on the anchor date or one of the six dates after it
    (on the anchor date exactly when that date already has the weekday), at
    the schedule's hour and minute; this whenever that date is not after
    9999-12-31, and otherwise the call raises OverflowError. *)
Theorem next_occurrence_spec now m y s :
  in_range now = true →
  Schedule_init now m y = Ok s →
  ∃ w, WEEKDAYS !! day s = Some w ∧
    let k := (w - weekday (start_date s)) mod 7 in
    0 ≤ k ≤ 6 ∧ (k = 0 ↔ weekday (start_date s) = w) ∧
    if decide (toordinal (start_date s) + k ≤ MAXORDINAL) then
      ∃ t, Schedule_next_occurrence s = Ok t
           ∧ weekday t = w
           ∧ toordinal t = toordinal (start_date s) + k
           ∧ time_of t = time_of (time s)
           ∧ hour t = hour (time s) ∧ minute t = minute (time s)
    else Schedule_next_occurrence s = Raise OverflowError.
Proof.
  intros Hnow Hinit. apply Schedule_init_Ok in Hinit as C.
  destruct (c_interval _ _ _ _ C) as (date & Hdate & _).
  apply DATES_lookup in Hdate as (w & Hw & Hday & _).
  destruct (constructed_time _ _ _ _ C) as (h & mi & Hh & Hmi & Htime).
  pose proof (init_start_date_range _ _ _ _ Hnow (c_start_date _ _ _ _ C))
    as Hsd.
  exists w. split; [exact Hday |]. intros k.
  pose proof (weekday_bounds (start_date s)) as Hwd.
  assert (Hk : 0 ≤ k < 7) by (apply Z.mod_pos_bound; lia).
  split; [lia |]. split.
  { subst k. split.
    - intros H0. apply Z.mod_divide in H0 as [q Hq]; lia.
    - intros ->. rewrite Z.sub_diag. reflexivity. }
  rewrite (next_occurrence_compute s w h mi) by assumption. fold k.
  destruct (decide _); [| reflexivity].
  eexists. split; [reflexivity |].
  rewrite Htime, !hour_at_hm, !minute_at_hm, !time_of_at_hm by assumption.
  unfold weekday at 1. rewrite toordinal_at_hm by assumption.
  repeat split; try reflexivity.
  subst k. unfold weekday. apply weekday_after, Hw.
Qed.

Lemma next_occurrence_spec_witness :
  in_range example_now = true
  ∧ Schedule_init example_now (example_meeting "alpha") sunday_2330_yaml
    = Ok sunday_2330
  ∧ ∃ w, WEEKDAYS !! day sunday_2330 = Some w ∧
      let k := (w - weekday (start_date sunday_2330)) mod 7 in
      0 ≤ k ≤ 6 ∧ (k = 0 ↔ weekday (start_date sunday_2330) = w) ∧
      if decide (toordinal (start_date sunday_2330) + k ≤ MAXORDINAL) then
        ∃ t, Schedule_next_occurrence sunday_2330 = Ok t
             ∧ weekday t = w
             ∧ toordinal t = toordinal (start_date sunday_2330) + k
             ∧ time_of t = time_of (time sunday_2330)
             ∧ hour t = hour (time sunday_2330)
             ∧ minute t = minute (time sunday_2330)
      else Schedule_next_occurrence sunday_2330 = Raise OverflowError.
Proof.
  split; [reflexivity |]. split; [vm_compute; reflexivity |].
  apply (next_occurrence_spec example_now (example_meeting "alpha")
           sunday_2330_yaml sunday_2330);
    vm_compute; reflexivity.
Defined.

(** From Monday 2015-01-05 the next Sunday 23:30 is 2015-01-11 23:30. *)
Example next_occurrence_sunday :
  Schedule_next_occurrence sunday_2330
  = Ok (at_hm (ymd2ord 2015 1 11) 23 30).
Proof. vm_compute. reflexivity. Qed.

(** The claim of C2 as the specification words it fails in two ways: a
    schedule anchored on 9999-12-31 (a Friday) for Mondays has no next
    occurrence, the call raises OverflowError; and with the default anchor
    (the clock reading at construction, here Monday 15:30:12.5) the returned
    instant, Monday 00:00, precedes the anchor instant. *)
Lemma next_occurrence_counterexample :
  (Schedule_init example_now (example_meeting "alpha") last_day_yaml
   = Ok last_day
   ∧ ¬ ∃ t, Schedule_next_occurrence last_day = Ok t)
  ∧ (Schedule_init example_now (example_meeting "beta") monday_0000_yaml
     = Ok monday_0000
     ∧ ∃ t, Schedule_next_occurrence monday_0000 = Ok t
            ∧ t < start_date monday_0000).
Proof.
  split; split.
  - vm_compute. reflexivity.
  - intros [t Ht]. vm_compute in Ht. discriminate Ht.
  - vm_compute. reflexivity.
  - eexists. split; [vm_compute; reflexivity |]. vm_compute. reflexivity.
Qed.

(** ** Calling [next_occurrence] twice *)

(** C9: for a constructed Schedule, two successive calls of
    [next_occurrence()] have the same outcome and leave the object as it
    was: when the first date from the anchor date on that falls on the
    schedule's weekday is not after 9999-12-31, both calls return the same
    instant; otherwise both raise OverflowError. *)
Theorem next_occurrence_idempotent now m y s :
  in_range now = true →
  Schedule_init now m y = Ok s →
  let '(r1, s1) := call_next_occurrence s in
  let '(r2, s2) := call_next_occurrence s1 in
  s1 = s ∧ s2 = s
  ∧ ∃ w, WEEKDAYS !! day s = Some w
      ∧ if decide (toordinal (start_date s)
                   + (w - weekday (start_date s)) mod 7 ≤ MAXORDINAL)
        then ∃ t, r1 = Ok t ∧ r2 = Ok t
        else r1 = Raise OverflowError ∧ r2 = Raise OverflowError.
Proof.
  intros Hnow Hinit. apply Schedule_init_Ok in Hinit as C.
  destruct (c_interval _ _ _ _ C) as (date & Hdate & _).
  apply DATES_lookup in Hdate as (w & Hw & Hday & _).
  destruct (constructed_time _ _ _ _ C) as (h & mi & Hh & Hmi & Htime).
  pose proof (init_start_date_range _ _ _ _ Hnow (c_start_date _ _ _ _ C))
    as Hsd.
  unfold call_next_occurrence.
  split; [reflexivity |]. split; [reflexivity |].
  exists w. split; [exact Hday |].
  rewrite (next_occurrence_compute s w h mi) by assumption. cbv zeta.
  destruct (decide _); eauto.
Qed.

Lemma next_occurrence_idempotent_witness :
  in_range example_now = true
  ∧ Schedule_init example_now (example_meeting "alpha") sunday_2330_yaml
    = Ok sunday_2330
  ∧ ∃ t, (call_next_occurrence sunday_2330).1 = Ok t
         ∧ (call_next_occurrence (call_next_occurrence sunday_2330).2).1
           = Ok t.
Proof.
  assert (Hnow : in_range example_now = true) by reflexivity.
  assert (Hinit : Schedule_init example_now (example_meeting "alpha")
                    sunday_2330_yaml = Ok sunday_2330)
    by (vm_compute; reflexivity).
  split; [exact Hnow |]. split; [exact Hinit |].
  pose proof (next_occurrence_idempotent example_now (example_meeting "alpha")
                sunday_2330_yaml sunday_2330 Hnow Hinit) as H.
  unfold call_next_occurrence in *. cbn [fst snd].
  destruct H as (_ & _ & w & Hw & H).
  destruct (decide _) as [| Hout] in H; [exact H |].
  exfalso. apply Hout. injection Hw as <-. vm_compute. discriminate.
Defined.

(** The claim of C9 as the specification words it fails for the schedule
    anchored on 9999-12-31 for Mondays: neither call yields an instant. *)
Lemma next_occurrence_idempotent_counterexample :
  Schedule_init example_now (example_meeting "alpha") last_day_yaml
  = Ok last_day
  ∧ ¬ ∃ t, (call_next_occurrence last_day).1 = Ok t
           ∧ (call_next_occurrence (call_next_occurrence last_day).2).1
             = Ok t.
Proof.
  split; [vm_compute; reflexivity |].
  intros (t & Ht & _). vm_compute in Ht. discriminate Ht.
Qed.

(** ** Occurrence expansion *)

Section Between.

Variables (step : timedelta) (after before : datetime).
Hypothesis step_pos : 0 < step.

Lemma progression_elem (fuel : nat) (i x : datetime) :
  x ∈ progression fuel step i after before
  ↔ ∃ k : nat, (k < fuel)%nat ∧ x = i + Z.of_nat k * step
               ∧ after ≤ x ≤ before.
Proof.
  revert i. induction fuel as [| fuel IH]; intros i; simpl.
  - rewrite elem_of_nil. split; [intros [] | intros (k & Hk & _); lia].
  - destruct (Z.ltb_spec before i) as [Hlt | Hge].
    + rewrite elem_of_nil. split; [intros [] |].
      intros (k & _ & -> & Hx). nia.
    + rewrite elem_of_app, IH. split.
      * intros [Hhead | (k & Hk & -> & Hx)].
        -- destruct (Z.leb_spec after i); [| apply elem_of_nil in Hhead as []].
           apply list_elem_of_singleton in Hhead as ->.
           exists 0%nat. split; [lia |]. split; lia.
        -- exists (S k). split; [lia |]. split; lia.
      * intros ([| k] & Hk & -> & Hx).
        -- left. replace (i + Z.of_nat 0 * step) with i in * by lia.
           destruct (Z.leb_spec after i); [| lia].
           apply list_elem_of_singleton. reflexivity.
        -- right. exists k. split; [lia |]. split; lia.
Qed.

Lemma progression_lower (fuel : nat) (i x : datetime) :
  x ∈ progression fuel step i after before → i ≤ x.
Proof. rewrite progression_elem. intros (k & _ & -> & _). nia. Qed.

(** The loop yields its instants in strictly increasing order. *)
Lemma progression_sorted (fuel : nat) (i : datetime) :
  StronglySorted Z.lt (progression fuel step i after before).
Proof.
  revert i. induction fuel as [| fuel IH]; intros i; simpl;
    [constructor |].
  destruct (before <? i); [constructor |].
  destruct (after <=? i); simpl; [| apply IH].
  constructor; [apply IH |].
  apply Forall_forall. intros x Hx.
  apply progression_lower in Hx. lia.
Qed.

(** Once inside the window the loop keeps every instant up to [before]. *)
Lemma progression_length_inside (fuel : nat) (i : datetime) :
  after ≤ i → i ≤ before →
  (before - i) / step + 1 ≤ Z.of_nat fuel →
  Z.of_nat (length (progression fuel step i after before))
  = (before - i) / step + 1.
Proof.
  revert i. induction fuel as [| fuel IH]; intros i Hafter Hbefore Hfuel.
  - pose proof (Z.div_pos (before - i) step). lia.
  - simpl. destruct (Z.ltb_spec before i); [lia |].
    destruct (Z.leb_spec after i); [| lia].
    simpl length. rewrite Nat2Z.inj_succ.
    assert (Hdiv : (before - (i + step)) / step = (before - i) / step - 1).
    { replace (before - (i + step)) with (before - i + (-1) * step) by lia.
      rewrite Z.div_add by lia. lia. }
    destruct (Z.le_gt_cases (i + step) before) as [Hin | Hout].
    + rewrite IH by lia. lia.
    + assert (Hnil : progression fuel step (i + step) after before
                     = []).
      { destruct fuel; [reflexivity |]. simpl.
        destruct (Z.ltb_spec before (i + step)); [reflexivity | lia]. }
      rewrite Hnil. simpl.
      rewrite (Z.div_small (before - i) step) by lia. lia.
Qed.

Lemma progression_length_max (fuel : nat) (i : datetime) :
  Z.of_nat (length (progression fuel step i after before))
  ≤ Z.max 0 ((before - Z.max i after) / step + 1).
Proof.
  revert i. induction fuel as [| fuel IH]; intros i; simpl; [lia |].
  destruct (Z.ltb_spec before i); simpl; [lia |].
  specialize (IH (i + step)).
  destruct (Z.leb_spec after i).
  - simpl length. rewrite Nat2Z.inj_succ.
    rewrite (Z.max_l (i + step)) in IH by lia. rewrite (Z.max_l i) by lia.
    replace (before - (i + step)) with (before - i + (-1) * step) in IH
      by lia.
    rewrite Z.div_add in IH by lia.
    pose proof (Z.div_pos (before - i) step). lia.
  - simpl. rewrite (Z.max_r i) by lia.
    pose proof (Z.div_le_mono (before - Z.max (i + step) after)
                  (before - after) step).
    lia.
Qed.

Lemma progression_length_upper (fuel : nat) (i : datetime) :
  after ≤ before →
  Z.of_nat (length (progression fuel step i after before))
  ≤ (before - after) / step + 1.
Proof.
  intros Hwin. pose proof (progression_length_max fuel i) as Hlen.
  pose proof (Z.div_pos (before - after) step).
  pose proof (Z.div_le_mono (before - Z.max i after) (before - after) step).
  lia.
Qed.

Lemma progression_length_lower (fuel : nat) (i : datetime) :
  i < after + step →
  (before - i) / step + 1 ≤ Z.of_nat fuel →
  (before - after + 1) / step
  ≤ Z.of_nat (length (progression fuel step i after before)).
Proof.
  revert i. induction fuel as [| fuel IH]; intros i Hi Hfuel.
  - simpl.
    destruct (Z.le_gt_cases i before) as [Hle | Hgt].
    + pose proof (Z.div_pos (before - i) step). lia.
    + enough ((before - after + 1) / step < 1) by lia.
      apply Z.div_lt_upper_bound; lia.
  - simpl. destruct (Z.ltb_spec before i) as [Hlt | Hge].
    + simpl.
      enough ((before - after + 1) / step ≤ 0) by lia.
      enough ((before - after + 1) / step < 1) by lia.
      apply Z.div_lt_upper_bound; lia.
    + destruct (Z.leb_spec after i) as [Hin | Hout].
      * pose proof (progression_length_inside (S fuel) i Hin Hge Hfuel)
          as Hlen.
        simpl in Hlen. destruct (Z.ltb_spec before i); [lia |].
        destruct (Z.leb_spec after i); [| lia].
        rewrite Hlen.
        assert ((before - after + 1) / step ≤ (before - i) / step + 1);
          [| lia].
        replace ((before - i) / step + 1) with ((before - i + 1 * step) / step)
          by (rewrite Z.div_add by lia; reflexivity).
        apply Z.div_le_mono; lia.
      * simpl. apply IH; [lia |].
        replace (before - (i + step)) with (before - i + (-1) * step) by lia.
        rewrite Z.div_add by lia. lia.
Qed.

End Between.

Section Expansion.

Lemma timedelta_weeks_pos (interval : Z) :
  0 < interval → 0 < timedelta_weeks interval.
Proof. unfold timedelta_weeks. rewrite us_per_day_eq. lia. Qed.

Lemma toordinal_add_weeks (t : datetime) (n : Z) :
  toordinal (t + timedelta_weeks n) = toordinal t + 7 * n.
Proof.
  replace (timedelta_weeks n) with (timedelta_days (7 * n))
    by (unfold timedelta_weeks, timedelta_days; lia).
  apply toordinal_add_days.
Qed.

Lemma weekday_add_weeks (t : datetime) (n : Z) :
  weekday (t + timedelta_weeks n) = weekday t.
Proof.
  unfold weekday. rewrite toordinal_add_weeks.
  replace (toordinal t + 7 * n + 6) with (toordinal t + 6 + n * 7) by lia.
  apply Z.mod_add. lia.
Qed.

Lemma toordinal_le (t u : datetime) : t ≤ u → toordinal t ≤ toordinal u.
Proof.
  unfold toordinal. intros H. apply Z.div_le_mono; [| exact H].
  rewrite us_per_day_eq. lia.
Qed.

Lemma progression_past (fuel : nat) (step : timedelta)
    (i after before : datetime) :
  before < i → progression fuel step i after before = [].
Proof.
  intros Hlt. destruct fuel; simpl; [reflexivity |].
  destruct (Z.ltb_spec before i); [reflexivity | lia].
Qed.

(** The loop of [between] against the progression: it returns the
    progression unless the generator runs into year 10000 first. *)
Lemma between_loop_spec (interval : Z) (after before : datetime)
    (fuel : nat) (i : datetime) :
  0 < interval → in_range before = true →
  match Rrule.between_loop fuel interval i after before with
  | Ok l =>
      l = progression fuel (timedelta_weeks interval) i after before
      ∧ ∀ k, 0 ≤ k < Z.of_nat fuel →
             i + k * timedelta_weeks interval ≤ before →
             ¬ (toordinal i + 7 * interval * (k + 1) - weekday i
                ≤ MAXORDINAL < toordinal i + 7 * interval * (k + 1))
  | Raise e => e = Rrule.year_10000 ∧ overruns i interval before
  end.
Proof.
  intros Hpos Hbefore. apply in_range_ordinal in Hbefore as [_ Hbefore].
  pose proof (timedelta_weeks_pos interval Hpos) as Hstep.
  revert i. induction fuel as [| fuel IH]; intros i.
  - simpl. split; [reflexivity | intros k Hk; lia].
  - cbn [Rrule.between_loop progression].
    destruct (Z.ltb_spec before i) as [Hlt | Hge].
    { split; [reflexivity |]. intros k Hk Hle. nia. }
    pose proof (weekday_bounds i) as Hwd.
    unfold Rrule.advance. cbv zeta.
    destruct (Z.ltb_spec MAXORDINAL
                (toordinal i - weekday i + 7 * interval)) as [Hend | Hin];
      cbn [mbind result_bind Py.bind].
    { split.
      - rewrite (progression_past fuel); [reflexivity |].
        apply Z.nle_gt. intros Hle. apply toordinal_le in Hle.
        rewrite toordinal_add_weeks in Hle. lia.
      - intros k Hk _. nia. }
    destruct (Z.ltb_spec MAXORDINAL
                (toordinal i - weekday i + 7 * interval + weekday i))
      as [Hover | Hok]; cbn [mbind result_bind Py.bind].
    { split; [reflexivity |]. exists 0.
      split; [lia |]. split; [lia |]. cbv zeta. lia. }
    specialize (IH (i + timedelta_weeks interval)).
    destruct (Rrule.between_loop fuel interval
                (i + timedelta_weeks interval) after before) as [l' | e];
      cbn [mbind result_bind Py.bind].
    + destruct IH as [-> Hno]. split; [reflexivity |].
      intros k Hk Hle. destruct (Z.eq_dec k 0) as [-> | Hk0]; [lia |].
      specialize (Hno (k - 1)).
      rewrite toordinal_add_weeks, weekday_add_weeks in Hno.
      replace (i + timedelta_weeks interval
               + (k - 1) * timedelta_weeks interval)
        with (i + k * timedelta_weeks interval) in Hno by ring.
      replace (toordinal i + 7 * interval + 7 * interval * (k - 1 + 1))
        with (toordinal i + 7 * interval * (k + 1)) in Hno by ring.
      apply Hno; [lia | exact Hle].
    + destruct IH as [-> (k & Hk & Hle & Hnext)]. split; [reflexivity |].
      cbv zeta in Hnext.
      rewrite toordinal_add_weeks, weekday_add_weeks in Hnext.
      exists (k + 1). split; [lia |]. split.
      * replace (i + (k + 1) * timedelta_weeks interval)
          with (i + timedelta_weeks interval + k * timedelta_weeks interval)
          by ring.
        exact Hle.
      * cbv zeta.
        replace (toordinal i + 7 * interval * (k + 1 + 1))
          with (toordinal i + 7 * interval + 7 * interval * (k + 1))
          by ring.
        exact Hnext.
Qed.

(** [between] either raises because the rule overruns the calendar, or
    returns the progression from [dtstart]. *)
Lemma between_cases (dtstart : datetime) (interval : Z)
    (after before : datetime) :
  0 < interval → in_range before = true →
  (overruns dtstart interval before
   ∧ Rrule.between dtstart interval after before = Raise Rrule.year_10000)
  ∨ (¬ overruns dtstart interval before
     ∧ Rrule.between dtstart interval after before
       = Ok (progression
               (Rrule.iterations dtstart (timedelta_weeks interval) before)
               (timedelta_weeks interval) dtstart after before)).
Proof.
  intros Hpos Hbefore. unfold Rrule.between.
  pose proof (between_loop_spec interval after before
                (Rrule.iterations dtstart (timedelta_weeks interval) before)
                dtstart Hpos Hbefore) as H.
  pose proof (timedelta_weeks_pos interval Hpos) as Hstep.
  destruct (Rrule.between_loop _ _ _ _ _) as [l | e].
  - destruct H as [-> Hno]. right. split; [| reflexivity].
    intros (k & Hk & Hle & Hnext). apply (Hno k); [| exact Hle | exact Hnext].
    unfold Rrule.iterations.
    assert (k ≤ (before - dtstart) / timedelta_weeks interval)
      by (apply Z.div_le_lower_bound; lia).
    lia.
  - destruct H as [-> Hover]. left. auto.
Qed.

(** Only a rule of Saturdays or Sundays overruns, and only when the window
    ends in the last weeks of year 9999. *)
Lemma overruns_weekend (t0 : datetime) (interval : Z) (before : datetime) :
  0 < interval → overruns t0 interval before →
  5 ≤ weekday t0 ∧ MAXORDINAL - 7 * interval < toordinal before.
Proof.
  intros Hpos (k & Hk & Hle & Hnext). cbv zeta in Hnext.
  apply toordinal_le in Hle.
  replace (k * timedelta_weeks interval) with (timedelta_weeks (k * interval))
    in Hle by (unfold timedelta_weeks; lia).
  rewrite toordinal_add_weeks in Hle.
  unfold weekday in *. unfold MAXORDINAL in *.
  pose proof (Z.div_mod (toordinal t0 + 6) 7 ltac:(lia)).
  pose proof (Z.mod_pos_bound (toordinal t0 + 6) 7 ltac:(lia)).
  nia.
Qed.

(** With enough iterations to reach [before], the progression is the
    instants [dtstart + k] steps, [k = 0, 1, ...], of the closed window. *)
Lemma progression_window_elem (dtstart : datetime) (step : timedelta)
    (after before x : datetime) :
  0 < step →
  x ∈ progression (Rrule.iterations dtstart step before) step dtstart
        after before
  ↔ ∃ k, 0 ≤ k ∧ x = dtstart + k * step ∧ after ≤ x ≤ before.
Proof.
  intros Hpos. rewrite progression_elem by assumption. split.
  - intros (k & _ & -> & Hx). exists (Z.of_nat k). split; [lia | auto].
  - intros (k & Hk & -> & Hx). exists (Z.to_nat k).
    rewrite Z2Nat.id by assumption. split; [| auto].
    unfold Rrule.iterations.
    assert (k ≤ (before - dtstart) / step)
      by (apply Z.div_le_lower_bound; lia).
    lia.
Qed.

Lemma weeks_div (N : Z) :
  timedelta_weeks N / timedelta_weeks 2 = N / 2.
Proof.
  unfold timedelta_weeks.
  rewrite <- !Z.mul_assoc. apply Z.div_mul_cancel_r; [lia |].
  rewrite us_per_day_eq. lia.
Qed.

(** How many instants a rule of every second week has in a window. *)
Lemma progression_biweekly_length (dtstart after before : datetime) :
  after ≤ before →
  let l := progression
             (Rrule.iterations dtstart (timedelta_weeks 2) before)
             (timedelta_weeks 2) dtstart after before in
  Z.of_nat (length l) ≤ (before - after) / timedelta_weeks 2 + 1
  ∧ (dtstart < after + timedelta_weeks 2 →
     (before - after + 1) / timedelta_weeks 2 ≤ Z.of_nat (length l)).
Proof.
  intros Hwin l.
  assert (Hstep : 0 < timedelta_weeks 2) by (apply timedelta_weeks_pos; lia).
  split.
  - apply progression_length_upper; assumption.
  - intros Hstart. apply progression_length_lower; [assumption.. |].
    unfold Rrule.iterations.
    destruct (Z.le_gt_cases 0 ((before - dtstart) / timedelta_weeks 2 + 1));
      lia.
Qed.

End Expansion.

(** C6: for a constructed Schedule whose first occurrence is [t0], and a
    window that ends at a representable instant, the expansion either runs
    into year 10000 (a Saturday or Sunday schedule, with a window that ends
    in the last weeks of year 9999) and raises ValueError, or is exactly the
    instants [t0 + k * (7 * freq_interval)] days, [k = 0, 1, ...], of the
    closed window, each once and in chronological order.  In the second case
    a biweekly schedule has at most [D / 14 days + 1] of them in a window of
    length [D], and at least [(D + 1 microsecond) / 14 days] when its first
    occurrence is less than two weeks after the window start; in the window
    of 365 days that the detector uses this is 26 or 27, and in all cases at
    most 27. *)
Theorem occurrences_spec now m y s ws we t0 :
  Schedule_init now m y = Ok s →
  Schedule_next_occurrence s = Ok t0 →
  in_range we = true →
  (overruns t0 (freq_interval s) we
   ∧ occurrences s ws we = Raise (ValueError "year 10000 is out of range")
   ∧ 5 ≤ weekday t0
   ∧ MAXORDINAL - 7 * freq_interval s < toordinal we)
  ∨ (¬ overruns t0 (freq_interval s) we
     ∧ ∃ l, occurrences s ws we = Ok l
       ∧ (∀ x, x ∈ l ↔
               ∃ k, 0 ≤ k ∧ x = t0 + k * timedelta_days (7 * freq_interval s)
                    ∧ ws ≤ x ≤ we)
       ∧ StronglySorted Z.lt l
       ∧ (freq_interval s = 2 → ws ≤ we →
          Z.of_nat (length l) ≤ (we - ws) / timedelta_weeks 2 + 1
          ∧ (t0 < ws + timedelta_weeks 2 →
             (we - ws + 1) / timedelta_weeks 2 ≤ Z.of_nat (length l))
          ∧ (we = ws + timedelta_days 365 →
             Z.of_nat (length l) ≤ 27
             ∧ (t0 < ws + timedelta_weeks 2 → 26 ≤ Z.of_nat (length l)))
          ∧ (∀ N, 0 ≤ N → we = ws + timedelta_weeks N →
               Z.of_nat (length l) ≤ N / 2 + 1
               ∧ (t0 < ws + timedelta_weeks 2 → N / 2 ≤ Z.of_nat (length l))
               ∧ (3 ≤ N → Z.of_nat (length l) < N)))).
Proof.
  intros Hinit Hnext Hwe. apply Schedule_init_Ok in Hinit as C.
  assert (Hpos : 0 < freq_interval s)
    by (destruct (constructed_freq _ _ _ _ C) as [[_ ->] | [_ ->]]; lia).
  assert (Hocc : occurrences s ws we
                 = Rrule.between t0 (freq_interval s) ws we).
  { unfold occurrences. rewrite Hnext. reflexivity. }
  rewrite Hocc.
  destruct (between_cases t0 (freq_interval s) ws we Hpos Hwe)
    as [[Hover ->] | [Hsafe ->]].
  { left. split; [exact Hover |]. split; [reflexivity |].
    apply (overruns_weekend _ _ _ Hpos Hover). }
  right. split; [exact Hsafe |]. eexists. split; [reflexivity |].
  split; [| split].
  - intros x.
    rewrite progression_window_elem by (apply timedelta_weeks_pos, Hpos).
    replace (timedelta_days (7 * freq_interval s))
      with (timedelta_weeks (freq_interval s))
      by (unfold timedelta_days, timedelta_weeks; lia).
    reflexivity.
  - apply progression_sorted, timedelta_weeks_pos, Hpos.
  - intros -> Hwin.
    destruct (progression_biweekly_length t0 ws we Hwin) as [Hup Hlow].
    split; [exact Hup |]. split; [exact Hlow |]. split.
    + intros ->.
      replace (ws + timedelta_days 365 - ws) with (timedelta_days 365)
        in Hup, Hlow by lia.
      change (timedelta_days 365 / timedelta_weeks 2) with 26 in Hup.
      change ((timedelta_days 365 + 1) / timedelta_weeks 2) with 26 in Hlow.
      split; [lia | exact Hlow].
    + intros N HN ->.
      replace (ws + timedelta_weeks N - ws) with (timedelta_weeks N)
        in Hup, Hlow by lia.
      rewrite weeks_div in Hup.
      assert (Hmono : N / 2 ≤ (timedelta_weeks N + 1) / timedelta_weeks 2).
      { rewrite <- weeks_div. apply Z.div_le_mono; [| lia].
        apply timedelta_weeks_pos. lia. }
      split; [exact Hup |]. split; [intros Hstart; specialize (Hlow Hstart); lia |].
      intros HN3. pose proof (Z.div_mod N 2). pose proof (Z.mod_pos_bound N 2).
      lia.
Qed.

Lemma occurrences_spec_witness :
  Schedule_init example_now (example_meeting "beta") monday_0000_yaml
  = Ok monday_0000
  ∧ Schedule_next_occurrence monday_0000 = Ok (at_hm (ymd2ord 2015 1 5) 0 0)
  ∧ in_range example_end = true
  ∧ ∃ l, occurrences monday_0000 example_now example_end = Ok l
      ∧ (at_hm (ymd2ord 2015 1 19) 0 0 ∈ l
         ↔ ∃ k, 0 ≤ k
                ∧ at_hm (ymd2ord 2015 1 19) 0 0
                  = at_hm (ymd2ord 2015 1 5) 0 0
                    + k * timedelta_days (7 * freq_interval monday_0000)
                ∧ example_now ≤ at_hm (ymd2ord 2015 1 19) 0 0 ≤ example_end)
      ∧ 26 ≤ Z.of_nat (length l) ≤ 27.
Proof.
  assert (Hinit : Schedule_init example_now (example_meeting "beta")
                    monday_0000_yaml = Ok monday_0000)
    by (vm_compute; reflexivity).
  assert (Hnext : Schedule_next_occurrence monday_0000
                  = Ok (at_hm (ymd2ord 2015 1 5) 0 0))
    by (vm_compute; reflexivity).
  assert (Hend : in_range example_end = true) by (vm_compute; reflexivity).
  split; [exact Hinit |]. split; [exact Hnext |]. split; [exact Hend |].
  destruct (occurrences_spec example_now (example_meeting "beta")
              monday_0000_yaml monday_0000 example_now example_end _
              Hinit Hnext Hend)
    as [(_ & _ & Hweekend & _) | (_ & l & Hl & Helem & _ & Hcount)].
  { exfalso. revert Hweekend. vm_compute. intros H. apply H. reflexivity. }
  exists l. split; [exact Hl |]. split; [apply Helem |].
  destruct (Hcount eq_refl) as (_ & _ & Hyear & _);
    [vm_compute; discriminate |].
  destruct (Hyear eq_refl) as [Hup Hlow].
  split; [apply Hlow; vm_compute; reflexivity | exact Hup].
Defined.

(** The claim of C6 as the specification words it fails in two ways, both in
    the window of 365 days that the detector uses.  A biweekly schedule whose
    [start_date] lies seven months after the window start has eleven
    occurrences in it, which is not within one of the half of 52 or of 53
    weeks.  And for a schedule of Saturdays, when the window ends on
    9999-12-31, the expansion yields no instants: it raises ValueError.
    (Besides, a window of one week that starts at the first occurrence has
    one occurrence, as many as it has weeks.) *)
Lemma biweekly_count_counterexample :
  (Schedule_init example_now (example_meeting "beta") late_start_yaml
   = Ok late_start
   ∧ freq_interval late_start = 2
   ∧ ∃ l, occurrences late_start example_now
            (example_now + timedelta_days 365) = Ok l
          ∧ length l = 11%nat
          ∧ ¬ count_as_specified (Z.of_nat (length l)) 52
          ∧ ¬ count_as_specified (Z.of_nat (length l)) 53)
  ∧ (Schedule_init last_year_now (example_meeting "alpha") saturday_yaml
     = Ok last_saturdays
     ∧ in_range (last_year_now + timedelta_days 365) = true
     ∧ (∃ t0, Schedule_next_occurrence last_saturdays = Ok t0)
     ∧ ¬ ∃ l, occurrences last_saturdays last_year_now
                (last_year_now + timedelta_days 365) = Ok l)
  ∧ (Schedule_init example_now (example_meeting "beta") monday_0000_yaml
     = Ok monday_0000
     ∧ freq_interval monday_0000 = 2
     ∧ ∃ l, occurrences monday_0000 (at_hm (ymd2ord 2015 1 5) 0 0)
              (at_hm (ymd2ord 2015 1 5) 0 0 + timedelta_weeks 1) = Ok l
            ∧ ¬ count_as_specified (Z.of_nat (length l)) 1).
Proof.
  split; [| split].
  - split; [vm_compute; reflexivity |]. split; [reflexivity |].
    assert (H : ∃ l, occurrences late_start example_now
                       (example_now + timedelta_days 365) = Ok l
                     ∧ length l = 11%nat).
    { destruct (occurrences late_start example_now
                  (example_now + timedelta_days 365)) as [l | e] eqn:Hl;
        vm_compute in Hl; [| discriminate Hl].
      exists l. split; [reflexivity |].
      injection Hl as <-. reflexivity. }
    destruct H as (l & Hl & Hlen). exists l. split; [exact Hl |].
    split; [exact Hlen |]. rewrite Hlen. unfold count_as_specified.
    split; intros [H _]; revert H; vm_compute; intros H; apply H; reflexivity.
  - split; [vm_compute; reflexivity |]. split; [vm_compute; reflexivity |].
    split; [eexists; vm_compute; reflexivity |].
    intros [l Hl]. vm_compute in Hl. discriminate Hl.
  - split; [vm_compute; reflexivity |]. split; [reflexivity |].
    eexists. split; [vm_compute; reflexivity |].
    unfold count_as_specified. simpl length. intros [_ H]. apply H.
    reflexivity.
Qed.

(** ** The pairwise scan *)

Section Scan.

Implicit Types (a b : MeetingInstance) (l : list MeetingInstance).

Lemma conflict_with_None a l :
  conflict_with a l = None ↔ ∀ j b, l !! j = Some b → overlaps a b = false.
Proof.
  induction l as [| b0 l IH]; simpl.
  - split; [intros _ j b; rewrite lookup_nil; discriminate | reflexivity].
  - destruct (overlaps a b0) eqn:Hov; split.
    + discriminate.
    + intros H. specialize (H 0%nat b0 eq_refl). congruence.
    + intros Hnone [| j] b Hb; [injection Hb as <-; exact Hov |].
      exact (proj1 IH Hnone j b Hb).
    + intros H. apply (proj2 IH). intros j b Hb. exact (H (S j) b Hb).
Qed.

Lemma conflict_with_Some a l b :
  conflict_with a l = Some b →
  ∃ j, l !! j = Some b ∧ overlaps a b = true
       ∧ ∀ j' b', l !! j' = Some b' → overlaps a b' = true → (j ≤ j')%nat.
Proof.
  induction l as [| b0 l IH]; simpl; [discriminate |].
  destruct (overlaps a b0) eqn:Hov.
  - intros [= <-]. exists 0%nat. repeat split; auto. intros; lia.
  - intros H. destruct (IH H) as (j & Hj & Hb & Hmin).
    exists (S j). repeat split; auto.
    intros [| j'] b' Hb' Hov'; [injection Hb' as <-; congruence |].
    specialize (Hmin j' b' Hb' Hov'). lia.
Qed.

Lemma conflict_at_cons a l (i j : nat) :
  conflict_at (a :: l) i j ↔
  match i, j with
  | O, S j' => ∃ b, l !! j' = Some b ∧ overlaps a b = true
  | S i', S j' => conflict_at l i' j'
  | _, O => False
  end.
Proof.
  unfold conflict_at. destruct i as [| i'], j as [| j']; simpl.
  - split; [lia | intros []].
  - split.
    + intros (_ & a' & b & [= <-] & Hb & Hov). eauto.
    + intros (b & Hb & Hov). split; [lia |]. eauto.
  - split; [lia | intros []].
  - split; intros (Hlt & H); (split; [lia | exact H]).
Qed.

Lemma channel_conflict_None l :
  channel_conflict l = None ↔ conflict_free l.
Proof.
  unfold conflict_free. induction l as [| a l IH]; simpl.
  - split; [| reflexivity].
    intros _ i j (_ & a & b & Ha & _). rewrite lookup_nil in Ha.
    discriminate.
  - destruct (conflict_with a l) as [b |] eqn:Hwith.
    + split; [discriminate |]. intros Hfree. exfalso.
      apply conflict_with_Some in Hwith as (j & Hj & Hov & _).
      apply (Hfree 0%nat (S j)). apply conflict_at_cons. eauto.
    + rewrite IH. split.
      * intros Hfree i j Hat. apply conflict_at_cons in Hat.
        destruct i as [| i'], j as [| j']; try contradiction.
        -- destruct Hat as (b & Hb & Hov).
           rewrite (proj1 (conflict_with_None a l) Hwith _ _ Hb) in Hov.
           discriminate.
        -- exact (Hfree _ _ Hat).
      * intros Hfree i j Hat. apply (Hfree (S i) (S j)).
        apply conflict_at_cons. exact Hat.
Qed.

(** The pair a channel scan stops at is the first in the order of the two
    nested loops. *)
Lemma channel_conflict_Some l a b :
  channel_conflict l = Some (a, b) →
  ∃ i j, (i < j)%nat ∧ l !! i = Some a ∧ l !! j = Some b
         ∧ overlaps a b = true
         ∧ ∀ i' j', conflict_at l i' j' →
                    (i < i')%nat ∨ (i = i' ∧ (j ≤ j')%nat).
Proof.
  revert a b. induction l as [| a0 l IH]; intros a b; simpl;
    [discriminate |].
  destruct (conflict_with a0 l) as [b0 |] eqn:Hwith.
  - intros [= <- <-].
    apply conflict_with_Some in Hwith as (j & Hj & Hov & Hmin).
    exists 0%nat, (S j). repeat split; auto; [lia |].
    intros i' j' Hat. apply conflict_at_cons in Hat.
    destruct i' as [| i'], j' as [| j']; try contradiction; [| left; lia].
    right. destruct Hat as (b' & Hb' & Hov').
    specialize (Hmin _ _ Hb' Hov'). lia.
  - intros H. destruct (IH _ _ H) as (i & j & Hlt & Hi & Hj & Hov & Hmin).
    exists (S i), (S j). repeat split; auto; [lia |].
    intros i' j' Hat. apply conflict_at_cons in Hat.
    destruct i' as [| i'], j' as [| j']; try contradiction.
    + destruct Hat as (b' & Hb' & Hov').
      rewrite (proj1 (conflict_with_None a0 l) Hwith _ _ Hb') in Hov'.
      discriminate.
    + destruct (Hmin _ _ Hat) as [? | [-> ?]]; [left | right]; lia.
Qed.

Lemma first_conflict_None (all : instances) :
  first_conflict all = None ↔ ∀ c l, (c, l) ∈ all → conflict_free l.
Proof.
  induction all as [| [c0 l0] all IH]; simpl.
  - split; [intros _ c l H; apply elem_of_nil in H as [] | reflexivity].
  - destruct (channel_conflict l0) as [p |] eqn:Hl0.
    + split; [discriminate |]. intros H.
      assert (Hfree : conflict_free l0) by (apply (H c0); left).
      apply channel_conflict_None in Hfree. congruence.
    + apply channel_conflict_None in Hl0. rewrite IH. split.
      * intros H c l Hin. apply elem_of_cons in Hin as [[= -> ->] | Hin];
          eauto.
      * intros H c l Hin. apply (H c). right. exact Hin.
Qed.

(** The pair the detector stops at: in the first channel, in insertion
    order, that has a conflict, the first pair of that channel. *)
Lemma first_conflict_Some (all : instances) a b :
  first_conflict all = Some (a, b) →
  ∃ (n : nat) c l i j,
    all !! n = Some (c, l)
    ∧ (i < j)%nat ∧ l !! i = Some a ∧ l !! j = Some b
    ∧ overlaps a b = true
    ∧ (∀ n' c' l', (n' < n)%nat → all !! n' = Some (c', l') →
                   conflict_free l')
    ∧ (∀ i' j', conflict_at l i' j' →
                (i < i')%nat ∨ (i = i' ∧ (j ≤ j')%nat)).
Proof.
  induction all as [| [c0 l0] all IH]; simpl; [discriminate |].
  destruct (channel_conflict l0) as [p |] eqn:Hl0.
  - intros [= ->].
    apply channel_conflict_Some in Hl0
      as (i & j & Hlt & Hi & Hj & Hov & Hmin).
    exists 0%nat, c0, l0, i, j. repeat split; auto. intros; lia.
  - intros H.
    destruct (IH H) as (n & c & l & i & j & Hn & Hlt & Hi & Hj & Hov
                        & Hbefore & Hmin).
    exists (S n), c, l, i, j. repeat split; auto.
    intros [| n'] c' l' Hlt' Hn'.
    + injection Hn' as <- <-. apply channel_conflict_None, Hl0.
    + apply (Hbefore n' c'); [lia | exact Hn'].
Qed.

End Scan.

(** ** Invariants of the expansion loops *)

Section Invariant.

(** [Q] is a property of [allinstances] that every [append] of an instance
    satisfying [R] preserves. *)
Variables (Q : instances → Prop) (R : yaml → MeetingInstance → Prop).
Hypothesis append_preserves :
  ∀ all c x, Q all → R c x → Q (append_instance all c x).

Lemma add_occurrences_inv project s occs all all' :
  (∀ o x, o ∈ occs →
          MeetingInstance_init project o (duration s) = Ok x →
          R (irc s) x) →
  Q all → add_occurrences project s occs all = Ok all' → Q all'.
Proof.
  revert all. induction occs as [| o occs IH]; intros all HR HQ; simpl.
  - intros [= <-]. exact HQ.
  - intros H. apply bind_Ok in H as (x & Hx & H).
    eapply IH; [| | exact H].
    + intros o' x' Ho'. apply HR. right. exact Ho'.
    + apply append_preserves; [exact HQ |]. apply (HR o); [left | exact Hx].
Qed.

Lemma add_schedules_inv start end_ project schedules all all' :
  (∀ s occs o x, s ∈ schedules → occurrences s start end_ = Ok occs →
                 o ∈ occs →
                 MeetingInstance_init project o (duration s) = Ok x →
                 R (irc s) x) →
  Q all → add_schedules start end_ project schedules all = Ok all' →
  Q all'.
Proof.
  revert all. induction schedules as [| s schedules IH]; intros all HR HQ;
    simpl.
  - intros [= <-]. exact HQ.
  - intros H. apply bind_Ok in H as (occs & Hoccs & H).
    apply bind_Ok in H as (all1 & Hall1 & H).
    eapply IH; [| | exact H].
    + intros s' occs' o x Hs'. apply HR. right. exact Hs'.
    + eapply add_occurrences_inv; [| exact HQ | exact Hall1].
      intros o x Ho. apply (HR s occs); [left | exact Hoccs | exact Ho].
Qed.

Lemma add_meetings_inv start end_ meetings all all' :
  (∀ m s occs o x, m ∈ meetings → s ∈ m_schedules m →
                   occurrences s start end_ = Ok occs → o ∈ occs →
                   MeetingInstance_init (m_project m) o (duration s) = Ok x →
                   R (irc s) x) →
  Q all → add_meetings start end_ meetings all = Ok all' → Q all'.
Proof.
  revert all. induction meetings as [| m meetings IH]; intros all HR HQ;
    simpl.
  - intros [= <-]. exact HQ.
  - intros H. apply bind_Ok in H as (all1 & Hall1 & H).
    eapply IH; [| | exact H].
    + intros m' s occs o x Hm'. apply HR. right. exact Hm'.
    + eapply add_schedules_inv; [| exact HQ | exact Hall1].
      intros s occs o x Hs. apply (HR m); [left | exact Hs].
Qed.

End Invariant.

Section Instances.

Lemma append_instance_elem (all : instances) c x c' l' x' :
  (c', l') ∈ append_instance all c x → x' ∈ l' →
  (c' = c ∧ x' = x) ∨ ∃ l0, (c', l0) ∈ all ∧ x' ∈ l0.
Proof.
  induction all as [| [c0 l0] all IH]; simpl.
  - intros Hin Hx. apply list_elem_of_singleton in Hin as [= -> ->].
    apply list_elem_of_singleton in Hx as ->. auto.
  - destruct (decide (c0 = c)) as [-> | Hne]; intros Hin Hx.
    + apply elem_of_cons in Hin as [[= -> ->] | Hin].
      * apply elem_of_app in Hx as [Hx | Hx].
        -- right. exists l0. split; [left | exact Hx].
        -- apply list_elem_of_singleton in Hx as ->. auto.
      * right. exists l'. split; [right; exact Hin | exact Hx].
    + apply elem_of_cons in Hin as [[= -> ->] | Hin].
      * right. exists l0. split; [left | exact Hx].
      * destruct (IH Hin Hx) as [? | (l1 & Hl1 & Hx1)]; [auto |].
        right. exists l1. split; [right; exact Hl1 | exact Hx1].
Qed.

Lemma append_instance_keys (all : instances) c x :
  (append_instance all c x).*1
  = if decide (c ∈ all.*1) then all.*1 else (all.*1 ++ [c])%list.
Proof.
  induction all as [| [c0 l0] all IH].
  - reflexivity.
  - cbn [append_instance].
    destruct (decide (c0 = c)) as [-> | Hne]; rewrite !fmap_cons; cbn [fst].
    + clear IH. case_decide as Hnotin; [done |]. exfalso. apply Hnotin. left.
    + rewrite IH. clear IH.
      case_decide as Hin; case_decide as Hin'; try done.
      * exfalso. apply Hin'. right. exact Hin.
      * apply elem_of_cons in Hin' as [-> | Hin']; done.
Qed.

(** A channel has one list: the keys of [allinstances] are distinct. *)
Lemma append_instance_NoDup (all : instances) c x :
  NoDup all.*1 → NoDup (append_instance all c x).*1.
Proof.
  intros Hnd. rewrite append_instance_keys.
  destruct (decide (c ∈ all.*1)) as [| Hnotin]; [exact Hnd |].
  apply NoDup_app. split; [exact Hnd |]. split.
  - intros c' Hin Hc'. apply list_elem_of_singleton in Hc' as ->. done.
  - apply NoDup_singleton.
Qed.

Lemma every_append P (all : instances) c x :
  every P all → P c x → every P (append_instance all c x).
Proof.
  intros Hall HP c' l' x' Hin Hx'.
  destruct (append_instance_elem _ _ _ _ _ _ Hin Hx')
    as [[-> ->] | (l0 & Hl0 & Hx0)]; [exact HP |].
  exact (Hall _ _ _ Hl0 Hx0).
Qed.

Lemma MeetingInstance_init_Ok project start d x :
  MeetingInstance_init project start d = Ok x →
  i_project x = project ∧ i_start x = start
  ∧ i_end x = start + timedelta_minutes d.
Proof.
  unfold MeetingInstance_init. intros H.
  apply bind_Ok in H as (e & He & [= <-]).
  apply add_Ok in He as [-> _]. auto.
Qed.

End Instances.

(** C10: every instance that the expansion records under a channel is an
    instance of a schedule of one of the meetings on that channel; it
    carries that meeting's project and ends [duration] minutes after its
    start, so the instances of one schedule all have the same length. *)
Theorem instances_invariant start end_ meetings all :
  add_meetings start end_ meetings [] = Ok all →
  (∀ c l x, (c, l) ∈ all → x ∈ l →
     ∃ m s, m ∈ meetings ∧ s ∈ m_schedules m ∧ c = irc s
            ∧ instance_of start end_ m s x)
  ∧ (∀ m s x, instance_of start end_ m s x →
       i_project x = m_project m
       ∧ i_end x = i_start x + timedelta_minutes (duration s))
  ∧ (∀ m s x x', instance_of start end_ m s x →
       instance_of start end_ m s x' →
       i_end x - i_start x = i_end x' - i_start x').
Proof.
  intros Hall.
  assert (Hfields : ∀ m s x, instance_of start end_ m s x →
            i_project x = m_project m
            ∧ i_end x = i_start x + timedelta_minutes (duration s)).
  { intros m s x [_ Hx]. apply MeetingInstance_init_Ok in Hx. tauto. }
  split; [| split; [exact Hfields |]].
  - change (every (λ c x, ∃ m s, m ∈ meetings ∧ s ∈ m_schedules m
                                 ∧ c = irc s ∧ instance_of start end_ m s x)
              all).
    eapply (add_meetings_inv _ _ (every_append _)); [| | exact Hall].
    + intros m s occs o x Hm Hs Hoccs Ho Hx. exists m, s.
      pose proof (MeetingInstance_init_Ok _ _ _ _ Hx) as (_ & Hstart & _).
      repeat split; auto.
      * exists occs. rewrite Hstart. auto.
      * rewrite Hstart. exact Hx.
    + intros c l x Hin. apply elem_of_nil in Hin as [].
  - intros m s x x' Hx Hx'.
    apply Hfields in Hx as [_ Hx], Hx' as [_ Hx']. lia.
Qed.

(** ** The conflict check *)

(** C1: once the instances of the coming year are expanded,
    [check_for_meeting_conflicts] raises MeetingConflictError exactly when
    two instances in the list of one channel overlap under the half-open
    rule, and otherwise returns; instances that touch at an endpoint do not
    overlap; and the pair named in the error is the first found, scanning the
    channels in insertion order and the pairs of a channel in the order of
    the nested loops. *)
Theorem check_for_meeting_conflicts_spec now meetings end_ all :
  add now (timedelta_days 365) = Ok end_ →
  add_meetings now end_ meetings [] = Ok all →
  NoDup all.*1
  ∧ ((∃ msg, check_for_meeting_conflicts now meetings
             = Raise (MeetingConflictError msg))
     ↔ ∃ c l (i j : nat) a b,
         (c, l) ∈ all ∧ i ≠ j ∧ l !! i = Some a ∧ l !! j = Some b
         ∧ i_start a < i_end b ∧ i_start b < i_end a)
  ∧ (check_for_meeting_conflicts now meetings = Ok tt
     ∨ ∃ msg, check_for_meeting_conflicts now meetings
              = Raise (MeetingConflictError msg))
  ∧ (∀ a b, i_end a = i_start b →
            overlaps a b = false ∧ overlaps b a = false)
  ∧ (∀ msg, check_for_meeting_conflicts now meetings
            = Raise (MeetingConflictError msg) →
       ∃ (n : nat) c l i j a b,
         all !! n = Some (c, l)
         ∧ (i < j)%nat ∧ l !! i = Some a ∧ l !! j = Some b
         ∧ overlaps a b = true
         ∧ msg = conflict_message a b
         ∧ (∀ n' c' l', (n' < n)%nat → all !! n' = Some (c', l') →
                        conflict_free l')
         ∧ (∀ i' j', conflict_at l i' j' →
                     (i < i')%nat ∨ (i = i' ∧ (j ≤ j')%nat))).
Proof.
  intros Hend Hall.
  assert (Hcheck : check_for_meeting_conflicts now meetings
            = match first_conflict all with
              | Some (a, b) =>
                  Raise (MeetingConflictError (conflict_message a b))
              | None => Ok tt
              end).
  { unfold check_for_meeting_conflicts. rewrite Hend. simpl.
    rewrite Hall. reflexivity. }
  rewrite Hcheck. clear Hcheck.
  split; [| split; [| split; [| split]]].
  - eapply (add_meetings_inv (λ all, NoDup all.*1) (λ _ _, True));
      [| | | exact Hall].
    + intros all0 c x Hnd _. apply append_instance_NoDup, Hnd.
    + auto.
    + apply NoDup_nil_2.
  - destruct (first_conflict all) as [[a b] |] eqn:Hfirst; split.
    + intros _. apply first_conflict_Some in Hfirst
        as (n & c & l & i & j & Hn & Hlt & Hi & Hj & Hov & _).
      apply overlaps_iff in Hov. exists c, l, i, j, a, b.
      split; [eapply list_elem_of_lookup_2, Hn |].
      split; [lia |]. tauto.
    + eauto.
    + intros [msg [=]].
    + intros (c & l & i & j & a & b & Hin & Hne & Hi & Hj & Hov).
      exfalso.
      pose proof (proj1 (first_conflict_None all) Hfirst c l Hin) as Hfree.
      destruct (Nat.lt_total i j) as [Hlt | [-> | Hgt]]; [| done |].
      * apply (Hfree i j). split; [exact Hlt |]. exists a, b.
        rewrite overlaps_iff. tauto.
      * apply (Hfree j i). split; [exact Hgt |]. exists b, a.
        rewrite overlaps_iff. tauto.
  - destruct (first_conflict all) as [[a b] |]; eauto.
  - intros a b Htouch. unfold overlaps.
    rewrite !andb_false_iff, !Z.ltb_ge, !Z.gtb_ltb, !Z.ltb_ge. lia.
  - intros msg. destruct (first_conflict all) as [[a b] |] eqn:Hfirst;
      [| discriminate].
    intros [= <-]. apply first_conflict_Some in Hfirst
      as (n & c & l & i & j & Hn & Hlt & Hi & Hj & Hov & Hbefore & Hmin).
    exists n, c, l, i, j, a, b. repeat split; auto.
Qed.

Lemma check_for_meeting_conflicts_spec_witness :
  add example_now (timedelta_days 365) = Ok example_end
  ∧ add_meetings example_now example_end overlapping_meetings []
    = Ok overlapping_instances
  ∧ check_for_meeting_conflicts example_now overlapping_meetings
    = Raise (MeetingConflictError "Conflict: alpha and beta")
  ∧ ∃ c l (i j : nat) a b,
      (c, l) ∈ overlapping_instances ∧ i ≠ j
      ∧ l !! i = Some a ∧ l !! j = Some b
      ∧ i_start a < i_end b ∧ i_start b < i_end a.
Proof.
  assert (Hend : add example_now (timedelta_days 365) = Ok example_end)
    by (vm_compute; reflexivity).
  assert (Hall : add_meetings example_now example_end overlapping_meetings []
                 = Ok overlapping_instances)
    by (vm_compute; reflexivity).
  assert (Hcheck : check_for_meeting_conflicts example_now
                     overlapping_meetings
                   = Raise (MeetingConflictError "Conflict: alpha and beta"))
    by (vm_compute; reflexivity).
  split; [exact Hend |]. split; [exact Hall |]. split; [exact Hcheck |].
  destruct (check_for_meeting_conflicts_spec example_now overlapping_meetings
              example_end overlapping_instances Hend Hall)
    as (_ & Hiff & _).
  apply Hiff. eexists. exact Hcheck.
Defined.

(** The scenarios of the specification: the same slots on different
    channels, and back-to-back slots on one channel, pass the check. *)
Example check_other_channel :
  check_for_meeting_conflicts example_now
    [meeting_with "alpha" monday_1000; meeting_with "beta" monday_1015_other]
  = Ok tt.
Proof. vm_compute. reflexivity. Qed.

Example check_back_to_back :
  check_for_meeting_conflicts example_now
    [meeting_with "alpha" monday_1000; meeting_with "beta" monday_1030]
  = Ok tt.
Proof. vm_compute. reflexivity. Qed.

Lemma instances_invariant_witness :
  add_meetings example_now example_end overlapping_meetings []
  = Ok overlapping_instances
  ∧ ∀ c l x, (c, l) ∈ overlapping_instances → x ∈ l →
      ∃ m s, m ∈ overlapping_meetings ∧ s ∈ m_schedules m ∧ c = irc s
             ∧ instance_of example_now example_end m s x.
Proof.
  assert (Hall : add_meetings example_now example_end overlapping_meetings []
                 = Ok overlapping_instances)
    by (vm_compute; reflexivity).
  split; [exact Hall |].
  exact (proj1 (instances_invariant example_now example_end
                  overlapping_meetings overlapping_instances Hall)).
Defined.

(** ** When construction fails *)

Section Validation.

Lemma lower_char_idem (c : ascii) : lower_char (lower_char c) = lower_char c.
Proof. destruct c as [[] [] [] [] [] [] [] []]; reflexivity. Qed.

Lemma lower_upper_char (c : ascii) :
  lower_char (upper_char c) = lower_char c.
Proof. destruct c as [[] [] [] [] [] [] [] []]; reflexivity. Qed.

Lemma lower_idem (s : string) : lower (lower s) = lower s.
Proof.
  induction s as [| c s IH]; simpl; [reflexivity |].
  rewrite lower_char_idem, IH. reflexivity.
Qed.

Lemma lower_capitalize (s : string) : lower (capitalize s) = lower s.
Proof.
  destruct s as [| c s]; simpl; [reflexivity |].
  rewrite lower_upper_char, lower_idem. reflexivity.
Qed.

Lemma sanitized_day_known (s : string) :
  is_Some (DATES !! capitalize (lower s)) ↔ recognised_day (YStr s).
Proof.
  rewrite DATES_names. unfold recognised_day. split.
  - intros Hin. exists s, (capitalize (lower s)).
    rewrite lower_capitalize, lower_idem. auto.
  - intros (s' & n & [= <-] & Hn & Hs). rewrite Hs.
    unfold weekday_names in Hn.
    repeat (apply elem_of_cons in Hn as [-> | Hn];
            [vm_compute; repeat constructor |]).
    apply elem_of_nil in Hn as [].
Qed.

Lemma init_duration_Ok f y d : init_duration f y = Ok d ↔ duration_of y d.
Proof.
  unfold init_duration, duration_of.
  destruct (y !! "duration") as [v |]; [| split; congruence].
  destruct (int v) as [n | e]; [split; congruence |].
  destruct e; split; discriminate.
Qed.

Lemma sunday_start_in_range (tod : Z) :
  0 ≤ tod < US_PER_DAY →
  in_range (combine (ymd2ord 1900 1 7) tod - ONE_WEEK) = true.
Proof.
  intros Htod. apply in_range_iff.
  change (ymd2ord 1900 1 7) with 693602.
  unfold combine, ONE_WEEK, timedelta_weeks, MINORDINAL, MAXORDINAL.
  rewrite us_per_day_eq in *. lia.
Qed.

Lemma constructed_not_fails now m y s :
  constructed now m y s → ¬ construction_fails y.
Proof.
  intros C Hfail.
  destruct C as [_ _ Hutc Htime (ds & Hday & Hds) Hirc Hfreq Hint Hsd Hdur
                   (date & Hdate & Hrange & Hshift)].
  destruct Hfail as [k Hk Hnone | v Hv Hbad | v Hv Hbad | v Hv Hw Hb
                     | v Hv Hbad | v Hv Hbad
                     | ts t ds' date' d Hts Ht Hds' Hdate' Hd Hout].
  - repeat (apply elem_of_cons in Hk as [-> | Hk]; [congruence |]).
    apply elem_of_nil in Hk as [].
  - rewrite Hutc in Hv. injection Hv as <-. rewrite Htime in Hbad.
    discriminate.
  - rewrite Hday in Hv. injection Hv as <-. apply Hbad.
    apply sanitized_day_known. rewrite <- Hds. eauto.
  - rewrite Hfreq in Hv. injection Hv as <-.
    apply supported_frequencies_Ok in Hint as [[? _] | [? _]]; congruence.
  - unfold init_start_date in Hsd. rewrite Hv in Hsd.
    destruct (strptime_Ymd (str v)) as [? | e]; [discriminate |].
    destruct e; discriminate.
  - apply init_duration_Ok in Hdur. unfold duration_of in Hdur.
    rewrite Hv in Hdur. rewrite Hdur in Hbad. discriminate.
  - rewrite Hutc in Hts. injection Hts as Hutc'.
    rewrite Hutc' in Htime. simpl in Htime.
    rewrite Ht in Htime. injection Htime as ->.
    rewrite Hday in Hds'. injection Hds' as <-.
    rewrite <- Hds in Hdate'. rewrite Hdate in Hdate'.
    injection Hdate' as <-.
    apply init_duration_Ok in Hdur.
    assert (d = duration s) as ->.
    { unfold duration_of in *. destruct (y !! "duration"); congruence. }
    simpl in Hout, Hrange, Hshift.
    destruct Hout as [Hout | (Hsun & Hmon & Hout)]; [congruence |].
    rewrite <- Hds in Hsun.
    rewrite (bool_decide_eq_true_2 _ Hsun) in Hshift.
    rewrite (bool_decide_eq_true_2 _ (proj2 (strftime_a_Mon _) Hmon))
      in Hshift.
    simpl in Hshift. destruct Hshift as (_ & _ & _ & Hin). congruence.
Qed.

Lemma init_or_fails now m y :
  construction_fails y ∨ is_ok (Schedule_init now m y) = true.
Proof.
  unfold Schedule_init.
  destruct (y !! "time") as [tv |] eqn:Htv;
    [| left; apply (fails_absent y "time"); [set_solver | exact Htv]].
  rewrite (proj2 (getitem_Ok _ _ _) Htv). cbn [mbind result_bind Py.bind sanitize_day is_ok andb].
  destruct (strptime_time tv) as [t | e] eqn:Ht;
    [| left; apply (fails_time y tv); [exact Htv | rewrite Ht; reflexivity]].
  cbn [mbind result_bind Py.bind sanitize_day is_ok andb].
  destruct (y !! "day") as [dv |] eqn:Hdv;
    [| left; apply (fails_absent y "day"); [set_solver | exact Hdv]].
  rewrite (proj2 (getitem_Ok _ _ _) Hdv). cbn [mbind result_bind Py.bind sanitize_day is_ok andb].
  destruct dv as [ds | n |];
    [| left; apply (fails_day y (YInt n)); [exact Hdv |];
       intros (? & ? & [=] & _)
     | left; apply (fails_day y YNull); [exact Hdv |];
       intros (? & ? & [=] & _)].
  cbn [mbind result_bind Py.bind sanitize_day is_ok andb].
  destruct (y !! "irc") as [c |] eqn:Hc;
    [| left; apply (fails_absent y "irc"); [set_solver | exact Hc]].
  rewrite (proj2 (getitem_Ok _ _ _) Hc). cbn [mbind result_bind Py.bind sanitize_day is_ok andb].
  destruct (y !! "frequency") as [f |] eqn:Hf;
    [| left; apply (fails_absent y "frequency"); [set_solver | exact Hf]].
  rewrite (proj2 (getitem_Ok _ _ _) Hf). cbn [mbind result_bind Py.bind sanitize_day is_ok andb].
  destruct (getitem supported_frequencies f) as [n | e] eqn:Hn; cbn [mbind result_bind Py.bind sanitize_day is_ok andb].
  2: { left. apply (fails_frequency y f); [exact Hf | |];
         intros ->; vm_compute in Hn; discriminate. }
  destruct (init_start_date now (m_filefrom m) y) as [sd | e] eqn:Hsd;
    cbn [mbind result_bind Py.bind sanitize_day is_ok andb].
  2: { left. unfold init_start_date in Hsd.
       destruct (y !! "start_date") as [v |] eqn:Hv; [| discriminate].
       apply (fails_start_date y v); [exact Hv |].
       destruct (strptime_Ymd (str v)); [discriminate | reflexivity]. }
  destruct (init_duration (m_filefrom m) y) as [d | e] eqn:Hd; cbn [mbind result_bind Py.bind sanitize_day is_ok andb].
  2: { left. unfold init_duration in Hd.
       destruct (y !! "duration") as [v |] eqn:Hv; [| discriminate].
       apply (fails_duration y v); [exact Hv |].
       destruct (int v); [discriminate | reflexivity]. }
  apply init_duration_Ok in Hd.
  destruct (DATES !! capitalize (lower ds)) as [date |] eqn:Hdate.
  2: { left. apply (fails_day y (YStr ds)); [exact Hdv |].
       rewrite <- sanitized_day_known, Hdate. intros [? [=]]. }
  unfold strptime_time in Ht. destruct tv as [ts | |]; try discriminate.
  unfold add at 1.
  destruct (in_range (combine date (time_of t) + timedelta_minutes d))
    eqn:Hrange; cbn [mbind result_bind Py.bind sanitize_day is_ok andb].
  2: { left. apply (fails_range y ts t ds date d); auto. }
  destruct (bool_decide (capitalize (lower ds) = "Sunday")) eqn:Hsun;
    cbn [mbind result_bind Py.bind sanitize_day is_ok andb]; [| right; reflexivity].
  destruct (bool_decide (strftime_a _ = "Mon")) eqn:Hmon;
    cbn [mbind result_bind Py.bind sanitize_day is_ok andb]; [| right; reflexivity].
  apply bool_decide_eq_true in Hsun, Hmon. apply strftime_a_Mon in Hmon.
  rewrite Hsun in Hdate. vm_compute in Hdate. injection Hdate as <-.
  assert (Hstart : sub (combine 693602 (time_of t)) ONE_WEEK
                   = Ok (combine 693602 (time_of t) + - ONE_WEEK)).
  { apply add_Ok. split; [reflexivity |].
    apply (sunday_start_in_range (time_of t)), time_of_bounds. }
  rewrite Hstart. cbn [mbind result_bind Py.bind].
  destruct (sub (combine 693602 (time_of t) + timedelta_minutes d) ONE_WEEK)
    as [me' | e] eqn:Hme; cbn [mbind result_bind Py.bind is_ok];
    [right; reflexivity |].
  apply add_Raise in Hme as [_ Hout].
  left. apply (fails_range y ts t ds 693602 d); auto.
  rewrite Hsun. reflexivity.
Qed.

End Validation.




(** White space is what [int()] takes for it, and the digits are limited. *)
Example construction_failure_int :
  construction_fails control_duration_yaml
  ∧ construction_fails long_duration_yaml
  ∧ is_ok (Schedule_init example_now (example_meeting "alpha")
             (<["duration" := YStr " 30 "]> monday_1000_yaml)) = true.
Proof.
  split; [| split].
  - apply (fails_duration _ (YStr (String "028" "7")));
      vm_compute; reflexivity.
  - eapply fails_duration; vm_compute; reflexivity.
  - vm_compute. reflexivity.
Qed.

(** * Further properties of the code *)

(** ** The canonical-week interval of a schedule *)

Section Canonical.

Lemma time_of_add_days (t : datetime) (n : Z) :
  time_of (t + timedelta_days n) = time_of t.
Proof.
  unfold time_of, timedelta_days. apply Z.mod_add. rewrite us_per_day_eq. lia.
Qed.

Lemma sub_one_week (t : datetime) : t - ONE_WEEK = t + timedelta_days (-7).
Proof. unfold ONE_WEEK, timedelta_weeks, timedelta_days. lia. Qed.

Lemma weekday_first_week (w : Z) :
  0 ≤ w ≤ 6 → (ymd2ord 1900 1 1 + w + 6) mod 7 = w.
Proof.
  intros Hw. change (ymd2ord 1900 1 1) with 693596.
  symmetry. apply (Z.mod_unique_pos _ _ 99086); lia.
Qed.

(** The duration of a constructed schedule is one that [timedelta] takes. *)
Lemma constructed_duration_bounds now m y s :
  constructed now m y s →
  - (MAXORDINAL + 1) * 1440 < duration s < (MAXORDINAL + 1) * 1440.
Proof.
  intros C. destruct (c_interval _ _ _ _ C) as (date & Hdate & Hrange & _).
  apply DATES_lookup in Hdate as (w & Hw & _ & -> & _).
  simpl in Hrange. apply in_range_iff in Hrange.
  pose proof (time_of_bounds (time s)) as Htod.
  revert Hrange. change (ymd2ord 1900 1 1) with 693596.
  unfold combine, timedelta_minutes, MINORDINAL, MAXORDINAL.
  rewrite us_per_day_eq, us_per_minute_eq in *. lia.
Qed.

End Canonical.

(** X1: the canonical interval of a constructed Schedule ends [duration]
    minutes after it starts; it starts at the schedule's time of day, on
    the schedule's weekday, on a date from 1899-12-31 to 1900-01-07, and
    both ends are representable instants. *)
Theorem canonical_interval now m y s :
  Schedule_init now m y = Ok s →
  meeting_end s = meeting_start s + timedelta_minutes (duration s)
  ∧ time_of (meeting_start s) = time_of (time s)
  ∧ WEEKDAYS !! day s = Some (weekday (meeting_start s))
  ∧ ymd2ord 1899 12 31 ≤ toordinal (meeting_start s) ≤ ymd2ord 1900 1 7
  ∧ in_range (meeting_start s) = true
  ∧ in_range (meeting_end s) = true.
Proof.
  intros Hinit. apply Schedule_init_Ok in Hinit as C.
  destruct (c_interval _ _ _ _ C) as (date & Hdate & Hrange & Hshift).
  apply DATES_lookup in Hdate as (w & Hw & Hday & -> & _).
  pose proof (time_of_bounds (time s)) as Htod.
  simpl in Hrange, Hshift.
  set (base := combine (ymd2ord 1900 1 1 + w) (time_of (time s))) in *.
  assert (Hord : toordinal base = ymd2ord 1900 1 1 + w)
    by (apply toordinal_combine, Htod).
  assert (Htime : time_of base = time_of (time s))
    by (apply time_of_combine, Htod).
  assert (Hwd : weekday base = w)
    by (unfold weekday; rewrite Hord; apply weekday_first_week, Hw).
  destruct (bool_decide (day s = "Sunday")
            && bool_decide (strftime_a _ = "Mon")) eqn:Hwrap.
  - destruct Hshift as (-> & -> & Hr1 & Hr2).
    apply andb_true_iff in Hwrap as [Hsun _].
    apply bool_decide_eq_true in Hsun. rewrite Hsun in Hday.
    vm_compute in Hday. injection Hday as <-.
    rewrite !sub_one_week in *.
    split; [lia |].
    split; [rewrite time_of_add_days; exact Htime |].
    split.
    { rewrite Hsun. unfold weekday. rewrite toordinal_add_days, Hord.
      vm_compute. reflexivity. }
    split; [rewrite toordinal_add_days, Hord; vm_compute; split; discriminate |].
    split; assumption.
  - destruct Hshift as [-> ->].
    split; [reflexivity |]. split; [exact Htime |].
    split; [rewrite Hwd; exact Hday |].
    split; [rewrite Hord; change (ymd2ord 1900 1 1) with 693596;
            change (ymd2ord 1899 12 31) with 693595;
            change (ymd2ord 1900 1 7) with 693602; lia |].
    split; [| exact Hrange].
    apply in_range_ordinal. rewrite Hord.
    change (ymd2ord 1900 1 1) with 693596.
    unfold MINORDINAL, MAXORDINAL. lia.
Qed.

Lemma canonical_interval_witness :
  Schedule_init example_now (example_meeting "alpha") sunday_2330_yaml
  = Ok sunday_2330
  ∧ meeting_end sunday_2330
    = meeting_start sunday_2330 + timedelta_minutes (duration sunday_2330)
  ∧ toordinal (meeting_start sunday_2330) = ymd2ord 1899 12 31.
Proof.
  assert (Hinit : Schedule_init example_now (example_meeting "alpha")
                    sunday_2330_yaml = Ok sunday_2330)
    by (vm_compute; reflexivity).
  split; [exact Hinit |].
  split; [| vm_compute; reflexivity].
  exact (proj1 (canonical_interval _ _ _ _ Hinit)).
Defined.

(** ** A blind spot of the same-week test *)

(** X2: the same-week test never reports a Sunday schedule that wraps into
    Monday (and lasts at most six days) against a Sunday schedule that does
    not wrap, whatever their channels and times: the first is compared one
    week early. *)
Theorem sunday_wrap_blind_spot now m y a now' m' y' b :
  Schedule_init now m y = Ok a →
  Schedule_init now' m' y' = Ok b →
  day a = "Sunday" → day b = "Sunday" →
  duration a ≤ 8640 →
  weekday (combine (ymd2ord 1900 1 7) (time_of (time a))
           + timedelta_minutes (duration a)) = 0 →
  weekday (combine (ymd2ord 1900 1 7) (time_of (time b))
           + timedelta_minutes (duration b)) ≠ 0 →
  Schedule_conflicts a b = false ∧ Schedule_conflicts b a = false.
Proof.
  intros Ha Hb Hda Hdb Hdur Hwrap Hnowrap.
  apply Schedule_init_Ok in Ha as Ca. apply Schedule_init_Ok in Hb as Cb.
  rewrite (constructed_conflicts _ _ _ _ _ _ _ _ Ca Cb).
  rewrite (constructed_conflicts _ _ _ _ _ _ _ _ Cb Ca).
  destruct (c_interval _ _ _ _ Ca) as (date & Hdate & _ & Hsa).
  destruct (c_interval _ _ _ _ Cb) as (date' & Hdate' & _ & Hsb).
  rewrite Hda in Hdate, Hsa. rewrite Hdb in Hdate', Hsb.
  vm_compute in Hdate, Hdate'.
  injection Hdate as <-. injection Hdate' as <-.
  change 693602 with (ymd2ord 1900 1 7) in Hsa, Hsb.
  cbv zeta in Hsa, Hsb.
  rewrite (bool_decide_eq_true_2 _ eq_refl) in Hsa, Hsb.
  rewrite (bool_decide_eq_true_2 _ (proj2 (strftime_a_Mon _) Hwrap)) in Hsa.
  rewrite (bool_decide_eq_false_2 _ (λ H, Hnowrap (proj1 (strftime_a_Mon _) H)))
    in Hsb.
  simpl in Hsa, Hsb. destruct Hsa as (Hsa & Hea & _). destruct Hsb as [Hsb Heb].
  pose proof (time_of_bounds (time a)). pose proof (time_of_bounds (time b)).
  assert (Hlate : meeting_end a ≤ meeting_start b).
  { rewrite Hea, Hsb. change (ymd2ord 1900 1 7) with 693602.
    unfold combine, timedelta_minutes, ONE_WEEK, timedelta_weeks.
    rewrite us_per_day_eq, us_per_minute_eq in *. lia. }
  split.
  - rewrite (proj2 (Z.ltb_ge (meeting_start b) (meeting_end a)) Hlate).
    rewrite !andb_false_r. reflexivity.
  - rewrite (proj2 (Z.ltb_ge (meeting_start b) (meeting_end a)) Hlate).
    rewrite andb_false_r. reflexivity.
Qed.

(** Sunday 2330 for an hour and Sunday 2300 for 45 minutes share a quarter
    of an hour each week: the expansion reports them, the same-week test
    does not. *)
Lemma sunday_wrap_blind_spot_witness :
  Schedule_conflicts sunday_2330 sunday_2300 = false
  ∧ irc sunday_2330 = irc sunday_2300
  ∧ check_for_meeting_conflicts example_now
      [meeting_with "alpha" sunday_2330; meeting_with "beta" sunday_2300]
    = Raise (MeetingConflictError "Conflict: alpha and beta").
Proof.
  split; [| split; vm_compute; reflexivity].
  refine (proj1 (sunday_wrap_blind_spot
            example_now (example_meeting "alpha") sunday_2330_yaml sunday_2330
            example_now (example_meeting "beta") sunday_2300_yaml sunday_2300
            _ _ _ _ _ _ _));
    vm_compute; first [reflexivity | discriminate].
Defined.

(** ** [recurrence.py] *)

Section RecurrenceClasses.

Lemma WEEKDAYS_lookup (d : string) (w : Z) :
  WEEKDAYS !! d = Some w → 0 ≤ w ≤ 6.
Proof.
  intros H. apply elem_of_list_to_map_2 in H.
  repeat (apply elem_of_cons in H as [[= -> ->] | H]; [lia |]).
  apply elem_of_nil in H as [].
Qed.

Lemma weekday_add_days (t : datetime) (w : Z) :
  0 ≤ w ≤ 6 →
  weekday (t + timedelta_days ((w - weekday t) mod 7)) = w.
Proof.
  intros Hw. unfold weekday at 1. rewrite toordinal_add_days.
  unfold weekday. apply weekday_after, Hw.
Qed.

Lemma next_occurrence_via_recurrence (s : Schedule) :
  Schedule_next_occurrence s
  = (t ← Recurrence.weekly_next_occurrence (start_date s) (day s);
     Ok (at_hm (toordinal t) (hour (time s)) (minute (time s)))).
Proof.
  unfold Schedule_next_occurrence, Recurrence.weekly_next_occurrence.
  change Recurrence.WEEKDAYS with WEEKDAYS.
  destruct (getitem WEEKDAYS (YStr (day s))) as [w | e];
    cbn [mbind result_bind Py.bind]; reflexivity.
Qed.

End RecurrenceClasses.

(** X3: [WeeklyRecurrence.next_occurrence(start, day)] raises KeyError for a
    day that is not a weekday name; otherwise it returns the first instant
    at or after [start] that falls on [day] at the time of day of [start],
    at most six days later, and raises OverflowError when that is after
    9999-12-31.  [BiWeeklyRecurrence.next_occurrence] is the same
    function. *)
Theorem weekly_next_occurrence_spec (start : datetime) (day : string) :
  in_range start = true →
  (∀ r, Recurrence.next_occurrence r start day
        = Recurrence.weekly_next_occurrence start day)
  ∧ match Recurrence.WEEKDAYS !! day with
    | None =>
        Recurrence.weekly_next_occurrence start day
        = Raise (KeyError (YStr day))
    | Some w =>
        let k := (w - weekday start) mod 7 in
        0 ≤ k ≤ 6 ∧ (k = 0 ↔ weekday start = w) ∧
        if decide (toordinal start + k ≤ MAXORDINAL) then
          ∃ t, Recurrence.weekly_next_occurrence start day = Ok t
               ∧ t = start + timedelta_days k
               ∧ start ≤ t
               ∧ weekday t = w
               ∧ time_of t = time_of start
        else Recurrence.weekly_next_occurrence start day
             = Raise OverflowError
    end.
Proof.
  intros Hstart. split; [intros []; reflexivity |].
  unfold Recurrence.weekly_next_occurrence, getitem.
  destruct (Recurrence.WEEKDAYS !! day) as [w |] eqn:Hday; [| reflexivity].
  apply WEEKDAYS_lookup in Hday as Hw.
  pose proof (weekday_bounds start) as Hwd.
  cbn [mbind result_bind Py.bind]. cbv zeta.
  rewrite days_ahead_mod by assumption.
  set (k := (w - weekday start) mod 7).
  assert (Hk : 0 ≤ k < 7) by (apply Z.mod_pos_bound; lia).
  split; [lia |]. split.
  { subst k. split.
    - intros H0. apply Z.mod_divide in H0 as [q Hq]; lia.
    - intros ->. rewrite Z.sub_diag. reflexivity. }
  apply in_range_ordinal in Hstart. unfold add.
  destruct (in_range (start + timedelta_days k)) eqn:Hr.
  - apply in_range_ordinal in Hr. rewrite toordinal_add_days in Hr.
    destruct (decide _); [| lia].
    eexists. split; [reflexivity |]. split; [reflexivity |].
    split; [unfold timedelta_days; rewrite us_per_day_eq; lia |].
    split; [apply weekday_add_days, Hw | apply time_of_add_days].
  - destruct (decide _) as [Hle |]; [| reflexivity].
    assert (Hin : in_range (start + timedelta_days k) = true).
    { apply in_range_ordinal. rewrite toordinal_add_days. lia. }
    congruence.
Qed.

Lemma weekly_next_occurrence_spec_witness :
  in_range example_now = true
  ∧ Recurrence.weekly_next_occurrence example_now "Sunday"
    = Ok (example_now + timedelta_days 6).
Proof.
  split; [reflexivity |].
  pose proof (proj2 (weekly_next_occurrence_spec example_now "Sunday"
                       eq_refl)) as H.
  change (Recurrence.WEEKDAYS !! "Sunday") with (Some 6) in H.
  destruct H as (_ & _ & H).
  change (weekday example_now) with 0 in H.
  change ((6 - 0) mod 7) with 6 in H.
  destruct (decide _) as [| Hgt] in H; [| exfalso; apply Hgt; discriminate].
  destruct H as (t & -> & -> & _). reflexivity.
Defined.

(** X4: for a constructed Schedule the table of recurrence classes has an
    entry under the schedule's frequency; the interval of that class's rule
    is the schedule's, and [Schedule.next_occurrence] returns the date that
    the class's [next_occurrence] returns for the schedule's anchor and day,
    at the schedule's hour and minute. *)
Theorem recurrence_tables_agree now m y s :
  Schedule_init now m y = Ok s →
  ∃ name r,
    freq s = YStr name
    ∧ Recurrence.supported_recurrences !! name = Some r
    ∧ supported_frequencies !! name = Some (Recurrence.rrule_interval r)
    ∧ Schedule_recurrence_rule s = ("weekly", Recurrence.rrule_interval r)
    ∧ Schedule_next_occurrence s
      = (t ← Recurrence.next_occurrence r (start_date s) (day s);
         Ok (at_hm (toordinal t) (hour (time s)) (minute (time s)))).
Proof.
  intros Hinit. apply Schedule_init_Ok in Hinit as C.
  destruct (constructed_freq _ _ _ _ C) as [[Hf Hi] | [Hf Hi]].
  - exists "weekly", Recurrence.WeeklyRecurrence.
    unfold Schedule_recurrence_rule. rewrite Hf, Hi.
    repeat split. apply next_occurrence_via_recurrence.
  - exists "biweekly", Recurrence.BiWeeklyRecurrence.
    unfold Schedule_recurrence_rule. rewrite Hf, Hi.
    repeat split. apply next_occurrence_via_recurrence.
Qed.

Lemma recurrence_tables_agree_witness :
  Schedule_init example_now (example_meeting "beta") monday_0000_yaml
  = Ok monday_0000
  ∧ ∃ name r,
      freq monday_0000 = YStr name
      ∧ Recurrence.supported_recurrences !! name = Some r
      ∧ Recurrence.rrule_interval r = 2.
Proof.
  assert (Hinit : Schedule_init example_now (example_meeting "beta")
                    monday_0000_yaml = Ok monday_0000)
    by (vm_compute; reflexivity).
  split; [exact Hinit |].
  destruct (recurrence_tables_agree _ _ _ _ Hinit)
    as (name & r & Hf & Hr & Hs & _).
  exists name, r. split; [exact Hf |]. split; [exact Hr |].
  injection Hf as <-. vm_compute in Hr. injection Hr as <-. reflexivity.
Defined.

(** ** File names of a meeting *)

Section Paths.

Import Posixpath.

Lemma rfind_bounds c s : -1 ≤ rfind c s < Z.of_nat (String.length s).
Proof.
  induction s as [| a r IH]; simpl; [lia |].
  destruct (Z.leb_spec 0 (rfind c r)); [lia |].
  destruct (Ascii.eqb a c); lia.
Qed.

Lemma rfind_absent c s : rfind c s = -1 ↔ occurs c s = false.
Proof.
  induction s as [| a r IH]; simpl; [tauto |].
  pose proof (rfind_bounds c r) as Hb.
  destruct (Z.leb_spec 0 (rfind c r)) as [Hk | Hk].
  - split; [lia |]. intros H. apply orb_false_iff in H as [_ H].
    apply IH in H. lia.
  - destruct (Ascii.eqb a c); simpl; [split; [lia | discriminate] |].
    rewrite <- IH. split; intros; lia.
Qed.

Lemma append_cons a (s t : string) : String a s ++ t = String a (s ++ t).
Proof. reflexivity. Qed.

Lemma append_nil_l (t : string) : "" ++ t = t.
Proof. reflexivity. Qed.

Lemma take_drop n s : take n s ++ drop n s = s.
Proof.
  revert s. induction n as [| n IH]; intros [| a r];
    cbn [take drop]; try reflexivity.
  rewrite append_cons, IH. reflexivity.
Qed.

Lemma drop_succ n s c rest :
  drop n s = String c rest → drop (S n) s = rest.
Proof.
  revert s. induction n as [| n IH]; intros [| a r]; simpl; try discriminate.
  - intros [= _ ->]. reflexivity.
  - destruct n; [destruct r; simpl; try discriminate; intros [= _ ->];
                 reflexivity |].
    intros H. apply (IH r H).
Qed.

Lemma occurs_drop c n s : occurs c s = false → occurs c (drop n s) = false.
Proof.
  revert s. induction n as [| n IH]; intros [| a r]; simpl; auto.
  intros H. apply orb_false_iff in H as [_ H]. auto.
Qed.

Lemma drop_drop n k s : drop (n + k) s = drop k (drop n s).
Proof.
  revert s. induction n as [| n IH]; intros s; simpl; [reflexivity |].
  destruct s as [| a r]; [destruct k; reflexivity | apply IH].
Qed.

(** From its last occurrence on, [s] is [c] and a rest without [c]. *)
Lemma rfind_split c s :
  0 ≤ rfind c s →
  ∃ rest, drop (Z.to_nat (rfind c s)) s = String c rest
          ∧ occurs c rest = false.
Proof.
  induction s as [| a r IH]; simpl; [lia |].
  pose proof (rfind_bounds c r).
  destruct (Z.leb_spec 0 (rfind c r)) as [Hk | Hk].
  - intros _. destruct (IH Hk) as (rest & Hrest & Hno).
    exists rest. split; [| exact Hno].
    replace (Z.to_nat (rfind c r + 1)) with (S (Z.to_nat (rfind c r)))
      by lia.
    exact Hrest.
  - destruct (Ascii.eqb_spec a c) as [-> | Hne]; [| lia].
    intros _. exists r. split; [reflexivity |].
    apply rfind_absent. lia.
Qed.

Lemma occurs_after_rfind c s n :
  rfind c s < Z.of_nat n → occurs c (drop n s) = false.
Proof.
  intros Hn. pose proof (rfind_bounds c s).
  destruct (Z.leb_spec 0 (rfind c s)) as [Hk | Hk].
  - destruct (rfind_split c s Hk) as (rest & Hrest & Hno).
    apply drop_succ in Hrest.
    replace n with (S (Z.to_nat (rfind c s))
                    + (n - S (Z.to_nat (rfind c s))))%nat by lia.
    rewrite drop_drop, Hrest. apply occurs_drop, Hno.
  - apply occurs_drop, rfind_absent. lia.
Qed.

Lemma basename_parts p :
  ∃ dir, p = dir ++ basename p
         ∧ occurs "/" (basename p) = false
         ∧ (dir = "" ∨ ∃ d, dir = d ++ "/").
Proof.
  unfold basename. pose proof (rfind_bounds "/" p).
  destruct (Z.leb_spec 0 (rfind "/" p)) as [Hk | Hk].
  - destruct (rfind_split "/" p Hk) as (rest & Hrest & Hno).
    replace (Z.to_nat (rfind "/" p + 1)) with (S (Z.to_nat (rfind "/" p)))
      by lia.
    rewrite (drop_succ _ _ _ _ Hrest).
    exists (take (Z.to_nat (rfind "/" p)) p ++ "/").
    split; [| split; [exact Hno | right; eauto]].
    rewrite <- (take_drop (Z.to_nat (rfind "/" p)) p) at 1.
    rewrite Hrest. clear.
    induction (take _ p) as [| a r IH]; [reflexivity |].
    rewrite !append_cons, IH. reflexivity.
  - replace (rfind "/" p + 1) with 0 by lia. simpl.
    exists "". split; [reflexivity |]. split; [| auto].
    apply rfind_absent. lia.
Qed.

Lemma splitext_loop_cases p i n d :
  splitext_loop p i n d = (p, "")
  ∨ splitext_loop p i n d = (take d p, drop d p).
Proof.
  revert i. induction n as [| n IH]; intros i; simpl; [auto |].
  destruct (String.get i p) as [a |]; [| auto].
  destruct a as [[] [] [] [] [] [] [] []]; auto.
Qed.

Lemma splitext_parts p :
  (splitext p).1 ++ (splitext p).2 = p
  ∧ occurs "/" (splitext p).2 = false
  ∧ ((splitext p).2 = ""
     ∨ ∃ e, (splitext p).2 = String "." e ∧ occurs "." e = false).
Proof.
  assert (Hnone : ∀ q : string, q ++ "" = q).
  { induction q as [| a r IH]; [| rewrite append_cons, IH]; reflexivity. }
  unfold splitext.
  pose proof (rfind_bounds "/" p). pose proof (rfind_bounds "." p).
  destruct (Z.ltb_spec (rfind "/" p) (rfind "." p)) as [Hlt | Hge];
    simpl; [| auto].
  destruct (splitext_loop_cases p (Z.to_nat (rfind "/" p + 1))
              (Z.to_nat (rfind "." p - (rfind "/" p + 1)))
              (Z.to_nat (rfind "." p))) as [-> | ->]; simpl; [auto |].
  split; [apply take_drop |]. split.
  - apply occurs_after_rfind. lia.
  - right. apply rfind_split. lia.
Qed.

Lemma occurs_app c a b : occurs c (a ++ b) = occurs c a || occurs c b.
Proof.
  induction a as [| x a IH]; [reflexivity |].
  rewrite append_cons. simpl. rewrite IH, orb_assoc. reflexivity.
Qed.

Lemma rfind_app_sep c a b :
  occurs c b = false →
  rfind c (a ++ String c b) = Z.of_nat (String.length a).
Proof.
  intros Hno. induction a as [| x a IH].
  - rewrite append_nil_l. simpl. apply rfind_absent in Hno. rewrite Hno.
    simpl. rewrite Ascii.eqb_refl. reflexivity.
  - rewrite append_cons. cbn [rfind String.length]. rewrite IH.
    destruct (Z.leb_spec 0 (Z.of_nat (String.length a))); lia.
Qed.

Lemma drop_app a b : drop (String.length a) (a ++ b) = b.
Proof.
  induction a as [| x a IH]; [destruct b; reflexivity |].
  rewrite append_cons. exact IH.
Qed.

Lemma take_app a b : take (String.length a) (a ++ b) = a.
Proof.
  induction a as [| x a IH]; [destruct b; reflexivity |].
  rewrite append_cons. cbn [String.length take]. rewrite IH. reflexivity.
Qed.

(** The base name of a file in a directory. *)
Lemma basename_in_dir dir file :
  (dir = "" ∨ ∃ d, dir = d ++ "/") → occurs "/" file = false →
  basename (dir ++ file) = file.
Proof.
  intros [-> | [d ->]] Hno; unfold basename.
  - rewrite append_nil_l. apply rfind_absent in Hno. rewrite Hno.
    reflexivity.
  - assert (Happ : (d ++ "/") ++ file = d ++ String "/" file).
    { clear. induction d as [| x d IH]; [reflexivity |].
      rewrite !append_cons, IH. reflexivity. }
    rewrite Happ, rfind_app_sep by exact Hno.
    replace (Z.to_nat (Z.of_nat (String.length d) + 1))
      with (S (String.length d)) by lia.
    apply (drop_succ _ _ "/"). apply drop_app.
Qed.

(** The extension of a name whose stem does not start with a dot. *)
Lemma splitext_stem c stem ext :
  c ≠ "."%char →
  occurs "/" (String c stem) = false → occurs "/" ext = false →
  occurs "." ext = false →
  splitext (String c stem ++ String "." ext)
  = (String c stem, String "." ext).
Proof.
  intros Hc Hs He Hd. unfold splitext.
  assert (Hsep : rfind "/" (String c stem ++ String "." ext) = -1).
  { apply rfind_absent. rewrite occurs_app, Hs. simpl. exact He. }
  rewrite Hsep, rfind_app_sep by exact Hd.
  cbn [String.length].
  destruct (Z.ltb_spec (-1) (Z.of_nat (S (String.length stem)))); [| lia].
  replace (Z.to_nat (Z.of_nat (S (String.length stem)) - (-1 + 1)))
    with (S (String.length stem)) by lia.
  rewrite Nat2Z.id. change (Z.to_nat (-1 + 1)) with 0%nat.
  rewrite append_cons. cbn [splitext_loop String.get].
  assert (Hsplit :
    (take (S (String.length stem)) (String c (stem ++ String "." ext)),
     drop (S (String.length stem)) (String c (stem ++ String "." ext)))
    = (String c stem, String "." ext)).
  { cbn [take drop]. rewrite take_app, drop_app. reflexivity. }
  rewrite <- Hsplit.
  destruct c as [[] [] [] [] [] [] [] []];
    first [reflexivity | exfalso; apply Hc; reflexivity].
Qed.

Lemma only_dots_app a b : only_dots (a ++ b) = only_dots a && only_dots b.
Proof.
  induction a as [| x a IH]; [reflexivity |].
  rewrite append_cons. simpl. rewrite IH, andb_assoc. reflexivity.
Qed.

Lemma append_snoc a c b : (a ++ String c "") ++ b = a ++ String c b.
Proof.
  induction a as [| x a IH]; [reflexivity |].
  rewrite !append_cons, IH. reflexivity.
Qed.

(** The first [d] characters of [p] are dots. *)
Lemma only_dots_take d p :
  only_dots (take d p) = true
  ↔ ∀ (i : nat) a, (i < d)%nat → String.get i p = Some a → a = "."%char.
Proof.
  revert p. induction d as [| d IH]; intros p.
  - simpl. split; [intros _ i a Hi; lia | reflexivity].
  - destruct p as [| b r]; cbn [take only_dots].
    + split; [intros _ i a _; destruct i; discriminate | reflexivity].
    + rewrite andb_true_iff, IH. split.
      * intros [Hb Hr] [| i] a Hi; simpl.
        -- intros [= <-]. apply Ascii.eqb_eq, Hb.
        -- apply Hr. lia.
      * intros H. split.
        -- apply Ascii.eqb_eq. apply (H 0%nat); [lia | reflexivity].
        -- intros i a Hi Ha. apply (H (S i)); [lia | exact Ha].
Qed.

Lemma get_Some (i : nat) p :
  (i < String.length p)%nat → ∃ a, String.get i p = Some a.
Proof.
  revert i. induction p as [| b r IH]; intros i; simpl; [lia |].
  destruct i as [| i]; [eauto |]. intros Hi. apply IH. lia.
Qed.

(** The loop that skips the leading dots, for a file name. *)
Lemma splitext_loop_spec p d (n i : nat) :
  (i + n = d)%nat → (d ≤ String.length p)%nat →
  only_dots (take i p) = true →
  (splitext_loop p i n d = (p, "") ∧ only_dots (take d p) = true)
  ∨ (splitext_loop p i n d = (take d p, drop d p)
     ∧ only_dots (take d p) = false).
Proof.
  revert i. induction n as [| n IH]; intros i Hd Hlen Hdots.
  - left. replace d with i by lia. auto.
  - destruct (get_Some i p ltac:(lia)) as [a Ha].
    assert (Hstep : splitext_loop p i (S n) d
                    = if Ascii.eqb a "."
                      then splitext_loop p (S i) n d
                      else (take d p, drop d p)).
    { simpl. rewrite Ha.
      destruct a as [[] [] [] [] [] [] [] []]; reflexivity. }
    rewrite Hstep. destruct (Ascii.eqb_spec a ".") as [-> | Hne].
    + apply IH; [lia | exact Hlen |].
      apply only_dots_take. intros j b Hj Hb.
      destruct (decide (j = i)) as [-> | Hji]; [congruence |].
      apply (proj1 (only_dots_take i p) Hdots j b); [lia | exact Hb].
    + right. split; [reflexivity |].
      destruct (only_dots (take d p)) eqn:Hall; [| reflexivity].
      exfalso. apply Hne.
      apply (proj1 (only_dots_take d p) Hall i a); [lia | exact Ha].
Qed.

(** [splitext] of a file name: without extension when the name has no dot
    but leading ones; otherwise split at its last dot. *)
Lemma splitext_file p :
  occurs "/" p = false →
  ((splitext p).1 = p ∧ (splitext p).2 = ""
   ∧ ∃ dots rest, p = dots ++ rest ∧ only_dots dots = true
                  ∧ occurs "." rest = false)
  ∨ (∃ e, p = (splitext p).1 ++ String "." e
          ∧ (splitext p).2 = String "." e
          ∧ occurs "." e = false
          ∧ only_dots (splitext p).1 = false).
Proof.
  intros Hno. unfold splitext.
  apply rfind_absent in Hno. rewrite Hno.
  pose proof (rfind_bounds "." p) as Hb.
  destruct (Z.ltb_spec (-1) (rfind "." p)) as [Hlt | Hge].
  - destruct (rfind_split "." p ltac:(lia)) as (e & He & Hnodot).
    change (Z.to_nat (-1 + 1)) with 0%nat.
    replace (Z.to_nat (rfind "." p - (-1 + 1)))
      with (Z.to_nat (rfind "." p)) by lia.
    destruct (splitext_loop_spec p (Z.to_nat (rfind "." p))
                (Z.to_nat (rfind "." p)) 0 ltac:(lia) ltac:(lia) eq_refl)
      as [[-> Hdots] | [-> Hdots]]; cbn [fst snd].
    + left. split; [reflexivity |]. split; [reflexivity |].
      exists (take (Z.to_nat (rfind "." p)) p ++ "."), e.
      split; [| split; [| exact Hnodot]].
      * rewrite append_snoc, <- He. symmetry. apply take_drop.
      * rewrite only_dots_app, Hdots. reflexivity.
    + right. exists e. rewrite He.
      split; [| auto]. rewrite <- He. symmetry. apply take_drop.
  - left. cbn [fst snd]. split; [reflexivity |]. split; [reflexivity |].
    exists "", p. split; [reflexivity |]. split; [reflexivity |].
    apply rfind_absent. lia.
Qed.

Lemma Meeting_init_names clock name doc lm :
  Meeting_init clock name doc = Ok lm →
  m_filefrom (attributes lm)
  = match name with Some n => basename n | None => "stdin" end
  ∧ outfile lm
    = match name with
      | Some n => (splitext (basename n)).1 ++ ".ics"
      | None => "stdin.ics"
      end.
Proof.
  unfold Meeting_init. intros H.
  apply bind_Ok in H as (chair & _ & H).
  apply bind_Ok in H as (descr & _ & H).
  apply bind_Ok in H as (proj & _ & H).
  destruct (schedule doc) as [entry |]; [| discriminate].
  apply bind_Ok in H as (items & _ & H).
  apply bind_Ok in H as (self & Hself & [= <-]). cbn [attributes outfile].
  split; [| destruct name; reflexivity].
  assert (Hkeep : ∀ k recs m m',
            init_schedules clock m k recs = Ok m' →
            m_filefrom m' = m_filefrom m).
  { intros k recs. revert k. induction recs as [| r recs IH]; intros k m m';
      simpl; [intros [= <-]; reflexivity |].
    intros Hm. apply bind_Ok in Hm as (s & _ & Hm).
    apply IH in Hm. exact Hm. }
  apply Hkeep in Hself. exact Hself.
Qed.

End Paths.

(** X5: the names that [Meeting.__init__] derives from the name of its
    source: [filefrom] is the part of the name after its last slash, and
    neither it nor [outfile] contains a slash.  When [filefrom] has a dot
    after a character that is not a dot, [outfile] is [filefrom] with the
    part from its last dot on replaced by [.ics]; otherwise, that is when
    [filefrom] is a run of dots followed by characters other than dots,
    [outfile] is [filefrom] followed by [.ics].  For a source without a name
    they are [stdin] and [stdin.ics]. *)
Theorem meeting_file_names clock name doc lm :
  Meeting_init clock name doc = Ok lm →
  match name with
  | None => m_filefrom (attributes lm) = "stdin" ∧ outfile lm = "stdin.ics"
  | Some n =>
      ∃ dir,
        n = dir ++ m_filefrom (attributes lm)
        ∧ (dir = "" ∨ ∃ d, dir = d ++ "/")
        ∧ occurs "/" (m_filefrom (attributes lm)) = false
        ∧ occurs "/" (outfile lm) = false
        ∧ ((outfile lm = m_filefrom (attributes lm) ++ ".ics"
            ∧ ∃ dots rest,
                m_filefrom (attributes lm) = dots ++ rest
                ∧ only_dots dots = true ∧ occurs "." rest = false)
           ∨ (∃ root e,
                m_filefrom (attributes lm) = root ++ String "." e
                ∧ outfile lm = root ++ ".ics"
                ∧ occurs "." e = false
                ∧ only_dots root = false))
  end.
Proof.
  intros Hinit. apply Meeting_init_names in Hinit as [Hfile Hout].
  destruct name as [n |]; [| auto].
  destruct (basename_parts n) as (dir & Hn & Hno & Hdir).
  exists dir. rewrite Hfile, Hout.
  split; [exact Hn |]. split; [exact Hdir |]. split; [exact Hno |].
  destruct (splitext_file (Posixpath.basename n) Hno)
    as [(Hroot & _ & Hshape) | (e & Hsplit & _ & Hnodot & Hdots)].
  - rewrite Hroot. split; [| left; auto].
    rewrite occurs_app, Hno. reflexivity.
  - split.
    + rewrite Hsplit, occurs_app in Hno.
      apply orb_false_iff in Hno as [Hnoroot _].
      rewrite occurs_app, Hnoroot. reflexivity.
    + right. exists (Posixpath.splitext (Posixpath.basename n)).1, e. auto.
Qed.

(** X6: a meeting read from [dir/stem.ext], where the stem does not start
    with a dot, records the file as [stem.ext] and names its calendar
    [stem.ics], whatever the directory. *)
Theorem meeting_outfile_of_file clock dir c stem ext doc lm :
  (dir = "" ∨ ∃ d, dir = d ++ "/") →
  c ≠ "."%char →
  occurs "/" (String c stem) = false → occurs "/" ext = false →
  occurs "." ext = false →
  Meeting_init clock (Some (dir ++ String c stem ++ String "." ext)) doc
  = Ok lm →
  m_filefrom (attributes lm) = String c stem ++ String "." ext
  ∧ outfile lm = String c stem ++ ".ics".
Proof.
  intros Hdir Hc Hs He Hd Hinit.
  apply Meeting_init_names in Hinit as [Hfile Hout].
  assert (Hfileno : occurs "/" (String c stem ++ String "." ext) = false).
  { rewrite occurs_app, Hs. simpl. exact He. }
  rewrite basename_in_dir in Hfile, Hout by assumption.
  rewrite splitext_stem in Hout by assumption.
  split; assumption.
Qed.

Lemma meeting_file_names_witness :
  Meeting_init example_clock (Some "meetings/alpha.team.yaml")
    example_document = Ok example_loaded
  ∧ ∃ dir,
      "meetings/alpha.team.yaml" = dir ++ m_filefrom (attributes example_loaded)
      ∧ (dir = "" ∨ ∃ d, dir = d ++ "/")
      ∧ occurs "/" (m_filefrom (attributes example_loaded)) = false
      ∧ occurs "/" (outfile example_loaded) = false
      ∧ ((outfile example_loaded
          = m_filefrom (attributes example_loaded) ++ ".ics"
          ∧ ∃ dots rest,
              m_filefrom (attributes example_loaded) = dots ++ rest
              ∧ only_dots dots = true ∧ occurs "." rest = false)
         ∨ (∃ root e,
              m_filefrom (attributes example_loaded) = root ++ String "." e
              ∧ outfile example_loaded = root ++ ".ics"
              ∧ occurs "." e = false
              ∧ only_dots root = false)).
Proof.
  assert (Hinit : Meeting_init example_clock (Some "meetings/alpha.team.yaml")
                    example_document = Ok example_loaded)
    by (vm_compute; reflexivity).
  split; [exact Hinit |].
  exact (meeting_file_names _ _ _ _ Hinit).
Defined.

Lemma meeting_outfile_of_file_witness :
  Meeting_init example_clock (Some "meetings/alpha.team.yaml")
    example_document = Ok example_loaded
  ∧ m_filefrom (attributes example_loaded) = "alpha.team.yaml"
  ∧ outfile example_loaded = "alpha.team.ics".
Proof.
  assert (Hinit : Meeting_init example_clock (Some "meetings/alpha.team.yaml")
                    example_document = Ok example_loaded)
    by (vm_compute; reflexivity).
  split; [exact Hinit |].
  apply (meeting_outfile_of_file example_clock "meetings/" "a" "lpha.team"
           "yaml" example_document example_loaded);
    first [exact Hinit | reflexivity | discriminate | right; exists "meetings"; reflexivity].
Defined.

(** ** Construction of a meeting *)

Section MeetingInit.

Lemma Schedule_init_ext now m m' y :
  m_project m = m_project m' → m_filefrom m = m_filefrom m' →
  Schedule_init now m y = Schedule_init now m' y.
Proof. unfold Schedule_init. intros -> ->. reflexivity. Qed.

Lemma init_schedules_Ok clock self k items self' :
  init_schedules clock self k items = Ok self' →
  m_chair self' = m_chair self
  ∧ m_description self' = m_description self
  ∧ m_project self' = m_project self
  ∧ m_filefrom self' = m_filefrom self
  ∧ ∃ records ss,
      items = ItemMapping <$> records
      ∧ m_schedules self' = (m_schedules self ++ ss)%list
      ∧ length ss = length records
      ∧ ∀ (i : nat) rec, records !! i = Some rec →
          ∃ s, ss !! i = Some s
               ∧ Schedule_init (clock (k + i)%nat) self rec = Ok s.
Proof.
  revert self k. induction items as [| sch items IH]; intros self k;
    simpl.
  - intros [= <-]. repeat split. exists [], []. rewrite app_nil_r.
    repeat split. intros i rec Hrec. rewrite lookup_nil in Hrec.
    discriminate.
  - intros H. apply bind_Ok in H as (s & Hs & H).
    destruct sch as [rec0 | v]; [| discriminate]. simpl in Hs.
    apply IH in H as (Hc & Hd & Hp & Hf & records & ss & -> & Hss & Hlen
                      & Hall).
    simpl in Hc, Hd, Hp, Hf, Hss.
    repeat split; try assumption.
    exists (rec0 :: records), (s :: ss). rewrite Hss, <- app_assoc. simpl.
    split; [reflexivity |]. split; [reflexivity |].
    split; [rewrite Hlen; reflexivity |].
    intros [| i] rec Hrec.
    + injection Hrec as <-. exists s. rewrite Nat.add_0_r. auto.
    + destruct (Hall i rec Hrec) as (s' & Hs' & Hinit).
      exists s'. split; [exact Hs' |].
      replace (k + S i)%nat with (S k + i)%nat by lia.
      rewrite <- Hinit. apply Schedule_init_ext; reflexivity.
Qed.

Lemma init_schedules_fails clock self k items :
  is_ok (init_schedules clock self k items) = false
  ↔ ∃ item, item ∈ items
            ∧ match item with
              | ItemMapping rec => construction_fails rec
              | ItemScalar _ => True
              end.
Proof.
  revert self k. induction items as [| sch items IH]; intros self k;
    simpl.
  - split; [discriminate |]. intros (item & Hin & _).
    apply elem_of_nil in Hin as [].
  - destruct sch as [rec0 | v]; simpl.
    2: { split; [| reflexivity]. intros _. exists (ItemScalar v).
         split; [left | exact I]. }
    destruct (Schedule_init (clock k) self rec0) as [s | e] eqn:Hs;
      cbn [mbind result_bind Py.bind].
    + rewrite IH. apply Schedule_init_Ok, constructed_not_fails in Hs.
      split.
      * intros (item & Hin & Hfail). exists item.
        split; [right |]; assumption.
      * intros (item & Hin & Hfail).
        apply elem_of_cons in Hin as [-> | Hin]; [contradiction | eauto].
    + split; [| reflexivity]. intros _. exists (ItemMapping rec0).
      split; [left |].
      destruct (init_or_fails (clock k) self rec0) as [Hfail | Hok];
        [exact Hfail |].
      rewrite Hs in Hok. discriminate.
Qed.

Lemma characters_mappings s records :
  characters s = ItemMapping <$> records → s = "" ∧ records = [].
Proof. destruct s, records; simpl; try discriminate; auto. Qed.

End MeetingInit.

(** X7: a meeting that [Meeting.__init__] constructs takes chair,
    description and project from the document; the document's schedule is
    then a sequence of records (or the empty string or the empty mapping,
    which count as no records), and the meeting has one schedule for each
    record, in the same order, each constructed from its record with the
    meeting's project and file name. *)
Theorem Meeting_init_schedules clock name doc lm :
  Meeting_init clock name doc = Ok lm →
  entries doc !! "chair" = Some (m_chair (attributes lm))
  ∧ entries doc !! "description" = Some (m_description (attributes lm))
  ∧ entries doc !! "project" = Some (m_project (attributes lm))
  ∧ ∃ records,
      (schedule doc = Some (ScheduleSequence (ItemMapping <$> records))
       ∨ (records = []
          ∧ (schedule doc = Some (ScheduleScalar (YStr ""))
             ∨ schedule doc = Some (ScheduleMapping []))))
      ∧ length (m_schedules (attributes lm)) = length records
      ∧ ∀ (i : nat) rec, records !! i = Some rec →
          ∃ s, m_schedules (attributes lm) !! i = Some s
               ∧ Schedule_init (clock i) (attributes lm) rec = Ok s
               ∧ project s = m_project (attributes lm)
               ∧ filefrom s = m_filefrom (attributes lm).
Proof.
  unfold Meeting_init. intros H.
  apply bind_Ok in H as (chair & Hchair & H). apply getitem_Ok in Hchair.
  apply bind_Ok in H as (descr & Hdescr & H). apply getitem_Ok in Hdescr.
  apply bind_Ok in H as (proj & Hproj & H). apply getitem_Ok in Hproj.
  destruct (schedule doc) as [entry |]; [| discriminate].
  apply bind_Ok in H as (items & Hitems & H).
  apply bind_Ok in H as (self & Hself & [= <-]). cbn [attributes].
  apply init_schedules_Ok in Hself
    as (Hc & Hd & Hp & Hf & records & ss & -> & Hss & Hlen & Hall).
  simpl in Hc, Hd, Hp, Hf, Hss.
  rewrite Hc, Hd, Hp. repeat split; try assumption.
  exists records. split; [| split].
  - destruct entry as [items | keys | [str | n |]]; simpl in Hitems;
      try discriminate.
    + injection Hitems as ->. left. reflexivity.
    + injection Hitems as Hkeys.
      destruct keys, records; try discriminate Hkeys. right. auto.
    + injection Hitems as Hchars.
      apply characters_mappings in Hchars as [-> ->]. right. auto.
  - rewrite Hss. exact Hlen.
  - rewrite Hss. intros i rec Hrec.
    destruct (Hall i rec Hrec) as (s & Hs & Hinit).
    exists s. split; [exact Hs |].
    assert (Hinit' : Schedule_init (clock i) self rec = Ok s).
    { rewrite <- Hinit. apply Schedule_init_ext; simpl; congruence. }
    split; [exact Hinit' |].
    apply Schedule_init_Ok in Hinit'.
    pose proof (c_project _ _ _ _ Hinit').
    pose proof (c_filefrom _ _ _ _ Hinit').
    split; congruence.
Qed.

Lemma Meeting_init_schedules_witness :
  Meeting_init example_clock (Some "meetings/alpha.team.yaml")
    example_document = Ok example_loaded
  ∧ length (m_schedules (attributes example_loaded)) = 2%nat
  ∧ m_project (attributes example_loaded) = YStr "alpha".
Proof.
  assert (Hinit : Meeting_init example_clock (Some "meetings/alpha.team.yaml")
                    example_document = Ok example_loaded)
    by (vm_compute; reflexivity).
  split; [exact Hinit |].
  destruct (Meeting_init_schedules _ _ _ _ Hinit)
    as (_ & _ & Hproj & records & Hrec & Hlen & _).
  split.
  - rewrite Hlen.
    change (schedule example_document)
      with (Some (ScheduleSequence
                    (ItemMapping <$> [monday_1000_yaml; sunday_2330_yaml])))
      in Hrec.
    destruct Hrec as [Hrec | [_ [Hrec | Hrec]]];
      [| discriminate Hrec | discriminate Hrec].
    injection Hrec as Hrec.
    destruct records as [| r1 [| r2 [| r3 records]]]; try discriminate Hrec.
    reflexivity.
  - reflexivity.
Defined.

(** X8: [Meeting.__init__] fails exactly when the document has no chair,
    description or project; has no schedule; has for schedule a scalar other
    than the empty string (a number and [None] are not iterable, and the
    characters of a string are not records) or a mapping that is not empty
    (its keys are not records); or has for schedule a sequence with an item
    that is a scalar, or a record on which [Schedule.__init__] fails. *)
Theorem Meeting_init_failure clock name doc :
  is_ok (Meeting_init clock name doc) = false
  ↔ (∃ k, k ∈ ["chair"; "description"; "project"]
          ∧ entries doc !! k = None)
    ∨ schedule doc = None
    ∨ (∃ v, schedule doc = Some (ScheduleScalar v) ∧ v ≠ YStr "")
    ∨ (∃ keys, schedule doc = Some (ScheduleMapping keys) ∧ keys ≠ [])
    ∨ ∃ items item,
        schedule doc = Some (ScheduleSequence items) ∧ item ∈ items
        ∧ match item with
          | ItemMapping rec => construction_fails rec
          | ItemScalar _ => True
          end.
Proof.
  unfold Meeting_init, getitem.
  destruct (entries doc !! "chair") as [chair |] eqn:Hchair;
    cbn [mbind result_bind Py.bind is_ok].
  2: { split; [| reflexivity]. intros _. left. exists "chair".
       split; [set_solver | exact Hchair]. }
  destruct (entries doc !! "description") as [descr |] eqn:Hdescr;
    cbn [mbind result_bind Py.bind is_ok].
  2: { split; [| reflexivity]. intros _. left. exists "description".
       split; [set_solver | exact Hdescr]. }
  destruct (entries doc !! "project") as [proj |] eqn:Hproj;
    cbn [mbind result_bind Py.bind is_ok].
  2: { split; [| reflexivity]. intros _. left. exists "project".
       split; [set_solver | exact Hproj]. }
  assert (Hpresent : ¬ ∃ k, k ∈ ["chair"; "description"; "project"]
                            ∧ entries doc !! k = None).
  { intros (k & Hk & Hnone).
    repeat (apply elem_of_cons in Hk as [-> | Hk]; [congruence |]).
    apply elem_of_nil in Hk as []. }
  set (self0 := mkMeeting chair descr proj _ []).
  destruct (schedule doc) as [[items | keys | v] |];
    [| | | split; [auto | reflexivity]].
  - cbn [iter_schedule mbind result_bind Py.bind].
    pose proof (init_schedules_fails clock self0 0 items) as Hfails.
    destruct (init_schedules clock self0 0 items) as [self | e];
      cbn [mbind result_bind Py.bind is_ok] in *.
    + split; [discriminate |].
      intros [H | [H | [(v & [=] & _) | [(ks & [=] & _)
                | (its & item & [= <-] & Hin & Hfail)]]]];
        [contradiction | discriminate |].
      apply Hfails. eauto.
    + split; [| reflexivity]. intros _. do 4 right.
      destruct (proj1 Hfails eq_refl) as (item & Hin & Hfail). eauto.
  - destruct keys as [| key keys];
      cbn [iter_schedule fmap list_fmap init_schedules new_Schedule
           mbind result_bind Py.bind is_ok].
    + split; [discriminate |].
      intros [H | [H | [(v & [=] & _) | [(ks & [= <-] & Hne)
                | (its & item & [=] & _)]]]];
        [contradiction | discriminate | contradiction].
    + split; [| reflexivity]. intros _. do 3 right. left.
      eexists. split; [reflexivity | discriminate].
  - destruct v as [[| c r] | n |];
      cbn [iter_schedule characters init_schedules new_Schedule
           mbind result_bind Py.bind is_ok].
    + split; [discriminate |].
      intros [H | [H | [(v & [= <-] & Hne) | [(ks & [=] & _)
                | (its & item & [=] & _)]]]];
        [contradiction | discriminate | contradiction].
    + split; [| reflexivity]. intros _. right. right. left.
      eexists. split; [reflexivity | discriminate].
    + split; [| reflexivity]. intros _. right. right. left.
      eexists. split; [reflexivity | discriminate].
    + split; [| reflexivity]. intros _. right. right. left.
      eexists. split; [reflexivity | discriminate].
Qed.

(** X9: the extras of a constructed meeting are the entries of the document
    other than chair, description, project and schedule. *)
Theorem Meeting_init_extras clock name doc lm :
  Meeting_init clock name doc = Ok lm →
  ∀ k, extras lm !! k
       = if bool_decide (k ∈ ["chair"; "description"; "project"; "schedule"])
         then None else entries doc !! k.
Proof.
  unfold Meeting_init. intros H.
  apply bind_Ok in H as (chair & _ & H).
  apply bind_Ok in H as (descr & _ & H).
  apply bind_Ok in H as (proj & _ & H).
  destruct (schedule doc) as [entry |]; [| discriminate].
  apply bind_Ok in H as (items & _ & H).
  apply bind_Ok in H as (self & _ & [= <-]). cbn [extras foldl].
  intros k. rewrite !lookup_delete.
  case_bool_decide as Hk.
  - repeat (apply elem_of_cons in Hk as [-> | Hk];
            [repeat case_decide; congruence |]).
    apply elem_of_nil in Hk as [].
  - repeat case_decide; try reflexivity; exfalso; apply Hk; subst k;
      set_solver.
Qed.

Lemma Meeting_init_extras_witness :
  Meeting_init example_clock (Some "meetings/alpha.team.yaml")
    example_document = Ok example_loaded
  ∧ extras example_loaded !! "agenda_url"
    = Some (YStr "https://example.org/agenda")
  ∧ extras example_loaded !! "project" = None.
Proof.
  assert (Hinit : Meeting_init example_clock (Some "meetings/alpha.team.yaml")
                    example_document = Ok example_loaded)
    by (vm_compute; reflexivity).
  split; [exact Hinit |].
  split; rewrite (Meeting_init_extras _ _ _ _ Hinit); reflexivity.
Defined.

(** ** Conversion to calendar events *)

Section Events.

Import Ical.

Lemma hour_bounds (t : datetime) : 0 ≤ hour t ≤ 23.
Proof.
  unfold hour. pose proof (time_of_bounds t) as Htod.
  rewrite us_per_day_eq in Htod. rewrite us_per_hour_eq.
  pose proof (Z.div_pos (time_of t) 3600000000).
  pose proof (Z.div_lt_upper_bound (time_of t) 3600000000 24). lia.
Qed.

Lemma minute_bounds (t : datetime) : 0 ≤ minute t ≤ 59.
Proof.
  unfold minute. rewrite us_per_hour_eq, us_per_minute_eq.
  pose proof (Z.mod_pos_bound (time_of t) 3600000000).
  pose proof (Z.div_pos (time_of t mod 3600000000) 60000000).
  pose proof (Z.div_lt_upper_bound (time_of t mod 3600000000) 60000000 60).
  lia.
Qed.

(** Building the instant again from its date and the schedule's hour and
    minute, as [add_meeting] does, gives the same instant. *)
Lemma next_occurrence_rebuild (sch : Schedule) (t : datetime) :
  Schedule_next_occurrence sch = Ok t →
  at_hm (toordinal t) (hour (time sch)) (minute (time sch)) = t.
Proof.
  unfold Schedule_next_occurrence. intros H.
  apply bind_Ok in H as (w & _ & H).
  apply bind_Ok in H as (next & _ & [= <-]).
  rewrite toordinal_at_hm by auto using hour_bounds, minute_bounds.
  reflexivity.
Qed.

Lemma schedule_event_Ok lm sch ev :
  schedule_event lm sch = Ok ev →
  summary ev = m_project (attributes lm)
  ∧ (∃ c, irc sch = YStr c ∧ location ev = "#" ++ c)
  ∧ description ev = event_description lm
  ∧ Schedule_next_occurrence sch = Ok (dtstart ev)
  ∧ rrule ev = ("weekly", freq_interval sch)
  ∧ event_duration ev = timedelta_minutes (duration sch).
Proof.
  unfold schedule_event. intros H.
  apply bind_Ok in H as (loc & Hloc & H).
  apply bind_Ok in H as (next & Hnext & H).
  apply bind_Ok in H as (d & Hd & [= <-]). simpl.
  split; [reflexivity |]. split.
  { unfold event_location in Hloc. destruct (irc sch) as [c | |];
      try discriminate. injection Hloc as <-. eauto. }
  split; [reflexivity |].
  split; [rewrite (next_occurrence_rebuild _ _ Hnext); exact Hnext |].
  split; [reflexivity |].
  unfold timedelta_of_minutes in Hd.
  destruct (_ && _); [injection Hd as <-; reflexivity | discriminate].
Qed.

Lemma add_events_Ok lm schedules cal cal' :
  add_events lm schedules cal = Ok cal' →
  prodid cal' = prodid cal ∧ version cal' = version cal
  ∧ calname cal' = calname cal ∧ caldesc cal' = caldesc cal
  ∧ ∃ evs, components cal' = (components cal ++ evs)%list
           ∧ length evs = length schedules
           ∧ ∀ (i : nat) sch, schedules !! i = Some sch →
               ∃ ev, evs !! i = Some ev ∧ schedule_event lm sch = Ok ev.
Proof.
  revert cal. induction schedules as [| sch schedules IH]; intros cal; simpl.
  - intros [= <-]. repeat split. exists []. rewrite app_nil_r.
    repeat split. intros i sch Hsch. rewrite lookup_nil in Hsch.
    discriminate.
  - intros H. apply bind_Ok in H as (ev & Hev & H).
    apply IH in H as (Hp & Hv & Hn & Hd & evs & Hevs & Hlen & Hall).
    simpl in Hp, Hv, Hn, Hd, Hevs. repeat split; try assumption.
    exists (ev :: evs). rewrite Hevs, <- app_assoc.
    split; [reflexivity |]. split; [simpl; rewrite Hlen; reflexivity |].
    intros [| i] sch' Hsch'; [injection Hsch' as <-; eauto |].
    exact (Hall i sch' Hsch').
Qed.

Lemma add_events_fails lm schedules cal :
  is_ok (add_events lm schedules cal) = false
  ↔ ∃ sch, sch ∈ schedules ∧ is_ok (schedule_event lm sch) = false.
Proof.
  revert cal. induction schedules as [| sch schedules IH]; intros cal; simpl.
  - split; [discriminate |]. intros (sch & Hin & _).
    apply elem_of_nil in Hin as [].
  - destruct (schedule_event lm sch) as [ev | e] eqn:Hev;
      cbn [mbind result_bind Py.bind].
    + rewrite IH. split.
      * intros (sch' & Hin & Hfail). exists sch'. split; [right |]; assumption.
      * intros (sch' & Hin & Hfail).
        apply elem_of_cons in Hin as [-> | Hin]; [| eauto].
        rewrite Hev in Hfail. discriminate.
    + split; [| reflexivity]. intros _. exists sch. split; [left |].
      rewrite Hev. reflexivity.
Qed.

Lemma timedelta_of_constructed now m y s :
  constructed now m y s →
  timedelta_of_minutes (duration s) = Ok (timedelta_minutes (duration s)).
Proof.
  intros C. apply constructed_duration_bounds in C.
  unfold timedelta_of_minutes, MAXORDINAL in *.
  assert (-999999999 ≤ duration s / 1440 ≤ 999999999).
  { split; [apply Z.div_le_lower_bound | apply Z.div_le_upper_bound]; lia. }
  destruct (Z.leb_spec (-999999999) (duration s / 1440)); [| lia].
  destruct (Z.leb_spec (duration s / 1440) 999999999); [| lia].
  reflexivity.
Qed.

(** The schedules of a constructed meeting are constructed. *)
Lemma Meeting_init_constructed clock name doc lm s :
  Meeting_init clock name doc = Ok lm →
  s ∈ m_schedules (attributes lm) →
  ∃ now y, constructed now (attributes lm) y s.
Proof.
  unfold Meeting_init. intros H Hs.
  apply bind_Ok in H as (chair & _ & H).
  apply bind_Ok in H as (descr & _ & H).
  apply bind_Ok in H as (proj & _ & H).
  destruct (schedule doc) as [entry |]; [| discriminate].
  apply bind_Ok in H as (items & _ & H).
  apply bind_Ok in H as (self & Hself & [= <-]). cbn [attributes] in *.
  apply init_schedules_Ok in Hself
    as (Hc & Hd & Hp & Hf & records & ss & _ & Hss & Hlen & Hall).
  simpl in Hss, Hp, Hf. rewrite Hss in Hs.
  apply list_elem_of_lookup in Hs as [i Hi].
  assert (Hrec : is_Some (records !! i)).
  { apply lookup_lt_is_Some. rewrite <- Hlen. eapply lookup_lt_Some, Hi. }
  destruct Hrec as [rec Hrec].
  destruct (Hall i rec Hrec) as (s' & Hs' & Hinit).
  rewrite Hi in Hs'. injection Hs' as <-.
  exists (clock (0 + i)%nat), rec. apply Schedule_init_Ok.
  rewrite <- Hinit. apply Schedule_init_ext; simpl; congruence.
Qed.

End Events.

(** X10: when [add_meeting] returns, the calendar has gained one event for
    each schedule of the meeting, in order, after the events it had; the
    event of a schedule carries the meeting's project as summary, the
    channel with a hash sign as location, the instant that
    [next_occurrence()] returns as start, the weekly rule with the
    schedule's interval, and the schedule's duration. *)
Theorem add_meeting_events cal lm cal' :
  Ical.add_meeting cal lm = Ok cal' →
  Ical.prodid cal' = Ical.prodid cal
  ∧ Ical.calname cal' = Ical.calname cal
  ∧ ∃ evs,
      Ical.components cal' = (Ical.components cal ++ evs)%list
      ∧ length evs = length (m_schedules (attributes lm))
      ∧ ∀ (i : nat) sch, m_schedules (attributes lm) !! i = Some sch →
          ∃ ev, evs !! i = Some ev
            ∧ Ical.summary ev = m_project (attributes lm)
            ∧ (∃ c, irc sch = YStr c ∧ Ical.location ev = "#" ++ c)
            ∧ Schedule_next_occurrence sch = Ok (Ical.dtstart ev)
            ∧ Ical.rrule ev = ("weekly", freq_interval sch)
            ∧ Ical.event_duration ev = timedelta_minutes (duration sch).
Proof.
  unfold Ical.add_meeting. intros H.
  apply add_events_Ok in H as (Hp & _ & Hn & _ & evs & Hevs & Hlen & Hall).
  split; [exact Hp |]. split; [exact Hn |].
  exists evs. split; [exact Hevs |]. split; [exact Hlen |].
  intros i sch Hsch. destruct (Hall i sch Hsch) as (ev & Hev & Hmake).
  exists ev. split; [exact Hev |].
  apply schedule_event_Ok in Hmake. tauto.
Qed.

(** X11: for a meeting that [Meeting.__init__] constructed, [add_meeting]
    fails exactly when a schedule has a channel that is not a string or a
    first occurrence after 9999-12-31; the exception is then TypeError or
    OverflowError. *)
Theorem add_meeting_failure clock name doc lm cal :
  Meeting_init clock name doc = Ok lm →
  (is_ok (Ical.add_meeting cal lm) = false
   ↔ ∃ sch, sch ∈ m_schedules (attributes lm)
            ∧ ((∀ c, irc sch ≠ YStr c)
               ∨ Schedule_next_occurrence sch = Raise OverflowError))
  ∧ (∀ e, Ical.add_meeting cal lm = Raise e →
          e = TypeError ∨ e = OverflowError).
Proof.
  intros Hinit.
  assert (Hevent : ∀ sch, sch ∈ m_schedules (attributes lm) →
    match Ical.schedule_event lm sch with
    | Ok _ => (∃ c, irc sch = YStr c)
              ∧ is_ok (Schedule_next_occurrence sch) = true
    | Raise e => (e = TypeError ∧ ∀ c, irc sch ≠ YStr c)
                 ∨ (e = OverflowError
                    ∧ Schedule_next_occurrence sch = Raise OverflowError)
    end).
  { intros sch Hsch.
    destruct (Meeting_init_constructed _ _ _ _ _ Hinit Hsch)
      as (now & y & C).
    unfold Ical.schedule_event, Ical.event_location.
    destruct (irc sch) as [c | n |]; cbn [mbind result_bind Py.bind];
      [| left; split; [reflexivity | discriminate]
       | left; split; [reflexivity | discriminate]].
    rewrite (timedelta_of_constructed _ _ _ _ C).
    destruct (c_interval _ _ _ _ C) as (date & Hdate & _).
    apply DATES_lookup in Hdate as (w & _ & Hday & _).
    destruct (Schedule_next_occurrence sch) as [t | e] eqn:Hnext;
      cbn [mbind result_bind Py.bind]; [eauto |].
    right. unfold Schedule_next_occurrence in Hnext.
    rewrite (proj2 (getitem_Ok _ _ _) Hday) in Hnext.
    cbn [mbind result_bind Py.bind] in Hnext.
    destruct (add _ _) eqn:Hadd; [discriminate |].
    apply add_Raise in Hadd as [-> _]. injection Hnext as <-. auto. }
  split.
  - unfold Ical.add_meeting. rewrite add_events_fails. split.
    + intros (sch & Hin & Hfail). exists sch. split; [exact Hin |].
      specialize (Hevent sch Hin).
      destruct (Ical.schedule_event lm sch); [discriminate |].
      destruct Hevent as [[_ H] | [_ H]]; auto.
    + intros (sch & Hin & Hbad). exists sch. split; [exact Hin |].
      specialize (Hevent sch Hin).
      destruct (Ical.schedule_event lm sch); [| reflexivity].
      destruct Hevent as [[c Hc] Hok].
      destruct Hbad as [Hbad | Hbad]; [destruct (Hbad c Hc) |].
      rewrite Hbad in Hok. discriminate.
  - unfold Ical.add_meeting. intros e.
    generalize cal. revert Hevent.
    induction (m_schedules (attributes lm)) as [| sch l IH];
      intros Hevent cal0; simpl; [discriminate |].
    pose proof (Hevent sch ltac:(left)) as Hsch.
    destruct (Ical.schedule_event lm sch) as [ev | e'];
      cbn [mbind result_bind Py.bind].
    + apply IH. intros sch' Hin. apply Hevent. right. exact Hin.
    + intros [= <-]. destruct Hsch as [[-> _] | [-> _]]; auto.
Qed.

Lemma add_meeting_events_witness :
  Ical.add_meeting (Ical.Yaml2IcalCalendar None None) example_loaded
  = Ok example_calendar
  ∧ ∃ evs,
      Ical.components example_calendar = ([] ++ evs)%list
      ∧ length evs = length (m_schedules (attributes example_loaded)).
Proof.
  assert (Hadd : Ical.add_meeting (Ical.Yaml2IcalCalendar None None)
                   example_loaded = Ok example_calendar)
    by (vm_compute; reflexivity).
  split; [exact Hadd |].
  destruct (add_meeting_events _ _ _ Hadd) as (_ & _ & evs & Hevs & Hlen & _).
  exists evs. split; [exact Hevs | exact Hlen].
Defined.

Lemma add_meeting_failure_witness :
  Meeting_init example_clock (Some "beta.yaml") numeric_channel_document
  = Ok numeric_channel_loaded
  ∧ is_ok (Ical.add_meeting (Ical.Yaml2IcalCalendar None None)
             numeric_channel_loaded) = false.
Proof.
  assert (Hinit : Meeting_init example_clock (Some "beta.yaml")
                    numeric_channel_document = Ok numeric_channel_loaded)
    by (vm_compute; reflexivity).
  split; [exact Hinit |].
  apply (proj1 (add_meeting_failure _ _ _ _ (Ical.Yaml2IcalCalendar None None)
                  Hinit)).
  eexists. split; [left |]. left. intros c. vm_compute. discriminate.
Defined.

(** ** Writing the calendars *)

Section Convert.

Import Ical Posixpath.

Lemma append_inj_l (a b b' : string) : a ++ b = a ++ b' → b = b'.
Proof.
  induction a as [| x a IH]; [auto |].
  rewrite !append_cons. intros [= H]. auto.
Qed.

Lemma startswith_sep_occurs s : occurs "/" s = false → startswith_sep s = false.
Proof.
  destruct s as [| a r]; [reflexivity |]. simpl.
  intros H. apply orb_false_iff in H as [H _].
  destruct a as [[] [] [] [] [] [] [] []]; first [reflexivity | discriminate H].
Qed.

(** A name without a slash is joined below the directory, and different
    names give different paths. *)
Lemma join_inside a b :
  occurs "/" b = false →
  join a b = (if bool_decide (a = "") || endswith_sep a
              then a ++ b else a ++ "/" ++ b).
Proof. intros H. unfold join. rewrite startswith_sep_occurs by exact H. done. Qed.

Lemma join_inj a b b' :
  occurs "/" b = false → occurs "/" b' = false →
  join a b = join a b' → b = b'.
Proof.
  intros Hb Hb'. rewrite !join_inside by assumption.
  destruct (_ || _); intros H; apply append_inj_l in H; [exact H |].
  apply (append_inj_l "/"). exact H.
Qed.

Lemma write_each_Ok dir meetings d d' :
  write_each dir meetings d = Ok d' →
  (∀ p, (∀ m, m ∈ meetings → join dir (outfile m) ≠ p) → d' !! p = d !! p)
  ∧ ∀ (i : nat) m, meetings !! i = Some m →
      (∀ (j : nat) m', (i < j)%nat → meetings !! j = Some m' →
                       join dir (outfile m') ≠ join dir (outfile m)) →
      ∃ cal, add_meeting (Yaml2IcalCalendar None None) m = Ok cal
             ∧ d' !! join dir (outfile m) = Some cal.
Proof.
  revert d. induction meetings as [| m0 meetings IH]; intros d; simpl.
  - intros [= <-]. split; [reflexivity |].
    intros i m Hm. rewrite lookup_nil in Hm. discriminate.
  - intros H. apply bind_Ok in H as (cal0 & Hcal0 & H).
    apply IH in H as [Hother Hlast]. unfold write_to_disk in *. split.
    + intros p Hp. rewrite Hother.
      * apply lookup_insert_ne. apply Hp. left.
      * intros m Hm. apply Hp. right. exact Hm.
    + intros [| i] m Hm Hlater.
      * injection Hm as <-. exists cal0. split; [exact Hcal0 |].
        rewrite Hother; [apply lookup_insert_eq |].
        intros m' Hm'. apply list_elem_of_lookup in Hm' as [j Hj].
        apply (Hlater (S j)); [lia | exact Hj].
      * apply (Hlast i m Hm). intros j m' Hlt Hm'.
        apply (Hlater (S j)); [lia | exact Hm'].
Qed.

(** The events that [add_meeting] appends do not depend on the calendar. *)
Lemma add_events_anywhere lm schedules cal cal0 cal' :
  add_events lm schedules cal = Ok cal' →
  ∃ evs cal0', components cal' = (components cal ++ evs)%list
               ∧ add_events lm schedules cal0 = Ok cal0'
               ∧ components cal0' = (components cal0 ++ evs)%list.
Proof.
  revert cal cal0. induction schedules as [| sch schedules IH];
    intros cal cal0; simpl.
  - intros [= <-]. exists [], cal0. rewrite !app_nil_r. auto.
  - intros H. apply bind_Ok in H as (ev & Hev & H). rewrite Hev.
    cbn [mbind result_bind Py.bind].
    destruct (IH _ (mkCalendar (prodid cal0) (version cal0) (calname cal0)
                      (caldesc cal0) (components cal0 ++ [ev])) H)
      as (evs & cal0' & Hevs & Hrun & Hevs0).
    simpl in Hevs, Hevs0.
    exists (ev :: evs), cal0'. rewrite Hevs, Hevs0, <- !app_assoc. auto.
Qed.

Lemma add_meetings_to_Ok cal meetings cal' :
  add_meetings_to cal meetings = Ok cal' →
  calname cal' = calname cal ∧ caldesc cal' = caldesc cal
  ∧ prodid cal' = prodid cal ∧ version cal' = version cal
  ∧ ∃ cals,
      Forall2 (λ m c, add_meeting (Yaml2IcalCalendar None None) m = Ok c)
        meetings cals
      ∧ components cal'
        = (components cal ++ concat (components <$> cals))%list.
Proof.
  revert cal. induction meetings as [| m meetings IH]; intros cal; simpl.
  - intros [= <-]. repeat split. exists []. split; [constructor |].
    simpl. rewrite app_nil_r. reflexivity.
  - intros H. apply bind_Ok in H as (cal1 & Hcal1 & H).
    apply IH in H as (Hn & Hd & Hp & Hv & cals & Hcals & Hcomp).
    unfold add_meeting in Hcal1.
    pose proof (add_events_Ok _ _ _ _ Hcal1) as (Hp1 & Hv1 & Hn1 & Hd1 & _).
    destruct (add_events_anywhere _ _ _ (Yaml2IcalCalendar None None) _ Hcal1)
      as (evs & c & Hevs & Hrun & Hc).
    repeat split; try congruence.
    exists (c :: cals). split; [constructor; assumption |].
    rewrite Hcomp, Hevs, fmap_cons. simpl in Hc. simpl. rewrite Hc.
    rewrite <- app_assoc. reflexivity.
Qed.

End Convert.

(** X12: with an output directory and no single output file,
    [convert_meetings_to_ical] leaves at [outputdir/outfile] of a meeting
    the calendar of that meeting alone, provided no later meeting of the
    list has the same [outfile] (a later one would overwrite it); files
    under other paths are left as they were.  (The [outfile] of a meeting
    has no slash, so the file is directly inside the directory.) *)
Theorem convert_one_file_per_meeting meetings dir calname caldesc d d' :
  dir ≠ "" →
  (∀ m, m ∈ meetings → occurs "/" (outfile m) = false) →
  Ical.convert_meetings_to_ical meetings (Some dir) None calname caldesc d
  = Ok d' →
  (∀ p, (∀ m, m ∈ meetings → Posixpath.join dir (outfile m) ≠ p) →
        d' !! p = d !! p)
  ∧ ∀ (i : nat) m, meetings !! i = Some m →
      Posixpath.join dir (outfile m)
      = (if Posixpath.endswith_sep dir then dir ++ outfile m
         else dir ++ "/" ++ outfile m)
      ∧ ((∀ (j : nat) m', (i < j)%nat → meetings !! j = Some m' →
                          outfile m' ≠ outfile m) →
         ∃ cal, Ical.add_meeting (Ical.Yaml2IcalCalendar None None) m = Ok cal
                ∧ d' !! Posixpath.join dir (outfile m) = Some cal).
Proof.
  intros Hdir Hnoslash H. unfold Ical.convert_meetings_to_ical in H.
  assert (Htruthy : Ical.truthy (Some dir) = Some dir)
    by (destruct dir; [contradiction | reflexivity]).
  rewrite Htruthy in H. apply bind_Ok in H as (d1 & Hd1 & [= <-]).
  apply write_each_Ok in Hd1 as [Hother Hlast].
  split; [exact Hother |].
  intros i m Hm.
  assert (Hin : m ∈ meetings) by (eapply list_elem_of_lookup_2, Hm).
  split.
  - rewrite join_inside by (apply Hnoslash, Hin).
    rewrite (bool_decide_eq_false_2 _ Hdir). reflexivity.
  - intros Hlater. apply (Hlast i m Hm).
    intros j m' Hlt Hm' Hsame. apply (Hlater j m' Hlt Hm').
    apply (join_inj dir); [| apply Hnoslash, Hin | exact Hsame].
    apply Hnoslash. eapply list_elem_of_lookup_2, Hm'.
Qed.

Lemma convert_one_file_per_meeting_witness :
  Ical.convert_meetings_to_ical two_loaded (Some "out") None None None ∅
  = Ok per_meeting_disk
  ∧ Posixpath.join "out" (outfile example_loaded) = "out/alpha.team.ics"
  ∧ per_meeting_disk !! "out/alpha.team.ics" = Some example_calendar.
Proof.
  assert (Hconv : Ical.convert_meetings_to_ical two_loaded (Some "out") None
                    None None ∅ = Ok per_meeting_disk)
    by (vm_compute; reflexivity).
  assert (Hdir : "out" ≠ "") by discriminate.
  assert (Hnoslash : ∀ m, m ∈ two_loaded → occurs "/" (outfile m) = false).
  { intros m Hm. apply elem_of_cons in Hm as [-> | Hm]; [reflexivity |].
    apply list_elem_of_singleton in Hm as ->. reflexivity. }
  assert (Hcal : Ical.add_meeting (Ical.Yaml2IcalCalendar None None)
                   example_loaded = Ok example_calendar)
    by (vm_compute; reflexivity).
  destruct (convert_one_file_per_meeting two_loaded "out" None None ∅
              per_meeting_disk Hdir Hnoslash Hconv) as [_ Hfiles].
  destruct (Hfiles 0%nat example_loaded eq_refl) as [_ Hlast].
  destruct Hlast as (cal & Hcal' & Hd).
  { intros [| [| j]] m' Hlt Hm'; [lia | | discriminate].
    injection Hm' as <-. discriminate. }
  rewrite Hcal in Hcal'. injection Hcal' as <-.
  split; [exact Hconv |]. split; [reflexivity | exact Hd].
Defined.

(** X13: with a single output file and no output directory,
    [convert_meetings_to_ical] writes one calendar, with the given name and
    description, whose events are those of the calendars of the meetings
    taken one by one, in the order of the meetings; nothing else is
    written. *)
Theorem convert_single_file meetings file calname caldesc d d' :
  file ≠ "" →
  Ical.convert_meetings_to_ical meetings None (Some file) calname caldesc d
  = Ok d' →
  ∃ cal cals,
    d' = <[file := cal]> d
    ∧ Ical.calname cal = calname ∧ Ical.caldesc cal = caldesc
    ∧ Forall2 (λ m c, Ical.add_meeting (Ical.Yaml2IcalCalendar None None) m
                      = Ok c) meetings cals
    ∧ Ical.components cal = concat (Ical.components <$> cals)
    ∧ length (Ical.components cal)
      = sum_list ((λ m, length (m_schedules (attributes m))) <$> meetings).
Proof.
  intros Hfile H. unfold Ical.convert_meetings_to_ical in H.
  assert (Htruthy : Ical.truthy (Some file) = Some file)
    by (destruct file; [contradiction | reflexivity]).
  rewrite Htruthy in H. cbn [Ical.truthy mbind result_bind Py.bind] in H.
  apply bind_Ok in H as (cal & Hcal & [= <-]).
  apply add_meetings_to_Ok in Hcal as (Hn & Hd & _ & _ & cals & Hcals & Hcomp).
  simpl in Hn, Hd, Hcomp.
  exists cal, cals. repeat split; try assumption.
  rewrite Hcomp. clear Hcomp.
  induction Hcals as [| m c meetings cals Hm _ IH]; [reflexivity |].
  rewrite !fmap_cons. simpl. rewrite length_app, IH.
  apply add_meeting_events in Hm as (_ & _ & evs & Hevs & Hlen & _).
  simpl in Hevs. rewrite Hevs, Hlen. reflexivity.
Qed.

Lemma convert_single_file_witness :
  Ical.convert_meetings_to_ical two_loaded None (Some "all.ics")
    (Some "Team") (Some "All meetings") ∅
  = Ok single_file_disk
  ∧ ∃ cal, single_file_disk = <["all.ics" := cal]> ∅
           ∧ Ical.calname cal = Some "Team"
           ∧ length (Ical.components cal) = 3%nat.
Proof.
  assert (Hconv : Ical.convert_meetings_to_ical two_loaded None
                    (Some "all.ics") (Some "Team") (Some "All meetings") ∅
                  = Ok single_file_disk)
    by (vm_compute; reflexivity).
  assert (Hfile : "all.ics" ≠ "") by discriminate.
  split; [exact Hconv |].
  destruct (convert_single_file two_loaded "all.ics" (Some "Team")
              (Some "All meetings") ∅ single_file_disk Hfile Hconv)
    as (cal & cals & Hd & Hn & _ & _ & _ & Hlen).
  exists cal. split; [exact Hd |]. split; [exact Hn |].
  rewrite Hlen. reflexivity.
Defined.

(** ** The expansion as one sequence of instances *)

Section Flat.

Lemma record_all_app t1 t2 (all : instances) :
  record_all (t1 ++ t2) all = record_all t2 (record_all t1 all).
Proof. apply foldl_app. Qed.

Lemma add_occurrences_flat project s occs all all' :
  add_occurrences project s occs all = Ok all'
  ↔ ∃ t, tag_occurrences project s occs = Ok t ∧ all' = record_all t all.
Proof.
  revert all. induction occs as [| o occs IH]; intros all; simpl.
  - split; [intros [= <-]; exists []; auto |].
    intros (t & [= <-] & ->). reflexivity.
  - destruct (MeetingInstance_init project o (duration s)) as [x | e];
      cbn [mbind result_bind Py.bind].
    + rewrite IH. split.
      * intros (t & -> & ->). exists ((irc s, x) :: t). auto.
      * intros (t & Ht & ->).
        destruct (tag_occurrences project s occs) as [t0 |]; [| discriminate].
        injection Ht as <-. exists t0. auto.
    + split; [discriminate | intros (t & [=] & _)].
Qed.

Lemma add_schedules_flat start end_ project schedules all all' :
  add_schedules start end_ project schedules all = Ok all'
  ↔ ∃ t, flat_schedules start end_ project schedules = Ok t
         ∧ all' = record_all t all.
Proof.
  revert all. induction schedules as [| s schedules IH]; intros all; simpl.
  - split; [intros [= <-]; exists []; auto |].
    intros (t & [= <-] & ->). reflexivity.
  - destruct (occurrences s start end_) as [occs | e];
      cbn [mbind result_bind Py.bind];
      [| split; [discriminate | intros (t & [=] & _)]].
    split.
    + intros H. apply bind_Ok in H as (all1 & Hall1 & H).
      apply add_occurrences_flat in Hall1 as (a & -> & ->).
      apply IH in H as (b & -> & ->).
      exists (a ++ b)%list. rewrite record_all_app. auto.
    + intros (t & Ht & ->).
      destruct (tag_occurrences project s occs) as [a |] eqn:Ha;
        [| discriminate].
      cbn [mbind result_bind Py.bind] in Ht.
      destruct (flat_schedules start end_ project schedules) as [b |] eqn:Hb;
        [| discriminate].
      injection Ht as <-.
      rewrite (proj2 (add_occurrences_flat project s occs all
                        (record_all a all)))
        by (rewrite Ha; eauto).
      cbn [mbind result_bind Py.bind].
      apply IH. exists b. rewrite record_all_app. auto.
Qed.

Lemma add_meetings_flat start end_ meetings all all' :
  add_meetings start end_ meetings all = Ok all'
  ↔ ∃ t, flat_meetings start end_ meetings = Ok t ∧ all' = record_all t all.
Proof.
  revert all. induction meetings as [| m meetings IH]; intros all; simpl.
  - split; [intros [= <-]; exists []; auto |].
    intros (t & [= <-] & ->). reflexivity.
  - split.
    + intros H. apply bind_Ok in H as (all1 & Hall1 & H).
      apply add_schedules_flat in Hall1 as (a & -> & ->).
      apply IH in H as (b & -> & ->).
      exists (a ++ b)%list. rewrite record_all_app. auto.
    + intros (t & Ht & ->).
      destruct (flat_schedules start end_ (m_project m) (m_schedules m))
        as [a |] eqn:Ha; [| discriminate].
      cbn [mbind result_bind Py.bind] in Ht.
      destruct (flat_meetings start end_ meetings) as [b |] eqn:Hb;
        [| discriminate].
      injection Ht as <-.
      rewrite (proj2 (add_schedules_flat start end_ (m_project m)
                        (m_schedules m) all (record_all a all)))
        by eauto.
      cbn [mbind result_bind Py.bind].
      apply IH. exists b. rewrite record_all_app. auto.
Qed.

Lemma channel_of_snoc c t c0 x0 :
  channel_of c (t ++ [(c0, x0)])
  = (channel_of c t ++ if decide (c0 = c) then [x0] else [])%list.
Proof.
  unfold channel_of. rewrite filter_app, fmap_app. f_equal.
  rewrite filter_cons, filter_nil. simpl.
  destruct (decide (c0 = c)); reflexivity.
Qed.

Lemma append_instance_mem (all : instances) c0 x0 c l :
  NoDup all.*1 →
  (c, l) ∈ append_instance all c0 x0
  ↔ (c ≠ c0 ∧ (c, l) ∈ all)
    ∨ (c = c0 ∧ ((∃ l0, (c0, l0) ∈ all ∧ l = (l0 ++ [x0])%list)
                 ∨ ((c0 ∉ all.*1) ∧ l = [x0]))).
Proof.
  induction all as [| [c1 l1] all IH]; intros Hnd.
  - simpl. rewrite list_elem_of_singleton. split.
    + intros [= -> ->]. right. split; [reflexivity |]. right.
      split; [apply not_elem_of_nil | reflexivity].
    + intros [[_ H] | [-> [(l0 & H & _) | [_ ->]]]];
        [apply elem_of_nil in H as [] | apply elem_of_nil in H as []
         | reflexivity].
  - rewrite fmap_cons in Hnd. apply NoDup_cons in Hnd as [Hc1 Hnd].
    specialize (IH Hnd).
    assert (Hfresh : ∀ l', (c1, l') ∉ all).
    { intros l' Hin. apply Hc1. apply list_elem_of_fmap.
      exists (c1, l'). auto. }
    cbn [append_instance]. destruct (decide (c1 = c0)) as [-> | Hne].
    + rewrite !elem_of_cons. split.
      * intros [[= -> ->] | Hin].
        -- right. split; [reflexivity |]. left. exists l1.
           split; [left |]; reflexivity.
        -- left. split; [| right; exact Hin].
           intros ->. exact (Hfresh l Hin).
      * intros [[Hne [[= ? ?] | Hin]] | [-> [(l0 & Hin & ->) | [Hnot _]]]].
        -- contradiction.
        -- right. exact Hin.
        -- apply elem_of_cons in Hin as [[= ->] | Hin];
             [left; reflexivity | destruct (Hfresh l0 Hin)].
        -- exfalso. apply Hnot. rewrite fmap_cons. left.
    + rewrite !elem_of_cons, IH. rewrite fmap_cons. split.
      * intros [[= -> ->] | [[Hc Hin] | [-> [(l0 & Hin & ->) | [Hnot ->]]]]].
        -- left. split; [exact Hne | left; reflexivity].
        -- left. split; [exact Hc | right; exact Hin].
        -- right. split; [reflexivity |]. left. exists l0.
           split; [right; exact Hin | reflexivity].
        -- right. split; [reflexivity |]. right. split; [| reflexivity].
           intros Hin. apply elem_of_cons in Hin as [-> | Hin]; auto.
      * intros [[Hc [[= -> ->] | Hin]] | [-> [(l0 & Hin & ->) | [Hnot ->]]]].
        -- left. reflexivity.
        -- right. left. auto.
        -- right. right. split; [reflexivity |]. left.
           apply elem_of_cons in Hin as [[= ? ?] | Hin]; [congruence |].
           exists l0. auto.
        -- right. right. split; [reflexivity |]. right. split; [| reflexivity].
           intros Hin. apply Hnot. right. exact Hin.
Qed.

Lemma grouped_snoc t (all : instances) c0 x0 :
  grouped t all → grouped (t ++ [(c0, x0)]) (append_instance all c0 x0).
Proof.
  intros [Hnd Hall]. split; [apply append_instance_NoDup, Hnd |].
  intros c l. rewrite append_instance_mem by exact Hnd.
  rewrite channel_of_snoc.
  assert (Hkey : c0 ∈ all.*1 ↔ channel_of c0 t ≠ []).
  { split.
    - intros Hin. apply list_elem_of_fmap in Hin as ([c' l'] & Heq & Hin).
      simpl in Heq. subst c'. apply Hall in Hin as [-> Hne]. exact Hne.
    - intros Hne. apply list_elem_of_fmap. exists (c0, channel_of c0 t).
      split; [reflexivity |]. apply Hall. auto. }
  split.
  - intros [[Hc Hin] | [-> [(l0 & Hin & ->) | [Hnot ->]]]].
    + apply Hall in Hin as [-> Hne].
      destruct (decide (c0 = c)); [congruence |]. rewrite app_nil_r. auto.
    + apply Hall in Hin as [-> _].
      destruct (decide (c0 = c0)); [| congruence].
      split; [reflexivity |]. intros H. apply app_eq_nil in H as [_ [=]].
    + destruct (decide (c0 = c0)); [| congruence].
      destruct (channel_of c0 t) as [| y r] eqn:Hch;
        [split; [reflexivity | discriminate] |].
      exfalso. apply Hnot, Hkey. discriminate.
  - intros [-> Hne]. destruct (decide (c0 = c)) as [<- | Hc].
    + right. split; [reflexivity |].
      destruct (channel_of c0 t) as [| y r] eqn:Hch.
      * right. split; [| reflexivity]. rewrite Hkey. auto.
      * left. exists (y :: r). split; [| reflexivity].
        apply Hall. rewrite Hch. split; [reflexivity | discriminate].
    + left. split; [congruence |]. rewrite app_nil_r in *.
      apply Hall. auto.
Qed.

Lemma record_all_grouped t : grouped t (record_all t []).
Proof.
  induction t as [| [c0 x0] t IH] using rev_ind.
  - split; [constructor |]. intros c l. split.
    + intros H. apply elem_of_nil in H as [].
    + intros [-> H]. contradiction H. reflexivity.
  - rewrite record_all_app. apply grouped_snoc, IH.
Qed.

Lemma grouped_unique t (all : instances) c l l' :
  grouped t all → (c, l) ∈ all → (c, l') ∈ all → l = l'.
Proof.
  intros [_ Hall] H H'. apply Hall in H as [-> _], H' as [-> _]. reflexivity.
Qed.

Lemma channel_of_elem c x t :
  x ∈ channel_of c t ↔ (c, x) ∈ t.
Proof.
  unfold channel_of. rewrite list_elem_of_fmap. split.
  - intros ([c' x'] & -> & Hin). apply list_elem_of_filter in Hin as [Hc Hin].
    simpl in Hc. subst c'. exact Hin.
  - intros Hin. exists (c, x). split; [reflexivity |].
    apply list_elem_of_filter. auto.
Qed.

Lemma tag_occurrences_elem project s occs t o :
  tag_occurrences project s occs = Ok t → o ∈ occs →
  (irc s, mkInstance project o (o + timedelta_minutes (duration s))) ∈ t.
Proof.
  revert t. induction occs as [| o' occs IH]; intros t; simpl.
  - intros _ H. apply elem_of_nil in H as [].
  - intros H Ho. apply bind_Ok in H as (x & Hx & H).
    apply bind_Ok in H as (l & Hl & [= <-]).
    apply elem_of_cons in Ho as [-> | Ho]; [| right; eauto].
    unfold MeetingInstance_init in Hx.
    apply bind_Ok in Hx as (e & He & [= <-]).
    apply add_Ok in He as [-> _]. left.
Qed.

Lemma flat_schedules_elem start end_ project schedules t s :
  flat_schedules start end_ project schedules = Ok t → s ∈ schedules →
  ∃ occs, occurrences s start end_ = Ok occs
          ∧ ∀ o, o ∈ occs →
              (irc s, mkInstance project o
                        (o + timedelta_minutes (duration s))) ∈ t.
Proof.
  revert t. induction schedules as [| s' schedules IH]; intros t; simpl.
  - intros _ H. apply elem_of_nil in H as [].
  - intros H Hs. apply bind_Ok in H as (occs & Hoccs & H).
    apply bind_Ok in H as (a & Ha & H).
    apply bind_Ok in H as (b & Hb & [= <-]).
    apply elem_of_cons in Hs as [-> | Hs].
    + exists occs. split; [exact Hoccs |]. intros o Ho.
      apply elem_of_app. left. eapply tag_occurrences_elem; eassumption.
    + destruct (IH b Hb Hs) as (occs' & Hoccs' & Hall).
      exists occs'. split; [exact Hoccs' |]. intros o Ho.
      apply elem_of_app. right. auto.
Qed.

Lemma flat_meetings_elem start end_ meetings t m s :
  flat_meetings start end_ meetings = Ok t →
  m ∈ meetings → s ∈ m_schedules m →
  ∃ occs, occurrences s start end_ = Ok occs
          ∧ ∀ o, o ∈ occs →
              (irc s, mkInstance (m_project m) o
                        (o + timedelta_minutes (duration s))) ∈ t.
Proof.
  revert t. induction meetings as [| m' meetings IH]; intros t; simpl.
  - intros _ H. apply elem_of_nil in H as [].
  - intros H Hm Hs. apply bind_Ok in H as (a & Ha & H).
    apply bind_Ok in H as (b & Hb & [= <-]).
    apply elem_of_cons in Hm as [-> | Hm].
    + destruct (flat_schedules_elem _ _ _ _ _ _ Ha Hs) as (occs & Ho & Hall).
      exists occs. split; [exact Ho |]. intros o Hin.
      apply elem_of_app. left. auto.
    + destruct (IH b Hb Hm Hs) as (occs & Ho & Hall).
      exists occs. split; [exact Ho |]. intros o Hin.
      apply elem_of_app. right. auto.
Qed.

End Flat.

(** X14: the expansion drops nothing: when it completes, every schedule of
    every meeting has its occurrences in the window, and the instance of
    each of them is in the list of the schedule's channel. *)
Theorem expansion_complete start end_ meetings all m s :
  add_meetings start end_ meetings [] = Ok all →
  m ∈ meetings → s ∈ m_schedules m →
  ∃ occs, occurrences s start end_ = Ok occs
    ∧ ∀ o, o ∈ occs →
        ∃ l, (irc s, l) ∈ all
             ∧ mkInstance (m_project m) o
                 (o + timedelta_minutes (duration s)) ∈ l.
Proof.
  intros Hall Hm Hs. apply add_meetings_flat in Hall as (t & Ht & ->).
  destruct (flat_meetings_elem _ _ _ _ _ _ Ht Hm Hs) as (occs & Hoccs & Hin).
  exists occs. split; [exact Hoccs |]. intros o Ho.
  exists (channel_of (irc s) t).
  pose proof (Hin o Ho) as Hx. apply channel_of_elem in Hx.
  split; [| exact Hx].
  apply (record_all_grouped t). split; [reflexivity |].
  intros Hnil. rewrite Hnil in Hx. apply elem_of_nil in Hx as [].
Qed.

Lemma expansion_complete_witness :
  add_meetings example_now example_end overlapping_meetings []
  = Ok overlapping_instances
  ∧ ∃ occs, occurrences monday_1015 example_now example_end = Ok occs
      ∧ ∀ o, o ∈ occs →
          ∃ l, (irc monday_1015, l) ∈ overlapping_instances
               ∧ mkInstance (YStr "beta") o
                   (o + timedelta_minutes (duration monday_1015)) ∈ l.
Proof.
  assert (Hall : add_meetings example_now example_end overlapping_meetings []
                 = Ok overlapping_instances)
    by (vm_compute; reflexivity).
  split; [exact Hall |].
  apply (expansion_complete example_now example_end overlapping_meetings
           overlapping_instances (meeting_with "beta" monday_1015)
           monday_1015 Hall).
  - right. left.
  - left.
Defined.

(** X15: the list recorded under a channel holds the instances of that
    channel in the order of the expansion: meeting by meeting, schedule by
    schedule, occurrence by occurrence; and a channel has a list only if it
    has an instance. *)
Theorem channel_lists_in_order start end_ meetings all :
  add_meetings start end_ meetings [] = Ok all →
  ∃ t, flat_meetings start end_ meetings = Ok t
       ∧ NoDup all.*1
       ∧ ∀ c l, (c, l) ∈ all ↔ l = channel_of c t ∧ l ≠ [].
Proof.
  intros Hall. apply add_meetings_flat in Hall as (t & Ht & ->).
  exists t. split; [exact Ht |]. apply record_all_grouped.
Qed.

Lemma channel_lists_in_order_witness :
  add_meetings example_now example_end overlapping_meetings []
  = Ok overlapping_instances
  ∧ ∃ t, flat_meetings example_now example_end overlapping_meetings = Ok t
         ∧ NoDup overlapping_instances.*1.
Proof.
  assert (Hall : add_meetings example_now example_end overlapping_meetings []
                 = Ok overlapping_instances)
    by (vm_compute; reflexivity).
  split; [exact Hall |].
  destruct (channel_lists_in_order _ _ _ _ Hall) as (t & Ht & Hnd & _).
  exists t. auto.
Defined.

(** ** The verdict of the conflict check *)

Section Verdict.

Lemma bind_Raise {A B} (r : result A) (k : A → result B) (e : exn) :
  r ≫= k = Raise e → r = Raise e ∨ ∃ a, r = Ok a ∧ k a = Raise e.
Proof.
  destruct r as [a | e']; simpl; intros H; [right; eauto | left].
  injection H as ->. reflexivity.
Qed.

Lemma MeetingInstance_init_error project o d e :
  MeetingInstance_init project o d = Raise e → expansion_error e.
Proof.
  unfold MeetingInstance_init. intros H.
  apply bind_Raise in H as [H | (x & _ & [=])].
  apply add_Raise in H as [-> _]. left. reflexivity.
Qed.

Lemma between_loop_error fuel interval i after before e :
  Rrule.between_loop fuel interval i after before = Raise e →
  e = Rrule.year_10000.
Proof.
  revert i. induction fuel as [| fuel IH]; intros i; simpl;
    [discriminate |].
  destruct (before <? i); [discriminate |].
  unfold Rrule.advance. cbv zeta.
  destruct (MAXORDINAL <? _); cbn [mbind result_bind Py.bind];
    [discriminate |].
  destruct (MAXORDINAL <? _); cbn [mbind result_bind Py.bind];
    [intros [= <-]; reflexivity |].
  intros H. apply bind_Raise in H as [H | (l & _ & [=])].
  apply (IH _ H).
Qed.

Lemma occurrences_error s start end_ e :
  occurrences s start end_ = Raise e → expansion_error e.
Proof.
  unfold occurrences. intros H.
  apply bind_Raise in H as [H | (t0 & _ & H)].
  - unfold Schedule_next_occurrence in H.
    apply bind_Raise in H as [H | (w & _ & H)].
    + right. left. unfold getitem in H.
      destruct (WEEKDAYS !! day s); [discriminate |].
      injection H as <-. eauto.
    + cbv zeta in H. apply bind_Raise in H as [H | (n & _ & [=])].
      apply add_Raise in H as [-> _]. left. reflexivity.
  - apply between_loop_error in H as ->. right. right.
    unfold Rrule.year_10000. eauto.
Qed.

Lemma add_occurrences_error project s occs all e :
  add_occurrences project s occs all = Raise e → expansion_error e.
Proof.
  revert all. induction occs as [| o occs IH]; intros all; simpl;
    [discriminate |].
  intros H. apply bind_Raise in H as [H | (x & _ & H)];
    [eapply MeetingInstance_init_error, H | eapply IH, H].
Qed.

Lemma add_schedules_error start end_ project schedules all e :
  add_schedules start end_ project schedules all = Raise e →
  expansion_error e.
Proof.
  revert all. induction schedules as [| s schedules IH]; intros all; simpl;
    [discriminate |].
  intros H. apply bind_Raise in H as [H | (occs & _ & H)];
    [eapply occurrences_error, H |].
  apply bind_Raise in H as [H | (all1 & _ & H)];
    [eapply add_occurrences_error, H | eapply IH, H].
Qed.

Lemma add_meetings_error start end_ meetings all e :
  add_meetings start end_ meetings all = Raise e → expansion_error e.
Proof.
  revert all. induction meetings as [| m meetings IH]; intros all; simpl;
    [discriminate |].
  intros H. apply bind_Raise in H as [H | (all1 & _ & H)];
    [eapply add_schedules_error, H | eapply IH, H].
Qed.

Lemma overlaps_swap a b : overlaps a b = true → overlaps b a = true.
Proof. rewrite !overlaps_iff. tauto. Qed.

Lemma has_conflict_iff l :
  has_conflict l
  ↔ ∃ (i j : nat) a b, i ≠ j ∧ l !! i = Some a ∧ l !! j = Some b
                       ∧ overlaps a b = true.
Proof.
  split.
  - intros (i & j & Hlt & a & b & Ha & Hb & Hov).
    exists i, j, a, b. repeat split; auto. lia.
  - intros (i & j & a & b & Hne & Ha & Hb & Hov).
    destruct (Nat.lt_total i j) as [Hlt | [-> | Hgt]]; [| done |].
    + exists i, j. split; [exact Hlt |]. eauto.
    + exists j, i. split; [exact Hgt |]. exists b, a.
      auto using overlaps_swap.
Qed.

Lemma has_conflict_perm l l' : l ≡ₚ l' → has_conflict l → has_conflict l'.
Proof.
  intros Hp. rewrite !has_conflict_iff.
  apply Permutation_inj in Hp as (_ & f & Hinj & Hf).
  intros (i & j & a & b & Hne & Ha & Hb & Hov).
  exists (f i), (f j), a, b. rewrite <- !Hf.
  split; [intros Heq; apply Hne, Hinj, Heq | auto].
Qed.

Lemma channel_of_perm c t t' : t ≡ₚ t' → channel_of c t ≡ₚ channel_of c t'.
Proof. intros Hp. unfold channel_of. rewrite Hp. reflexivity. Qed.

Lemma grouped_free t (all : instances) :
  grouped t all →
  first_conflict all = None ↔ ∀ c, ¬ has_conflict (channel_of c t).
Proof.
  intros [_ Hall]. rewrite first_conflict_None. split.
  - intros H c (i & j & Hat).
    assert (Hne : channel_of c t ≠ []).
    { intros Hnil. rewrite Hnil in Hat.
      destruct Hat as (_ & a & b & Ha & _). rewrite lookup_nil in Ha.
      discriminate. }
    exact (H c _ (proj2 (Hall _ _) (conj eq_refl Hne)) i j Hat).
  - intros H c l Hin i j Hat. apply Hall in Hin as [-> _].
    apply (H c). exists i, j. exact Hat.
Qed.

Lemma flat_meetings_perm start end_ ms ms' :
  ms ≡ₚ ms' → ∀ t, flat_meetings start end_ ms = Ok t →
  ∃ t', flat_meetings start end_ ms' = Ok t' ∧ t ≡ₚ t'.
Proof.
  induction 1 as [| m ms ms' Hp IH | m1 m2 ms | ms1 ms2 ms3 _ IH1 _ IH2];
    intros t; simpl.
  - intros [= <-]. exists []. auto.
  - intros H. apply bind_Ok in H as (a & Ha & H).
    apply bind_Ok in H as (b & Hb & [= <-]).
    destruct (IH b Hb) as (b' & Hb' & Hbb). rewrite Ha, Hb'.
    cbn [mbind result_bind Py.bind]. exists (a ++ b')%list.
    split; [reflexivity |]. rewrite Hbb. reflexivity.
  - intros H. apply bind_Ok in H as (a2 & -> & H).
    apply bind_Ok in H as (ab & H & [= <-]).
    apply bind_Ok in H as (a1 & -> & H).
    apply bind_Ok in H as (b & -> & [= <-]).
    cbn [mbind result_bind Py.bind]. exists (a1 ++ a2 ++ b)%list.
    split; [reflexivity |]. apply Permutation_app_swap_app.
  - intros H. destruct (IH1 t H) as (t2 & H2 & Hp2).
    destruct (IH2 t2 H2) as (t3 & H3 & Hp3).
    exists t3. split; [exact H3 | etrans; eassumption].
Qed.

Lemma check_Ok now ms :
  check_for_meeting_conflicts now ms = Ok tt
  ↔ ∃ end_ t, add now (timedelta_days 365) = Ok end_
              ∧ flat_meetings now end_ ms = Ok t
              ∧ ∀ c, ¬ has_conflict (channel_of c t).
Proof.
  unfold check_for_meeting_conflicts. cbv zeta. split.
  - intros H. apply bind_Ok in H as (end_ & Hend & H).
    apply bind_Ok in H as (all & Hall & H).
    apply add_meetings_flat in Hall as (t & Ht & ->).
    exists end_, t. split; [exact Hend |]. split; [exact Ht |].
    apply (grouped_free t _ (record_all_grouped t)).
    destruct (first_conflict _) as [[a b] |]; [discriminate | reflexivity].
  - intros (end_ & t & Hend & Ht & Hfree). rewrite Hend.
    cbn [mbind result_bind Py.bind].
    rewrite (proj2 (add_meetings_flat now end_ ms [] (record_all t []))
               (ex_intro _ t (conj Ht eq_refl))).
    cbn [mbind result_bind Py.bind].
    rewrite (proj2 (grouped_free t _ (record_all_grouped t)) Hfree).
    reflexivity.
Qed.

Lemma check_conflict now ms :
  (∃ msg, check_for_meeting_conflicts now ms
          = Raise (MeetingConflictError msg))
  ↔ ∃ end_ t, add now (timedelta_days 365) = Ok end_
              ∧ flat_meetings now end_ ms = Ok t
              ∧ ∃ c, has_conflict (channel_of c t).
Proof.
  unfold check_for_meeting_conflicts. cbv zeta. split.
  - intros (msg & H). apply bind_Raise in H as [H | (end_ & Hend & H)].
    { apply add_Raise in H as [[=] _]. }
    apply bind_Raise in H as [H | (all & Hall & H)].
    { apply add_meetings_error in H as [[=] | [(k & [=]) | (m & [=])]]. }
    apply add_meetings_flat in Hall as (t & Ht & ->).
    exists end_, t. split; [exact Hend |]. split; [exact Ht |].
    destruct (first_conflict _) as [[a b] |] eqn:Hfirst; [| discriminate].
    apply first_conflict_Some in Hfirst
      as (n & c & l & i & j & Hn & Hlt & Hi & Hj & Hov & _).
    apply list_elem_of_lookup_2 in Hn.
    apply (record_all_grouped t) in Hn as [-> _].
    exists c, i, j. split; [exact Hlt |]. eauto.
  - intros (end_ & t & Hend & Ht & c & Hc). rewrite Hend.
    cbn [mbind result_bind Py.bind].
    rewrite (proj2 (add_meetings_flat now end_ ms [] (record_all t []))
               (ex_intro _ t (conj Ht eq_refl))).
    cbn [mbind result_bind Py.bind].
    destruct (first_conflict (record_all t [])) as [[a b] |] eqn:Hfirst;
      [eauto |].
    exact (match proj1 (grouped_free t _ (record_all_grouped t)) Hfirst c Hc
           with end).
Qed.

End Verdict.

(** X16: when the expansion of the coming year completes, two occurrences
    of schedules on one channel whose instances overlap make
    [check_for_meeting_conflicts] raise MeetingConflictError, unless they
    are one and the same instance (same project, start and duration); the
    two schedules may be of one meeting, or even one schedule whose duration
    exceeds its period. *)
Theorem overlapping_occurrences_detected now end_ ms all
    m1 s1 occs1 o1 m2 s2 occs2 o2 :
  add now (timedelta_days 365) = Ok end_ →
  add_meetings now end_ ms [] = Ok all →
  m1 ∈ ms → s1 ∈ m_schedules m1 →
  m2 ∈ ms → s2 ∈ m_schedules m2 →
  irc s1 = irc s2 →
  occurrences s1 now end_ = Ok occs1 → o1 ∈ occs1 →
  occurrences s2 now end_ = Ok occs2 → o2 ∈ occs2 →
  m_project m1 ≠ m_project m2 ∨ o1 ≠ o2 ∨ duration s1 ≠ duration s2 →
  o1 < o2 + timedelta_minutes (duration s2) →
  o2 < o1 + timedelta_minutes (duration s1) →
  ∃ msg, check_for_meeting_conflicts now ms
         = Raise (MeetingConflictError msg).
Proof.
  intros Hend Hall Hm1 Hs1 Hm2 Hs2 Hirc Ho1 Hin1 Ho2 Hin2 Hdiff Hlt1 Hlt2.
  apply check_conflict. apply add_meetings_flat in Hall as (t & Ht & ->).
  exists end_, t. split; [exact Hend |]. split; [exact Ht |].
  exists (irc s1).
  destruct (flat_meetings_elem _ _ _ _ _ _ Ht Hm1 Hs1) as (l1 & Hl1 & Hx1).
  destruct (flat_meetings_elem _ _ _ _ _ _ Ht Hm2 Hs2) as (l2 & Hl2 & Hx2).
  rewrite Ho1 in Hl1. injection Hl1 as <-.
  rewrite Ho2 in Hl2. injection Hl2 as <-.
  specialize (Hx1 o1 Hin1). specialize (Hx2 o2 Hin2).
  rewrite <- Hirc in Hx2.
  apply channel_of_elem, list_elem_of_lookup in Hx1 as [i Hi].
  apply channel_of_elem, list_elem_of_lookup in Hx2 as [j Hj].
  apply has_conflict_iff. eexists i, j, _, _.
  split; [| split; [exact Hi | split; [exact Hj |]]].
  - intros ->. rewrite Hi in Hj. injection Hj as Hp Ho Hd.
    unfold timedelta_minutes, US_PER_MINUTE in Hd.
    destruct Hdiff as [H | [H | H]]; apply H; [exact Hp | exact Ho | lia].
  - apply overlaps_iff. simpl. lia.
Qed.

Lemma overlapping_occurrences_detected_witness :
  add example_now (timedelta_days 365) = Ok example_end
  ∧ add_meetings example_now example_end overlapping_meetings []
    = Ok overlapping_instances
  ∧ occurrences monday_1000 example_now example_end = Ok alpha_occurrences
  ∧ occurrences monday_1015 example_now example_end = Ok beta_occurrences
  ∧ alpha_first < beta_first + timedelta_minutes (duration monday_1015)
  ∧ beta_first < alpha_first + timedelta_minutes (duration monday_1000)
  ∧ ∃ msg, check_for_meeting_conflicts example_now overlapping_meetings
           = Raise (MeetingConflictError msg).
Proof.
  assert (Hend : add example_now (timedelta_days 365) = Ok example_end)
    by (vm_compute; reflexivity).
  assert (Hall : add_meetings example_now example_end overlapping_meetings []
                 = Ok overlapping_instances)
    by (vm_compute; reflexivity).
  assert (Ha : occurrences monday_1000 example_now example_end
               = Ok alpha_occurrences)
    by (vm_compute; reflexivity).
  assert (Hb : occurrences monday_1015 example_now example_end
               = Ok beta_occurrences)
    by (vm_compute; reflexivity).
  assert (H1 : alpha_first
               < beta_first + timedelta_minutes (duration monday_1015))
    by (vm_compute; reflexivity).
  assert (H2 : beta_first
               < alpha_first + timedelta_minutes (duration monday_1000))
    by (vm_compute; reflexivity).
  repeat (split; [assumption |]).
  apply (overlapping_occurrences_detected example_now example_end
           overlapping_meetings overlapping_instances
           (meeting_with "alpha" monday_1000) monday_1000
           alpha_occurrences alpha_first
           (meeting_with "beta" monday_1015) monday_1015
           beta_occurrences beta_first Hend Hall).
  - left.
  - left.
  - right. left.
  - left.
  - reflexivity.
  - exact Ha.
  - left.
  - exact Hb.
  - left.
  - left. discriminate.
  - exact H1.
  - exact H2.
Defined.

(** X17: whether [check_for_meeting_conflicts] returns, and whether it
    raises MeetingConflictError, does not depend on the order in which the
    meetings are given (the pair named in the message does). *)
Theorem verdict_order_independent now ms ms' :
  ms ≡ₚ ms' →
  (check_for_meeting_conflicts now ms = Ok tt
   ↔ check_for_meeting_conflicts now ms' = Ok tt)
  ∧ ((∃ msg, check_for_meeting_conflicts now ms
             = Raise (MeetingConflictError msg))
     ↔ (∃ msg, check_for_meeting_conflicts now ms'
               = Raise (MeetingConflictError msg))).
Proof.
  assert (Hok : ∀ a b, a ≡ₚ b →
            check_for_meeting_conflicts now a = Ok tt →
            check_for_meeting_conflicts now b = Ok tt).
  { intros a b Hp. rewrite !check_Ok.
    intros (end_ & t & Hend & Ht & Hfree).
    destruct (flat_meetings_perm _ _ _ _ Hp t Ht) as (t' & Ht' & Hpt).
    exists end_, t'. split; [exact Hend |]. split; [exact Ht' |].
    intros c Hc. apply (Hfree c).
    eapply has_conflict_perm; [| exact Hc].
    symmetry. apply channel_of_perm, Hpt. }
  assert (Hbad : ∀ a b, a ≡ₚ b →
            (∃ msg, check_for_meeting_conflicts now a
                    = Raise (MeetingConflictError msg)) →
            ∃ msg, check_for_meeting_conflicts now b
                   = Raise (MeetingConflictError msg)).
  { intros a b Hp. rewrite !check_conflict.
    intros (end_ & t & Hend & Ht & c & Hc).
    destruct (flat_meetings_perm _ _ _ _ Hp t Ht) as (t' & Ht' & Hpt).
    exists end_, t'. split; [exact Hend |]. split; [exact Ht' |].
    exists c. eapply has_conflict_perm; [| exact Hc].
    apply channel_of_perm, Hpt. }
  intros Hp. split; split; first [apply Hok | apply Hbad];
    first [exact Hp | symmetry; exact Hp].
Qed.

Lemma verdict_order_independent_witness :
  overlapping_meetings ≡ₚ reverse overlapping_meetings
  ∧ check_for_meeting_conflicts example_now overlapping_meetings
    = Raise (MeetingConflictError "Conflict: alpha and beta")
  ∧ check_for_meeting_conflicts example_now (reverse overlapping_meetings)
    = Raise (MeetingConflictError "Conflict: beta and alpha")
  ∧ ∃ msg, check_for_meeting_conflicts example_now
             (reverse overlapping_meetings)
           = Raise (MeetingConflictError msg).
Proof.
  assert (Hp : overlapping_meetings ≡ₚ reverse overlapping_meetings)
    by (symmetry; apply reverse_Permutation).
  split; [exact Hp |].
  split; [vm_compute; reflexivity |].
  split; [vm_compute; reflexivity |].
  apply (verdict_order_independent example_now overlapping_meetings
           (reverse overlapping_meetings) Hp).
  exists "Conflict: alpha and beta". vm_compute. reflexivity.
Defined.
